(** * The sample runner of the XLS fuzzer: pipeline orchestration and
      result comparison

    A shallow embedding of [xls/fuzzer/sample_runner.py].  The two result
    comparators ([_compare_results_function], [_compare_results_proc]) are
    embedded as computations that either return or raise a Python
    exception, and that record every call of [values_equal] they make.
    The orchestrator ([run_from_files], [_run_function], [_run_proc] and
    the helper methods) is embedded in a state-and-exception monad over the
    run directory and a log of the stages that were entered. *)

From Stdlib Require Import String Ascii DecimalString HexadecimalString List
  OrdersEx.
From stdpp Require Import base list strings sorting gmap.

#[local] Open Scope string_scope.
#[local] Open Scope list_scope.

(** ** Python values shared by both parts *)

(** Exceptions.  Every constructor is a subclass of Python's [Exception];
    the string carried is what [str(e)] returns. *)
Inductive exn : Type :=
  | SampleError (msg : string) (is_timeout : bool)
  | AssertionError                        (* a bare [assert]: str(e) = '' *)
  | IndexError (txt : string)
  | KeyError (txt : string)
  | TypeError (txt : string)
  | TimeoutExpired (txt : string)          (* subprocess.TimeoutExpired *)
  | CalledProcessError (txt : string)      (* subprocess.CalledProcessError *)
  | ForeignError (txt : string) (message : option string).
      (* any other exception, e.g. a pybind11-bound C++ error, which
         may carry a [message] attribute *)

(** [str(e)] *)
Definition exn_str (e : exn) : string :=
  match e with
  | SampleError msg _ => msg
  | AssertionError => EmptyString
  | IndexError txt | KeyError txt | TypeError txt
  | TimeoutExpired txt | CalledProcessError txt | ForeignError txt _ => txt
  end.

(** [e.message if hasattr(e, 'message') else str(e)] *)
Definition exn_message (e : exn) : string :=
  match e with
  | ForeignError txt (Some m) => m
  | _ => exn_str e
  end.

(** [isinstance(e, subprocess.TimeoutExpired)] *)
Definition is_TimeoutExpired (e : exn) : bool :=
  match e with TimeoutExpired _ => true | _ => false end.

(** [str(n)] for a non-negative integer. *)
Definition str_nat (n : nat) : string :=
  DecimalString.NilZero.string_of_uint (Nat.to_uint n).

(** The newline character of the f-strings. *)
Definition nl : string := String "010"%char EmptyString.

(** [sep.join(l)] *)
Definition join (sep : string) (l : list string) : string := String.concat sep l.

(** Python compares [str] objects lexicographically by code point; on
    strings of 8-bit characters that is [String.leb]. *)
Definition string_le (a b : string) : Prop := String.leb a b = true.

#[global] Instance string_le_dec (a b : string) : Decision (string_le a b).
Proof. unfold string_le. apply _. Defined.

(** [sorted(l)] for a list of strings. *)
Definition sorted (l : list string) : list string := merge_sort string_le l.

(** Truthiness of an [Optional[list]]: [None] and the empty list are false. *)
Definition truthy_list {A} (o : option (list A)) : bool :=
  match o with Some (_ :: _) => true | _ => false end.

(** Truthiness of an [Optional[str]]. *)
Definition truthy_str (o : option string) : bool :=
  match o with Some (String _ _) => true | _ => false end.

(** Two built-ins of Python's [str] are kept symbolic: [repr(s)] and
    [s.strip()]. *)
Class PyStr : Type := {
  repr_str : string → string;
  str_strip : string → string;
}.

(** ** The interface of [Value]

    [xls.dslx.python.interp_value.Value] is not part of the sources at
    hand; the comparators use three of its operations. *)
Class ValueOps (Value : Type) : Type := {
  (** [a.eq(b).is_true()] *)
  values_equal : Value → Value → bool;
  (** [v.to_ir_str()], the canonical text of a value *)
  to_ir_str : Value → string;
  (** [str(v)], as interpolated by an f-string *)
  value_str : Value → string;
}.

(** ** The comparator monad: exceptions and a record of comparisons *)

(** One call of [values_equal]: the stages the two operands were read
    from, the channel (proc mode only) and the index. *)
Inductive cmp_event : Type :=
  Compared (left_stage right_stage : string) (channel : option string) (index : nat).

Definition involves (stage : string) (c : cmp_event) : Prop :=
  match c with Compared l r _ _ => l = stage ∨ r = stage end.

Definition Cmp (A : Type) : Type := list cmp_event * (exn + A).

#[global] Instance Cmp_ret : MRet Cmp := λ A a, ([], inr a).
#[global] Instance Cmp_bind : MBind Cmp := λ A B f m,
  match m with
  | (t, inl e) => (t, inl e)
  | (t, inr a) => let '(t', r) := f a in (t ++ t', r)
  end.

(** [raise e], in either monad of this development. *)
Class MRaise (M : Type → Type) : Type := raise : ∀ {A}, exn → M A.
#[global] Arguments raise {_ _ _} _ : assert.

#[global] Instance Cmp_raise : MRaise Cmp := λ A e, ([], inl e).
Definition tell (c : cmp_event) : Cmp unit := ([c], inr tt).

Definition comparisons {A} (m : Cmp A) : list cmp_event := m.1.
Definition outcome {A} (m : Cmp A) : exn + A := m.2.

(** [assert b] *)
Definition py_assert `{MRet M, MRaise M} (b : bool) : M unit :=
  if b then mret tt else raise AssertionError.

(** [for i in range(n): body(i)], counting from [i]. *)
Fixpoint for_range_from (i n : nat) (body : nat → Cmp unit) : Cmp unit :=
  match n with
  | O => mret tt
  | S n' => body i;; for_range_from (S i) n' body
  end.
Definition for_range (n : nat) (body : nat → Cmp unit) : Cmp unit :=
  for_range_from 0 n body.

(** [for x in l: body(x)] *)
Fixpoint for_each {A} (l : list A) (body : A → Cmp unit) : Cmp unit :=
  match l with
  | [] => mret tt
  | x :: l' => body x;; for_each l' body
  end.

(** ** Ordered dictionaries

    A [dict] / [collections.OrderedDict] with string keys is the list of
    its items in insertion order; the keys of a dictionary are distinct. *)
Abbreviation odict V := (list (string * V)) (only parsing).

Definition keys {V} (d : odict V) : list string := d.*1.

Definition odict_wf {V} (d : odict V) : Prop := NoDup (keys d).

(** [d.get(k)] *)
Fixpoint odict_get {V} (d : odict V) (k : string) : option V :=
  match d with
  | [] => None
  | (k', v) :: d' => if decide (k' = k) then Some v else odict_get d' k
  end.

(** [d[k] = v]: an existing key keeps its position. *)
Fixpoint odict_set {V} (d : odict V) (k : string) (v : V) : odict V :=
  match d with
  | [] => [(k, v)]
  | (k', v') :: d' =>
      if decide (k' = k) then (k, v) :: d' else (k', v') :: odict_set d' k v
  end.

Section Comparators.
Context {Value : Type} `{!ValueOps Value}.

(** [ArgsBatch = List[List[Value]]] *)
Definition ArgsBatch : Type := list (list Value).

(** [d[k]]; the text of a [KeyError] is [repr(k)], which the comparators
    never reach and which is left uninterpreted here. *)
Definition getitem {V} (d : odict V) (k : string) : Cmp V :=
  match odict_get d k with
  | Some v => mret v
  | None => raise (KeyError k)
  end.

(** [t[i]] on a tuple *)
Definition tuple_index {A} (t : list A) (i : nat) : Cmp A :=
  match t !! i with
  | Some x => mret x
  | None => raise (IndexError "tuple index out of range")
  end.

(** [l[i]] on a list *)
Definition list_index {A} (l : list A) (i : nat) : Cmp A :=
  match l !! i with
  | Some x => mret x
  | None => raise (IndexError "list index out of range")
  end.

(** [values_equal(a, b)], recorded. *)
Definition values_equal_at (l r : string) (ch : option string) (i : nat)
    (a b : Value) : Cmp bool :=
  tell (Compared l r ch i);; mret (values_equal a b).

(** *** Function mode: [_compare_results_function] *)

Definition length_mismatch_msg (reference : string) (nref : nat)
    (name : string) (n : nat) : string :=
  "Results for " +:+ reference +:+ " has " +:+ str_nat nref +:+ " values,"
  +:+ " " +:+ name +:+ " has " +:+ str_nat n.

Definition miscompare_msg (i : nat) (args : string)
    (reference_matches : list string) (ref_ir : string)
    (values_matches : list string) (val_ir : string) : string :=
  "Result miscompare for sample " +:+ str_nat i +:+ ":"
  +:+ nl +:+ "args: " +:+ args
  +:+ nl +:+ join ", " reference_matches +:+ " ="
  +:+ nl +:+ "   " +:+ ref_ir
  +:+ nl +:+ join ", " values_matches +:+ " ="
  +:+ nl +:+ "   " +:+ val_ir.

(** The generator [n for n, v in results.items() if values_equal(v[i], x)],
    run to its end; [who] names the stage [x] was read from. *)
Fixpoint matching_stages (items : odict (list Value)) (i : nat)
    (who : string) (x : Value) : Cmp (list string) :=
  match items with
  | [] => mret []
  | (n, v) :: items' =>
      vi ← tuple_index v i;
      b ← values_equal_at n who None i vi x;
      ns ← matching_stages items' i who x;
      mret (if b : bool then n :: ns else ns)
  end.

(** The text substituted for [args]. *)
Definition args_text (args_batch : option ArgsBatch) (i : nat) : Cmp string :=
  if truthy_list args_batch then
    row ← list_index (default [] args_batch) i;
    mret (join "; " (to_ir_str <$> row))
  else mret "(args unknown)".

(** The body of [for i in range(len(values))]. *)
Definition compare_index (results : odict (list Value))
    (args_batch : option ArgsBatch) (reference name : string)
    (values : list Value) (i : nat) : Cmp unit :=
  ref_values ← getitem results reference;
  ref_result ← tuple_index ref_values i;
  vi ← tuple_index values i;
  b ← values_equal_at reference name None i ref_result vi;
  if b : bool then mret tt
  else
    reference_matches ← matching_stages results i reference ref_result;
    values_matches ← matching_stages results i name vi;
    args ← args_text args_batch i;
    raise (SampleError
             (miscompare_msg i args (sorted reference_matches)
                (to_ir_str ref_result) (sorted values_matches)
                (to_ir_str vi)) false).

(** The [else] branch of the loop over the stages: [name] is compared
    with [reference]. *)
Definition compare_stage (results : odict (list Value))
    (args_batch : option ArgsBatch) (reference name : string)
    (values : list Value) : Cmp unit :=
  ref_values ← getitem results reference;
  if negb (length ref_values =? length values)%nat then
    raise (SampleError
             (length_mismatch_msg reference (length ref_values)
                name (length values)) false)
  else
    for_range (length values)
      (compare_index results args_batch reference name values).

(** [for name in sorted(results.keys())], with the loop variable
    [reference] threaded through. *)
Fixpoint compare_loop (results : odict (list Value))
    (args_batch : option ArgsBatch) (names : list string)
    (reference : option string) : Cmp unit :=
  match names with
  | [] => mret tt
  | name :: names' =>
      values ← getitem results name;
      match reference with
      | None => compare_loop results args_batch names' (Some name)
      | Some r =>
          compare_stage results args_batch r name values;;
          compare_loop results args_batch names' (Some r)
      end
  end.

(** [if args_batch: assert len(next(iter(results.values()))) == len(args_batch)]
    on a non-empty [results] whose first inserted value is [first]. *)
Definition assert_batch_length (first : list Value)
    (args_batch : option ArgsBatch) : Cmp unit :=
  if truthy_list args_batch then
    py_assert (length first =? length (default [] args_batch))%nat
  else mret tt.

Definition _compare_results_function (results : odict (list Value))
    (args_batch : option ArgsBatch) : Cmp unit :=
  match results with
  | [] => mret tt                                   (* if not results: return *)
  | (_, first) :: _ =>
      assert_batch_length first args_batch;;
      compare_loop results args_batch (sorted (keys results)) None
  end.

(** *** Proc mode: [_compare_results_proc] *)

(** A list of strings is printed as its items' [repr],
    comma-separated, in brackets. *)
Context `{!PyStr}.

Definition repr_list (l : list string) : string :=
  "[" +:+ join ", " (repr_str <$> l) +:+ "]".

Definition channel_count_msg (reference : string)
    (ref_channels : list string) (name : string)
    (channels : list string) : string :=
  "Results for " +:+ reference +:+ " has "
  +:+ str_nat (length ref_channels) +:+ " "
  +:+ " channels, " +:+ name +:+ " has "
  +:+ str_nat (length channels) +:+ " channels. "
  +:+ "The IR channel names in " +:+ reference +:+ " are: "
  +:+ repr_list ref_channels +:+ "."
  +:+ "The IR channel names in " +:+ name +:+ " are: "
  +:+ repr_list channels +:+ ".".

Definition missing_channel_msg (channel reference name : string) : string :=
  "A channel named " +:+ channel +:+ " is present in " +:+ reference +:+ ", "
  +:+ "but it is not present in " +:+ name +:+ ".".

Definition channel_length_msg (reference channel : string) (nref : nat)
    (name : string) (n : nat) : string :=
  "In " +:+ reference +:+ ", channel '" +:+ channel +:+ "' has "
  +:+ str_nat nref +:+ " entries. However, in " +:+ name +:+ ", "
  +:+ "channel '" +:+ channel +:+ "' has " +:+ str_nat n +:+ " "
  +:+ "entries.".

Definition channel_value_msg (reference : string) (i : nat)
    (channel : string) (value_ref : Value) (name : string)
    (value : Value) : string :=
  "In " +:+ reference +:+ ", at position " +:+ str_nat i +:+ " channel '"
  +:+ channel +:+ "' "
  +:+ "has value " +:+ value_str value_ref +:+ ". However, in " +:+ name
  +:+ ", the value is "
  +:+ value_str value +:+ ".".

(** The body of [for i in range(len(channel_values))]. *)
Definition compare_channel_index (reference name channel : string)
    (channel_values_ref channel_values : list Value) (i : nat) : Cmp unit :=
  value_ref ← list_index channel_values_ref i;
  value ← list_index channel_values i;
  b ← values_equal_at reference name (Some channel) i value_ref value;
  if b : bool then mret tt
  else raise (SampleError
                (channel_value_msg reference i channel value_ref name value)
                false).

(** The body of [for channel_name_ref, channel_values_ref in ...items()]. *)
Definition compare_channel (reference name : string)
    (all_channel_values : odict (list Value))
    (item : string * list Value) : Cmp unit :=
  let '(channel_name_ref, channel_values_ref) := item in
  match odict_get all_channel_values channel_name_ref with
  | None =>
      raise (SampleError
               (missing_channel_msg channel_name_ref reference name) false)
  | Some channel_values =>
      if negb (length channel_values_ref =? length channel_values)%nat then
        raise (SampleError
                 (channel_length_msg reference channel_name_ref
                    (length channel_values_ref) name
                    (length channel_values)) false)
      else
        for_range (length channel_values)
          (compare_channel_index reference name channel_name_ref
             channel_values_ref channel_values)
  end.

(** The body of [for name in stages]. *)
Definition compare_stage_proc (results : odict (odict (list Value)))
    (reference : string) (all_channel_values_ref : odict (list Value))
    (name : string) : Cmp unit :=
  all_channel_values ← getitem results name;
  if negb (length all_channel_values_ref =? length all_channel_values)%nat then
    raise (SampleError
             (channel_count_msg reference (keys all_channel_values_ref)
                name (keys all_channel_values)) false)
  else
    for_each all_channel_values_ref
      (compare_channel reference name all_channel_values).

Definition _compare_results_proc (results : odict (odict (list Value)))
    : Cmp unit :=
  match results with
  | [] => mret tt                                   (* if not results: return *)
  | _ :: _ =>
      match sorted (keys results) with
      | [] => raise (IndexError "pop from empty list")
      | reference :: stages =>                        (* stages.pop(0) *)
          all_channel_values_ref ← getitem results reference;
          for_each stages
            (compare_stage_proc results reference all_channel_values_ref)
      end
  end.

End Comparators.

(** ** A concrete [Value] for the examples *)

(** [all2 f l1 l2]: the lists have the same length and [f] holds
    pointwise. *)
Definition all2 {A} (f : A → A → bool) : list A → list A → bool :=
  fix go l1 l2 :=
    match l1, l2 with
    | [], [] => true
    | x :: l1', y :: l2' => f x y && go l1' l2'
    | _, _ => false
    end.

(** Modelled from the spec: the class [Value] of
    [xls.dslx.python.interp_value] is missing from the sources.  A value is
    a tagged, width-annotated datum: a scalar bit-vector, a tuple, or an
    array of values. *)
#[local] Set Warnings "-register-all".
Inductive SpecValue : Type :=
  | SBits (signed : bool) (width : nat) (pattern : N)
  | STuple (elems : list SpecValue)
  | SArray (elems : list SpecValue).

(** Modelled from the spec: equality of [Value]s is missing from the
    sources.  It is defined over the bit pattern and the width,
    independent of the signed/unsigned tag. *)
Fixpoint spec_values_equal (a b : SpecValue) : bool :=
  match a, b with
  | SBits _ w1 p1, SBits _ w2 p2 => (w1 =? w2)%nat && (p1 =? p2)%N
  | STuple l1, STuple l2 => all2 spec_values_equal l1 l2
  | SArray l1, SArray l2 => all2 spec_values_equal l1 l2
  | _, _ => false
  end.

(** Modelled from the spec: the canonical text of a [Value] is missing
    from the sources.  It is a width-tagged literal such as
    [bits[32]:0x2a]. *)
Fixpoint spec_to_ir_str (v : SpecValue) : string :=
  match v with
  | SBits _ w p =>
      "bits[" +:+ str_nat w +:+ "]:0x"
      +:+ HexadecimalString.NilZero.string_of_uint (N.to_hex_uint p)
  | STuple l => "(" +:+ join ", " (spec_to_ir_str <$> l) +:+ ")"
  | SArray l => "[" +:+ join ", " (spec_to_ir_str <$> l) +:+ "]"
  end.

#[global] Instance SpecValue_ops : ValueOps SpecValue := {
  values_equal := spec_values_equal;
  to_ir_str := spec_to_ir_str;
  value_str := spec_to_ir_str;
}.

(** ** The run directory and the orchestrator monad *)

(** The stages of the pipeline, as the helper methods that run them. *)
Inductive stage : Type :=
  | InterpretDslx                                   (* _interpret_dslx_* *)
  | ConvertToIr                                     (* _dslx_to_ir_* *)
  | EvaluateIr (ir_filename : string) (use_jit : bool)  (* _evaluate_ir_* *)
  | OptimizeIr                                      (* _optimize_ir *)
  | Codegen                                         (* _codegen *)
  | Simulate.                                       (* _simulate_* *)

#[global] Instance stage_eq_dec : EqDecision stage.
Proof. solve_decision. Defined.

(** What a run leaves behind, in order: the files written, the commands
    run, the stages entered, the stages left by an exception, and the
    calls of a comparator. *)
Inductive event : Type :=
  | Wrote (filename content : string)
  | Ran (cmd : list string)
  | Entered (s : stage)
  | Failed (s : stage) (e : exn)
  | ComparedResults.

(** The run directory (file name to content) and the log of the run. *)
Record world : Type := World {
  files : gmap string string;
  log : list event;
}.

Definition add_log (ev : event) (w : world) : world :=
  {| files := files w; log := log w ++ [ev] |}.

(** The events a run added to the log, from the world before it and
    the world after it. *)
Definition new_events (w w' : world) : list event :=
  drop (length (log w)) (log w').

Definition Run (A : Type) : Type := world → (exn + A) * world.

#[global] Instance Run_ret : MRet Run := λ A a w, (inr a, w).
#[global] Instance Run_bind : MBind Run := λ A B f m w,
  match m w with
  | (inl e, w') => (inl e, w')
  | (inr a, w') => f a w'
  end.
#[global] Instance Run_raise : MRaise Run := λ A e w, (inl e, w).

(** The log entry of a command. *)
Definition ran (cmd : list string) : Run unit :=
  λ w, (inr (), add_log (Ran cmd) w).

(** A pure computation that may raise. *)
Definition lift {A} (r : exn + A) : Run A := λ w, (r, w).

(** [try: body / except Exception as e: handler(e)] *)
Definition try_except {A} (body : Run A) (handler : exn → Run A) : Run A :=
  λ w, match body w with
       | (inl e, w') => handler e w'
       | (inr a, w') => (inr a, w')
       end.

(** A helper method that runs stage [s]: entering it is logged, and so
    is leaving it by an exception. *)
Definition in_stage {A} (s : stage) (body : Run A) : Run A :=
  λ w, match body (add_log (Entered s) w) with
       | (inl e, w') => (inl e, add_log (Failed s e) w')
       | (inr a, w') => (inr a, w')
       end.

(** [mapM] for computations that may raise: the first exception wins. *)
Fixpoint map_exn {A B} (f : A → exn + B) (l : list A) : exn + list B :=
  match l with
  | [] => inr []
  | x :: l' =>
      match f x with
      | inl e => inl e
      | inr y => match map_exn f l' with
                 | inl e => inl e
                 | inr ys => inr (y :: ys)
                 end
      end
  end.

(** [os.path.basename] *)
Fixpoint basename_from (acc s : string) : string :=
  match s with
  | EmptyString => acc
  | String c s' =>
      if Ascii.eqb c "/" then basename_from EmptyString s'
      else basename_from (acc +:+ String c EmptyString) s'
  end.
Definition basename (s : string) : string := basename_from EmptyString s.

(** [s.split('\n')] *)
Fixpoint split_lines_from (cur s : string) : list string :=
  match s with
  | EmptyString => [cur]
  | String c s' =>
      if Ascii.eqb c "010" then cur :: split_lines_from EmptyString s'
      else split_lines_from (cur +:+ String c EmptyString) s'
  end.
Definition split_lines (s : string) : list string := split_lines_from EmptyString s.

(** [d[k].append(x)] *)
Fixpoint odict_append {V} (d : odict (list V)) (k : string) (x : V)
    : exn + odict (list V) :=
  match d with
  | [] => inl (KeyError k)
  | (k', l) :: d' =>
      if decide (k' = k) then inr ((k', l ++ [x]) :: d')
      else match odict_append d' k x with
           | inl e => inl e
           | inr d'' => inr ((k', l) :: d'')
           end
  end.

(** ** Sample options *)

Inductive TopType : Type := TopType_function | TopType_proc.

Record SampleOptions : Type := {
  top_type : TopType;
  input_is_dslx : bool;
  ir_converter_args : list string;
  convert_to_ir : bool;
  optimize_ir : bool;
  use_jit : bool;
  codegen : bool;
  codegen_args : list string;
  simulate : bool;
  simulator : option string;
  use_system_verilog : bool;
  timeout_seconds : option nat;
}.

Definition with_convert_to_ir (b : bool) (o : SampleOptions) : SampleOptions :=
  {| top_type := top_type o; input_is_dslx := input_is_dslx o;
     ir_converter_args := ir_converter_args o; convert_to_ir := b;
     optimize_ir := optimize_ir o; use_jit := use_jit o;
     codegen := codegen o; codegen_args := codegen_args o;
     simulate := simulate o; simulator := simulator o;
     use_system_verilog := use_system_verilog o;
     timeout_seconds := timeout_seconds o |}.

(** ** The external collaborators

    Everything the runner imports from outside this file: the tool
    binaries behind [subprocess.run], the DSLX interpreter, and the
    codecs of values, options and channel files.  Each may raise. *)
Class Toolchain (Value IRValue : Type) : Type := {
  IR_CONVERTER_MAIN_PATH : string;
  EVAL_IR_MAIN_PATH : string;
  EVAL_PROC_MAIN_PATH : string;
  IR_OPT_MAIN_PATH : string;
  CODEGEN_MAIN_PATH : string;
  SIMULATE_MODULE_MAIN_PATH : string;
  (** [logging.get_verbosity()], when positive; [0] otherwise *)
  verbosity : nat;
  (** [revision.get_revision()] *)
  get_revision : string;
  (** [runtime_build_actions.get_default_dslx_stdlib_path()] *)
  get_default_dslx_stdlib_path : string;
  (** [subprocess.run(cmd, timeout=t)] followed by [check_returncode()]
      and the decoding of stdout: what the tool wrote to stderr, and
      its stdout or the exception raised.  What a tool does to the run
      directory on its own (codegen_main writes module_sig.textproto
      there) is not part of the model: the runner reads none of it *)
  subprocess_run : list string → option nat → string * (exn + string);
  (** the text of the [OSError] raised by opening a missing file *)
  missing_file_text : string → string;
  (** [sample.SampleOptions.from_json] *)
  options_from_json : string → exn + SampleOptions;
  (** [sample.parse_args_batch] *)
  parse_args_batch : string → exn + list (list Value);
  (** [sample.parse_ir_channel_names] *)
  parse_ir_channel_names : string → exn + list string;
  (** [sample.parse_proc_init_values] *)
  parse_proc_init_values : string → exn + list Value;
  (** [interpreter.run_function_batched] *)
  run_function_batched :
    string → string → list (list Value) → string → exn + list Value;
  (** [interpreter.run_proc] *)
  run_proc :
    string → string → list (list Value) → option (list Value) → string →
    exn + odict (list Value);
  (** [interp_value_from_ir_string] *)
  interp_value_from_ir_string : string → exn + Value;
  (** [Value.convert_values_to_ir] *)
  convert_values_to_ir : list Value → exn + list IRValue;
  (** [eval_helpers.channel_values_to_string] *)
  channel_values_to_string : odict (list IRValue) → exn + string;
  (** [eval_helpers.parse_channel_values] *)
  parse_channel_values : string → nat → exn + odict (list IRValue);
  (** [IRValue.to_str] *)
  ir_value_to_str : IRValue → string;
  (** [Value.to_human_str] *)
  to_human_str : Value → string;
  (** [check_simulator.check_simulator] *)
  check_simulator : option string → exn + unit;
}.

Section Runner.
Context {Value IRValue : Type}.
Context `{!ValueOps Value, !PyStr, !Toolchain Value IRValue}.

(** *** Files and commands *)

Definition _write_file (filename content : string) : Run string :=
  λ w, (inr filename,
        {| files := <[filename := content]> (files w);
           log := log w ++ [Wrote filename content] |}).

(** The content of a file is the text that was written; the translation
    of line endings by [open] in text mode is not modelled. *)
Definition _read_file (filename : string) : Run string :=
  λ w, match files w !! filename with
       | Some content => (inr content, w)
       | None => (inl (ForeignError (missing_file_text filename) None), w)
       end.

(** [desc] only reaches the log output of the program. *)
Definition _run_command (desc : string) (args : list string)
    (options : SampleOptions) : Run string :=
  let args :=
    if (0 <? verbosity)%nat then args ++ ["-v=" +:+ str_nat verbosity]
    else args in
  match args with
  | [] => raise (IndexError "list index out of range")        (* args[0] *)
  | arg0 :: _ =>
      let stderr_path := basename arg0 +:+ ".stderr" in
      let cmd := args ++ ["--logtostderr"] in
      let '(stderr_text, comp) :=
        subprocess_run cmd (timeout_seconds options) in
      ran cmd;;
      _write_file stderr_path stderr_text;;
      lift comp
  end.

(** [x = None] followed by [if filename: x = parse(self._read_file(filename))] *)
Definition read_optional {A} (parse : string → exn + A)
    (filename : option string) : Run (option A) :=
  if truthy_str filename then
    text ← _read_file (default EmptyString filename);
    x ← lift (parse text);
    mret (Some x)
  else mret None.

Definition _parse_values (s : string) : exn + list Value :=
  map_exn interp_value_from_ir_string
    (filter (λ line, line ≠ EmptyString) (str_strip <$> split_lines s)).

(** *** The stages of function mode *)

Definition _interpret_dslx_function (text top_name : string)
    (args_batch : list (list Value)) : Run (list Value) :=
  in_stage InterpretDslx (
    dslx_results ← lift (run_function_batched text top_name args_batch
                           get_default_dslx_stdlib_path);
    _write_file "sample.x.results" (join nl (to_ir_str <$> dslx_results));;
    mret dslx_results).

Definition evaluating_desc (use_jit : bool) (ir_filename : string) : string :=
  "Evaluating IR file (" +:+ (if use_jit then "JIT" else "interpreter")
  +:+ "): " +:+ ir_filename.

Definition _evaluate_ir_function (ir_filename args_filename : string)
    (use_jit : bool) (options : SampleOptions) : Run (list Value) :=
  in_stage (EvaluateIr ir_filename use_jit) (
    results_text ← _run_command (evaluating_desc use_jit ir_filename)
      [EVAL_IR_MAIN_PATH; "--input_file=" +:+ args_filename;
       if use_jit then "--use_llvm_jit" else "--nouse_llvm_jit";
       ir_filename] options;
    _write_file (ir_filename +:+ ".results") results_text;;
    lift (_parse_values results_text)).

Definition _dslx_to_ir_function (dslx_filename : string)
    (options : SampleOptions) : Run string :=
  in_stage ConvertToIr (
    ir_text ← _run_command "Converting DSLX to IR"
      ([IR_CONVERTER_MAIN_PATH] ++ ir_converter_args options
       ++ [dslx_filename]) options;
    _write_file "sample.ir" ir_text).

Definition _optimize_ir (ir_filename : string) (options : SampleOptions)
    : Run string :=
  in_stage OptimizeIr (
    opt_ir_text ← _run_command "Optimizing IR"
      [IR_OPT_MAIN_PATH; ir_filename] options;
    _write_file "sample.opt.ir" opt_ir_text).

Definition _codegen (ir_filename : string) (codegen_args : list string)
    (options : SampleOptions) : Run string :=
  in_stage Codegen (
    verilog_text ← _run_command "Generating Verilog"
      ([CODEGEN_MAIN_PATH; "--output_signature_path=module_sig.textproto";
        "--delay_model=unit"] ++ codegen_args ++ [ir_filename]) options;
    _write_file
      (if use_system_verilog options then "sample.sv" else "sample.v")
      verilog_text).

Definition _simulate_function (verilog_filename module_sig_filename
    args_filename : string) (options : SampleOptions) : Run (list Value) :=
  in_stage Simulate (
    let simulator_args :=
      [SIMULATE_MODULE_MAIN_PATH;
       "--signature_file=" +:+ module_sig_filename;
       "--args_file=" +:+ args_filename]
      ++ (if truthy_str (simulator options)
          then ["--verilog_simulator=" +:+ default EmptyString (simulator options)]
          else [])
      ++ [verilog_filename] in
    lift (check_simulator (simulator options));;
    results_text ← _run_command ("Simulating Verilog " +:+ verilog_filename)
      simulator_args options;
    _write_file (verilog_filename +:+ ".results") results_text;;
    lift (_parse_values results_text)).

(** *** The stages of proc mode *)

Definition none_not_iterable : exn :=
  TypeError "'NoneType' object is not iterable".

(** [ir_channel_values[key] = Value.convert_values_to_ir(values)] over
    the items of a dictionary. *)
Definition convert_channels (d : odict (list Value))
    : exn + odict (list IRValue) :=
  map_exn (λ '(key, values),
             match convert_values_to_ir values with
             | inl e => inl e
             | inr ir_values => inr (key, ir_values)
             end) d.

Definition _interpret_dslx_proc (text top_name : string)
    (args_batch : list (list Value))
    (proc_init_values : option (list Value)) : Run (odict (list Value)) :=
  in_stage InterpretDslx (
    dslx_results ← lift (run_proc text top_name args_batch proc_init_values
                           get_default_dslx_stdlib_path);
    ir_channel_values ← lift (convert_channels dslx_results);
    content ← lift (channel_values_to_string ir_channel_values);
    _write_file "sample.x.results" content;;
    mret dslx_results).

(** One row of the batch: [all_channel_values[ir_channel_names[i]]
    .append(channel_values[i])] for every [i]. *)
Fixpoint append_row (d : odict (list Value)) (cells : list (string * Value))
    : exn + odict (list Value) :=
  match cells with
  | [] => inr d
  | (k, x) :: cells' =>
      match odict_append d k x with
      | inl e => inl e
      | inr d' => append_row d' cells'
      end
  end.

(** [for channel_values in args_batch: assert ...; for i in ...] *)
Fixpoint gather_channels (d : odict (list Value)) (names : list string)
    (batch : list (list Value)) : exn + odict (list Value) :=
  match batch with
  | [] => inr d
  | channel_values :: batch' =>
      if negb (length channel_values =? length names)%nat
      then inl AssertionError
      else match append_row d (zip names channel_values) with
           | inl e => inl e
           | inr d' => gather_channels d' names batch'
           end
  end.

Definition _evaluate_ir_proc (ir_filename : string)
    (args_batch : option (list (list Value)))
    (ir_channel_names : option (list string)) (use_jit : bool)
    (options : SampleOptions) : Run (odict (list Value)) :=
  in_stage (EvaluateIr ir_filename use_jit) (
    match ir_channel_names, args_batch with
    | None, _ | _, None => raise none_not_iterable
    | Some names, Some batch =>
        let empty_channels :=            (* {k: [] for k in ir_channel_names} *)
          foldl (λ d k, odict_set d k []) [] names in
        all_channel_values ← lift (gather_channels empty_channels names batch);
        ir_channel_values ← lift (convert_channels all_channel_values);
        content ← lift (channel_values_to_string ir_channel_values);
        channel_values_filename ← _write_file "channel_inputs.txt" content;
        results_text ← _run_command (evaluating_desc use_jit ir_filename)
          [EVAL_PROC_MAIN_PATH;
           "--inputs_for_all_channels=" +:+ channel_values_filename;
           "--ticks=" +:+ str_nat (length batch);
           "--backend=" +:+ (if use_jit then "serial_jit" else "ir_interpreter");
           ir_filename] options;
        _write_file (ir_filename +:+ ".results") results_text;;
        ir_channel_values_result ←
          lift (parse_channel_values results_text (length batch));
        lift (map_exn
                (λ '(key, values),
                   match map_exn (λ value, interp_value_from_ir_string
                                             (ir_value_to_str value)) values with
                   | inl e => inl e
                   | inr vs => inr (key, vs)
                   end)
                ir_channel_values_result)
    end).

Definition _dslx_to_ir_proc (dslx_filename : string)
    (proc_init_values : option (list Value)) (options : SampleOptions)
    : Run string :=
  in_stage ConvertToIr (
    match proc_init_values with
    | None => raise none_not_iterable
    | Some values =>
        let proc_init_values_str := join "," (to_human_str <$> values) in
        ir_text ← _run_command "Converting DSLX to IR"
          ([IR_CONVERTER_MAIN_PATH] ++ ir_converter_args options
           ++ ["--top_proc_initial_state=" +:+ proc_init_values_str;
               dslx_filename]) options;
        _write_file "sample.ir" ir_text
    end).

Definition _simulate_proc : Run (odict (list Value)) :=
  in_stage Simulate
    (raise (SampleError "Simulation for procs are not supported." false)).

(** *** The comparators, as called by the orchestrator *)

Definition call_compare_results_function (results : odict (list Value))
    (args_batch : option (list (list Value))) : Run unit :=
  λ w, (outcome (_compare_results_function results args_batch),
        add_log ComparedResults w).

Definition call_compare_results_proc
    (results : odict (odict (list Value))) : Run unit :=
  λ w, (outcome (_compare_results_proc results), add_log ComparedResults w).

(** *** The orchestrator

    The [Timer] blocks and the [timing] record hold wall-clock readings
    that no control flow depends on; they are left out. *)

(** [_run_function] once [ir_filename] is in place: evaluation of the
    unoptimized IR, optimization, evaluation of the optimized IR, code
    generation, simulation and comparison. *)
Definition _run_function_from_ir (options : SampleOptions)
    (args_filename : option string)
    (args_batch : option (list (list Value)))
    (results : odict (list Value)) (ir_filename : string) : Run unit :=
  results ←
    match args_filename with
    | Some af =>                               (* args_filename is not None *)
        r ← _evaluate_ir_function ir_filename af false options;
        let results := odict_set results "evaluated unopt IR (interpreter)" r in
        if use_jit options then
          r ← _evaluate_ir_function ir_filename af true options;
          mret (odict_set results "evaluated unopt IR (JIT)" r)
        else mret results
    | None => mret results
    end;
  results ←
    (if optimize_ir options then
       opt_ir_filename ← _optimize_ir ir_filename options;
       results ←
         match args_filename with
         | Some af =>
             results ←
               (if use_jit options then
                  r ← _evaluate_ir_function opt_ir_filename af true options;
                  mret (odict_set results "evaluated opt IR (JIT)" r)
                else mret results);
             r ← _evaluate_ir_function opt_ir_filename af false options;
             mret (odict_set results "evaluated opt IR (interpreter)" r)
         | None => mret results
         end;
       if codegen options then
         verilog_filename ←
           _codegen opt_ir_filename (codegen_args options) options;
         if simulate options then
           match args_filename with
           | None => raise AssertionError  (* assert args_filename is not None *)
           | Some af =>
               r ← _simulate_function verilog_filename
                     "module_sig.textproto" af options;
               mret (odict_set results "simulated" r)
           end
         else mret results
       else mret results
     else mret results);
  call_compare_results_function results args_batch.

Definition _run_function (input_filename : string)
    (options : SampleOptions) (args_filename : option string) : Run unit :=
  input_text ← _read_file input_filename;
  args_batch ← read_optional parse_args_batch args_filename;
  let results : odict (list Value) := [] in
  if input_is_dslx options then
    results ←
      (if truthy_list args_batch then
         r ← _interpret_dslx_function input_text "main" (default [] args_batch);
         mret (odict_set results "interpreted DSLX" r)
       else mret results);
    if negb (convert_to_ir options) then mret tt            (* return *)
    else
      ir_filename ← _dslx_to_ir_function input_filename options;
      _run_function_from_ir options args_filename args_batch results ir_filename
  else
    ir_filename ← _write_file "sample.ir" input_text;
    _run_function_from_ir options args_filename args_batch results ir_filename.

(** [_run_proc] once [ir_filename] is in place. *)
Definition _run_proc_from_ir (options : SampleOptions)
    (args_filename : option string)
    (args_batch : option (list (list Value)))
    (ir_channel_names : option (list string))
    (results : odict (odict (list Value))) (ir_filename : string)
    : Run unit :=
  results ←
    match args_filename with
    | Some _ =>                                (* args_filename is not None *)
        r ← _evaluate_ir_proc ir_filename args_batch ir_channel_names
              false options;
        let results := odict_set results "evaluated unopt IR (interpreter)" r in
        if use_jit options then
          r ← _evaluate_ir_proc ir_filename args_batch ir_channel_names
                true options;
          mret (odict_set results "evaluated unopt IR (JIT)" r)
        else mret results
    | None => mret results
    end;
  results ←
    (if optimize_ir options then
       opt_ir_filename ← _optimize_ir ir_filename options;
       results ←
         match args_filename with
         | Some _ =>
             results ←
               (if use_jit options then
                  r ← _evaluate_ir_proc opt_ir_filename args_batch
                        ir_channel_names true options;
                  mret (odict_set results "evaluated opt IR (JIT)" r)
                else mret results);
             r ← _evaluate_ir_proc opt_ir_filename args_batch
                   ir_channel_names false options;
             mret (odict_set results "evaluated opt IR (interpreter)" r)
         | None => mret results
         end;
       if codegen options then
         _codegen opt_ir_filename (codegen_args options) options;;
         if simulate options then
           match args_filename with
           | None => raise AssertionError  (* assert args_filename is not None *)
           | Some _ =>
               r ← _simulate_proc;
               mret (odict_set results "simulated" r)
           end
         else mret results
       else mret results
     else mret results);
  call_compare_results_proc results.

Definition _run_proc (input_filename : string) (options : SampleOptions)
    (args_filename ir_channel_names_filename
       proc_init_values_filename : option string) : Run unit :=
  input_text ← _read_file input_filename;
  args_batch ← read_optional parse_args_batch args_filename;
  ir_channel_names ←
    read_optional parse_ir_channel_names ir_channel_names_filename;
  proc_init_values ←
    read_optional parse_proc_init_values proc_init_values_filename;
  let results : odict (odict (list Value)) := [] in
  if input_is_dslx options then
    results ←
      (if truthy_list args_batch then
         r ← _interpret_dslx_proc input_text "main" (default [] args_batch)
               proc_init_values;
         mret (odict_set results "interpreted DSLX" r)
       else mret results);
    if negb (convert_to_ir options) then mret tt            (* return *)
    else
      ir_filename ← _dslx_to_ir_proc input_filename proc_init_values options;
      _run_proc_from_ir options args_filename args_batch ir_channel_names
        results ir_filename
  else
    ir_filename ← _write_file "sample.ir" input_text;
    _run_proc_from_ir options args_filename args_batch ir_channel_names
      results ir_filename.

(** The [try] block of [run_from_files].  [TopType] has the two values
    tested, so the final [else] of the source is never taken. *)
Definition run_sample (input_filename : string) (options : SampleOptions)
    (args_filename ir_channel_names_filename
       proc_init_values_filename : option string) : Run unit :=
  match top_type options with
  | TopType_function => _run_function input_filename options args_filename
  | TopType_proc =>
      _run_proc input_filename options args_filename
        ir_channel_names_filename proc_init_values_filename
  end.

(** The [except Exception as e] block of [run_from_files]. *)
Definition on_exception (e : exn) : Run unit :=
  let msg := exn_message e in
  _write_file "exception.txt" msg;;
  raise (SampleError msg (is_TimeoutExpired e)).

Definition run_from_files (input_filename json_options_filename : string)
    (args_filename ir_channel_names_filename
       proc_init_values_filename : option string) : Run unit :=
  text ← _read_file json_options_filename;
  options ← lift (options_from_json text);
  _write_file "revision.txt" get_revision;;
  try_except
    (run_sample input_filename options args_filename
       ir_channel_names_filename proc_init_values_filename)
    on_exception.

End Runner.

(** ** A toolchain for the examples

    Stand-ins for the external collaborators, used to run the model on
    concrete inputs: every tool is the function [tool]; a line of text
    parses to an 8-bit value holding its length. *)

#[global] Instance demo_PyStr : PyStr := {
  repr_str s := "'" +:+ s +:+ "'";
  str_strip s := s;
}.

Definition demo_value (s : string) : SpecValue :=
  SBits false 8 (N.of_nat (String.length s)).

Definition demo_toolchain (options : SampleOptions)
    (tool : list string → option nat → string * (exn + string))
    : Toolchain SpecValue SpecValue := {|
  IR_CONVERTER_MAIN_PATH := "xls/dslx/ir_converter_main";
  EVAL_IR_MAIN_PATH := "xls/tools/eval_ir_main";
  EVAL_PROC_MAIN_PATH := "xls/tools/eval_proc_main";
  IR_OPT_MAIN_PATH := "xls/tools/opt_main";
  CODEGEN_MAIN_PATH := "xls/tools/codegen_main";
  SIMULATE_MODULE_MAIN_PATH := "xls/tools/simulate_module_main";
  verbosity := 0;
  get_revision := "r0";
  get_default_dslx_stdlib_path := "xls/dslx/stdlib";
  subprocess_run := tool;
  missing_file_text f := "No such file or directory: " +:+ f;
  options_from_json _ := inr options;
  parse_args_batch s := inr ((λ line, [demo_value line]) <$> split_lines s);
  parse_ir_channel_names s := inr (split_lines s);
  parse_proc_init_values s := inr (demo_value <$> split_lines s);
  run_function_batched _ _ batch _ := inr ((λ _, demo_value "x") <$> batch);
  run_proc _ _ batch _ _ := inr [("out", (λ _, demo_value "x") <$> batch)];
  interp_value_from_ir_string s := inr (demo_value s);
  convert_values_to_ir vs := inr vs;
  channel_values_to_string _ := inr EmptyString;
  parse_channel_values s n := inr [("out", replicate n (demo_value s))];
  ir_value_to_str := spec_to_ir_str;
  to_human_str := spec_to_ir_str;
  check_simulator _ := inr ();
|}.

(** Every tool prints the line [x]. *)
Definition tool_ok : list string → option nat → string * (exn + string) :=
  λ _ _, (EmptyString, inr "x").

(** The tool at [path] runs out of time; the others print [x]. *)
Definition tool_timing_out (path : string)
    : list string → option nat → string * (exn + string) :=
  λ cmd _, if decide (head cmd = Some path)
           then (EmptyString, inl (TimeoutExpired "timed out"))
           else (EmptyString, inr "x").

Definition demo_options (dslx convert : bool) (args : bool) : SampleOptions := {|
  top_type := TopType_function;
  input_is_dslx := dslx;
  ir_converter_args := [];
  convert_to_ir := convert;
  optimize_ir := true;
  use_jit := args;
  codegen := true;
  codegen_args := [];
  simulate := true;
  simulator := None;
  use_system_verilog := false;
  timeout_seconds := None;
|}.

(** A run directory holding a sample, its options and one argument
    line. *)
Definition demo_world : world := {|
  files := <["sample.x" := "fn main"]> (<["sample.ir" := "package p"]>
             (<["options.json" := "{}"]> (<["args.txt" := "a"]> ∅)));
  log := [];
|}.

Section FunctionModeDefs.
Context {Value : Type} `{!ValueOps Value}.

(** Two value sequences agree: same length, pointwise equal. *)
Definition agrees (vref v : list Value) : Prop :=
  Forall2 (λ a b, values_equal a b = true) vref v.

(** Stage [n] of [results] agrees with the reference sequence. *)
Definition stage_agrees (results : odict (list Value))
    (vref : list Value) (n : string) : Prop :=
  ∃ v, odict_get results n = Some v ∧ agrees vref v.

(** The comparisons made when stage [n] is compared with [reference]
    and agrees with it on [len] values. *)
Definition agreeing_comparisons (reference : string) (len : nat)
    (n : string) : list cmp_event :=
  (λ i, Compared reference n None i) <$> seq 0 len.
End FunctionModeDefs.

Section FunctionModeDefs2.
Context {Value : Type} `{!ValueOps Value}.

(** The assertion on the length of the ArgsBatch, where it applies,
    holds: it compares the first inserted stage with a non-empty
    batch. *)
Definition assertion_holds (results : odict (list Value))
    (args_batch : option (list (list Value))) : Prop :=
  match results, args_batch with
  | (_, first) :: _, Some (row :: batch) => length first = length (row :: batch)
  | _, _ => True
  end.
End FunctionModeDefs2.

Section GroupDefs.
Context {Value : Type} `{!ValueOps Value}.

(** Stage [nv] has a value at index [i], and it equals [x]. *)
Definition matches_at (i : nat) (x : Value) (nv : string * list Value) : bool :=
  match nv.2 !! i with
  | Some y => values_equal y x
  | None => false
  end.

(** The names of the stages whose value at [i] equals [x], in insertion
    order. *)
Definition stages_matching (results : odict (list Value)) (i : nat)
    (x : Value) : list string :=
  (filter (λ nv, matches_at i x nv) results).*1.

(** Every stage has a value at index [i]. *)
Definition all_have_index (results : odict (list Value)) (i : nat) : Prop :=
  Forall (λ nv : string * list Value, i < length nv.2) results.

(** The first inserted value sequence. *)
Definition first_inserted (results : odict (list Value)) : list Value :=
  match results with
  | [] => []
  | (_, first) :: _ => first
  end.
End GroupDefs.

Section ProcModeDefs.
Context {Value : Type} `{!ValueOps Value}.

(** The channel [item] of the reference is present in the candidate's
    mapping [channels], with an agreeing sequence. *)
Definition channel_agrees (channels : odict (list Value))
    (item : string * list Value) : Prop :=
  ∃ vs, odict_get channels item.1 = Some vs ∧ agrees item.2 vs.

(** The candidate's mapping has as many channels as the reference's and
    agrees with it on every channel of the reference. *)
Definition channels_agree (ref_channels channels : odict (list Value)) : Prop :=
  length ref_channels = length channels
  ∧ ∀ item, item ∈ ref_channels → channel_agrees channels item.

Definition stage_agrees_proc (results : odict (odict (list Value)))
    (ref_channels : odict (list Value)) (n : string) : Prop :=
  ∃ channels, odict_get results n = Some channels
              ∧ channels_agree ref_channels channels.
End ProcModeDefs.

Section MiscompareDefs.
Context {Value : Type} `{!ValueOps Value}.

(** The text reported for the arguments of sample [i]. *)
Definition args_at (args_batch : option (list (list Value))) (i : nat)
    : string :=
  match args_batch with
  | Some (row :: batch) =>
      join "; " (to_ir_str <$> default [] ((row :: batch) !! i))
  | _ => "(args unknown)"
  end.
End MiscompareDefs.

Section RunnerDefs.
Context {Value IRValue : Type}.
Context `{!ValueOps Value, !PyStr, !Toolchain Value IRValue}.

(** The command line of [eval_ir_main], as [_run_command] runs it. *)
Definition eval_ir_command (ir_filename args_filename : string)
    (use_jit : bool) : list string :=
  [EVAL_IR_MAIN_PATH; "--input_file=" +:+ args_filename;
   if use_jit then "--use_llvm_jit" else "--nouse_llvm_jit"; ir_filename]
  ++ (if (0 <? verbosity)%nat then ["-v=" +:+ str_nat verbosity] else [])
  ++ ["--logtostderr"].

(** The world after [_write_file filename content]. *)
Definition written (filename content : string) (w : world) : world :=
  {| files := <[filename := content]> (files w);
     log := log w ++ [Wrote filename content] |}.
End RunnerDefs.

(** The comparator does not end in a failed assertion. *)
Definition no_assertion {A} (m : Cmp A) : Prop :=
  outcome m ≠ inl AssertionError.

(** *** Runs that only log events of a given kind *)

Definition emits {A} (P : event → Prop) (m : Run A) : Prop :=
  ∀ w, ∃ evs, log (m w).2 = log w ++ evs ∧ Forall P evs.

(** Events of the helper's own making: files and commands. *)
Definition quiet (ev : event) : Prop :=
  match ev with Wrote _ _ | Ran _ => True | _ => False end.

(** *** The stage phase: no comparator is called, and a stage failure
    that is logged is the exception the run ends with *)

Definition stage_phase {A} (m : Run A) : Prop :=
  ∀ w, ∃ evs,
    log (m w).2 = log w ++ evs
    ∧ (ComparedResults ∉ evs)
    ∧ (∀ s e, Failed s e ∈ evs → (m w).1 = inl e).

(** The whole sample: a logged stage failure is the exception the run
    ends with, and then no comparator was called. *)
Definition fails_uncompared {A} (m : Run A) : Prop :=
  ∀ w, ∃ evs,
    log (m w).2 = log w ++ evs
    ∧ (∀ s e, Failed s e ∈ evs → (m w).1 = inl e ∧ ComparedResults ∉ evs).

(** The run returned. *)
Definition returned {A} (r : exn + A) : Prop := ∃ a, r = inr a.

(** A run that returns has called a comparator. *)
Definition returns_compared {A} (m : Run A) : Prop :=
  ∀ w, ∃ evs,
    log (m w).2 = log w ++ evs
    ∧ (returned (m w).1 → ComparedResults ∈ evs).

(** No JIT evaluation is entered unless [use_jit] is set. *)
Definition jit_only_if_asked (options : SampleOptions) (ev : event) : Prop :=
  ∀ f, ev = Entered (EvaluateIr f true) → use_jit options = true.

(** *** Runs that end in the failed assertion on the args file *)

(** Neither the simulation stage nor a comparator. *)
Definition before_simulation (ev : event) : Prop :=
  ev ≠ Entered Simulate ∧ ev ≠ ComparedResults.

(** A step before the simulation whose failure, if any, is a logged
    stage failure. *)
Definition stage_like {A} (m : Run A) : Prop :=
  ∀ w, ∃ evs,
    log (m w).2 = log w ++ evs
    ∧ Forall before_simulation evs
    ∧ (∀ e, (m w).1 = inl e → ∃ s, Failed s e ∈ evs)
    ∧ (returned (m w).1 → ∀ s e, Failed s e ∉ evs).

(** The run raises, before the simulation; unless a stage failed, what
    it raises is the [AssertionError]. *)
Definition refused {A} (m : Run A) : Prop :=
  ∀ w, ∃ e evs,
    (m w).1 = inl e
    ∧ log (m w).2 = log w ++ evs
    ∧ Forall before_simulation evs
    ∧ ((∀ s e', Failed s e' ∉ evs) → e = AssertionError).

(** ** Example inputs *)

#[global] Instance exn_eq_dec : EqDecision exn.
Proof. solve_decision. Defined.
#[global] Instance event_eq_dec : EqDecision event.
Proof. solve_decision. Defined.

Definition u8 (n : N) : SpecValue := SBits false 8 n.
Definition s8 (n : N) : SpecValue := SBits true 8 n.

(** Three stages: [b] agrees with [a] up to the sign tag, [c] is one
    value short. *)
Definition results_short_last : list (string * list SpecValue) :=
  [("c", [u8 5]); ("a", [u8 5; u8 6]); ("b", [s8 5; s8 6])].

(** Three stages: [a] and [b] differ at index 1, where [c] has no
    value. *)
Definition results_short_third : list (string * list SpecValue) :=
  [("a", [u8 5; u8 5]); ("b", [u8 5; u8 6]); ("c", [u8 5])].

(** The same two stages in both insertion orders, and a batch of one
    argument vector. *)
Definition results_long_first : list (string * list SpecValue) :=
  [("a", [u8 5; u8 5]); ("b", [u8 5])].
Definition results_short_first : list (string * list SpecValue) :=
  [("b", [u8 5]); ("a", [u8 5; u8 5])].
Definition batch_of_one : list (list SpecValue) := [[u8 1]].

(** Proc mode: the candidate [b] has as many channels as the reference
    [a], but not its channel [out]. *)
Definition results_missing_channel
    : list (string * list (string * list SpecValue)) :=
  [("b", [("in", [u8 1]); ("extra", [u8 2])]);
   ("a", [("in", [s8 1]); ("out", [u8 2])])].

(** Proc mode: the candidate [b] lacks the channel [out] of the
    reference [a] and differs from it on the channel [in], which comes
    first. *)
Definition results_mismatch_then_missing
    : list (string * list (string * list SpecValue)) :=
  [("a", [("in", [u8 1]); ("out", [u8 2])]);
   ("b", [("in", [u8 9]); ("extra", [u8 2])])].

(** A sample run on DSLX input, with arguments, in which the optimizer
    runs out of time. *)
Definition run_with_timeout : (exn + ()) * world :=
  @run_from_files _ _ _ _
    (demo_toolchain (demo_options true true true)
       (tool_timing_out "xls/tools/opt_main"))
    "sample.x" "options.json" (Some "args.txt") None None demo_world.

(** A sample run on DSLX input without arguments and with
    [convert_to_ir] set: conversion, optimization and code generation
    succeed. *)
Definition run_without_args : (exn + ()) * world :=
  @run_from_files _ _ _ _
    (demo_toolchain (demo_options true true false) tool_ok)
    "sample.x" "options.json" None None None demo_world.

(** The same sample with [convert_to_ir] unset. *)
Definition run_without_conversion : (exn + ()) * world :=
  @run_from_files _ _ _ _
    (demo_toolchain (demo_options true false false) tool_ok)
    "sample.x" "options.json" None None None demo_world.

(** * The entry point and the helpers

    The entry point [run] with the sample it takes, and the notions in
    which the behaviour of the helpers and of whole runs is stated: the
    command line of a tool, the columns of a batch, the files a run
    leaves alone, the stages the options enable and their order. *)

(** ** What a comparator may raise *)

(** Every exception the comparator ends in satisfies [P]. *)
Definition raises_only {A} (P : exn → Prop) (m : Cmp A) : Prop :=
  ∀ e, outcome m = inl e → P e.

(** A [SampleError] that is not a timeout. *)
Definition is_plain_SampleError (e : exn) : Prop :=
  ∃ msg, e = SampleError msg false.

Section ComparisonDefs.
Context {Value : Type} `{!ValueOps Value}.

(** All value sequences of the mapping have the same length. *)
Definition equal_lengths (results : odict (list Value)) : Prop :=
  ∀ nv nv', nv ∈ results → nv' ∈ results → length nv.2 = length nv'.2.
End ComparisonDefs.

(** ** Lines, paths and columns *)

(** The string holds no newline. *)
Fixpoint single_line (s : string) : bool :=
  match s with
  | EmptyString => true
  | String c s' => negb (Ascii.eqb c "010") && single_line s'
  end.

(** The string holds no slash. *)
Fixpoint no_slash (s : string) : bool :=
  match s with
  | EmptyString => true
  | String c s' => negb (Ascii.eqb c "/") && no_slash s'
  end.

(** [[row[j] for row in batch]] *)
Definition column {V} (j : nat) (batch : list (list V)) : list V :=
  omap (λ row, row !! j) batch.

Section HelperDefs.
Context {Value IRValue : Type}.
Context `{!ValueOps Value, !PyStr, !Toolchain Value IRValue}.

(** The text of [v] is one line, does not strip to nothing, and parses
    back to [v]. *)
Definition codec_round_trips (v : Value) : Prop :=
  single_line (to_ir_str v) = true
  ∧ str_strip (to_ir_str v) ≠ EmptyString
  ∧ interp_value_from_ir_string (str_strip (to_ir_str v)) = inr v.

(** [{k: [] for k in ir_channel_names}] *)
Definition empty_channels (names : list string) : odict (list Value) :=
  foldl (λ d k, odict_set d k []) [] names.

(** The arguments [_run_command] passes to [subprocess.run] for
    [args]. *)
Definition command_line (args : list string) : list string :=
  (if (0 <? verbosity)%nat then args ++ ["-v=" +:+ str_nat verbosity]
   else args) ++ ["--logtostderr"].
End HelperDefs.

(** ** The evaluation of a proc *)

Section ProcEvaluationDefs.
Context {Value IRValue : Type}.
Context `{!ValueOps Value, !PyStr, !Toolchain Value IRValue}.

(** The command line of [eval_proc_main], as [_run_command] runs it on
    the channel inputs that [_evaluate_ir_proc] wrote. *)
Definition eval_proc_command (ir_filename : string) (ticks : nat)
    (use_jit : bool) : list string :=
  [EVAL_PROC_MAIN_PATH;
   "--inputs_for_all_channels=" +:+ "channel_inputs.txt";
   "--ticks=" +:+ str_nat ticks;
   "--backend=" +:+ (if use_jit then "serial_jit" else "ir_interpreter");
   ir_filename]
  ++ (if (0 <? verbosity)%nat then ["-v=" +:+ str_nat verbosity] else [])
  ++ ["--logtostderr"].

(** What [_evaluate_ir_proc] does before it runs the tool: the content
    of channel_inputs.txt, or the exception of gathering, converting or
    printing the channel values. *)
Definition channel_inputs (args_batch : option (list (list Value)))
    (ir_channel_names : option (list string)) : exn + string :=
  match ir_channel_names, args_batch with
  | None, _ | _, None => inl none_not_iterable
  | Some names, Some batch =>
      match gather_channels (empty_channels names) names batch with
      | inl e => inl e
      | inr all_channel_values =>
          match convert_channels all_channel_values with
          | inl e => inl e
          | inr ir_channel_values => channel_values_to_string ir_channel_values
          end
      end
  end.
End ProcEvaluationDefs.

(** ** The entry point: [SampleRunner.run] *)

(** [sample.Sample]: the code of a sample, its options and its inputs.
    The class is bound from C++ and not part of the sources at hand; the
    runner reads these five attributes. *)
Module Sample.
Record t (Value : Type) : Type := {
  options : SampleOptions;
  input_text : string;
  args_batch : option (list (list Value));
  ir_channel_names : option (list string);
  proc_init_values : option (list Value);
}.
#[global] Arguments options {_} _.
#[global] Arguments input_text {_} _.
#[global] Arguments args_batch {_} _.
#[global] Arguments ir_channel_names {_} _.
#[global] Arguments proc_init_values {_} _.
End Sample.

(** The serializers [run] calls; like the other conversions to text
    they return a string. *)
Class SampleText (Value : Type) : Type := {
  (** [SampleOptions.to_json] *)
  to_json : SampleOptions → string;
  (** [sample.args_batch_to_text] *)
  args_batch_to_text : list (list Value) → string;
  (** [sample.ir_channel_names_to_text] *)
  ir_channel_names_to_text : list string → string;
  (** [sample.proc_init_values_to_text] *)
  proc_init_values_to_text : list Value → string;
}.

Section Run.
Context {Value IRValue : Type}.
Context `{!ValueOps Value, !PyStr, !Toolchain Value IRValue, !SampleText Value}.

Definition run (smp : Sample.t Value) : Run unit :=
  input_filename ←
    (if input_is_dslx (Sample.options smp)
     then _write_file "sample.x" (Sample.input_text smp)
     else _write_file "sample.ir" (Sample.input_text smp));
  json_options_filename ←
    _write_file "options.json" (to_json (Sample.options smp));
  args_filename ←
    (if truthy_list (Sample.args_batch smp) then   (* if smp.args_batch: *)
       f ← _write_file "args.txt"
             (args_batch_to_text (default [] (Sample.args_batch smp)));
       mret (Some f)
     else mret None);
  ir_channel_names_filename ←
    match Sample.ir_channel_names smp with         (* is not None *)
    | Some names =>
        f ← _write_file "ir_channel_names.txt" (ir_channel_names_to_text names);
        mret (Some f)
    | None => mret None
    end;
  proc_init_values_filename ←
    match Sample.proc_init_values smp with         (* is not None *)
    | Some values =>
        f ← _write_file "proc_init_values.txt" (proc_init_values_to_text values);
        mret (Some f)
    | None => mret None
    end;
  run_from_files input_filename json_options_filename args_filename
    ir_channel_names_filename proc_init_values_filename.

(** The files [run] writes for a sample, with their content, and the
    names it passes on. *)
Definition sample_filename (smp : Sample.t Value) : string :=
  if input_is_dslx (Sample.options smp) then "sample.x" else "sample.ir".

Definition args_filename_of (smp : Sample.t Value) : option string :=
  if truthy_list (Sample.args_batch smp) then Some "args.txt" else None.

Definition ir_channel_names_filename_of (smp : Sample.t Value)
    : option string :=
  (λ _, "ir_channel_names.txt") <$> Sample.ir_channel_names smp.

Definition proc_init_values_filename_of (smp : Sample.t Value)
    : option string :=
  (λ _, "proc_init_values.txt") <$> Sample.proc_init_values smp.

Definition sample_files (smp : Sample.t Value) : list (string * string) :=
  [(sample_filename smp, Sample.input_text smp);
   ("options.json", to_json (Sample.options smp))]
  ++ (if truthy_list (Sample.args_batch smp)
      then [("args.txt",
             args_batch_to_text (default [] (Sample.args_batch smp)))]
      else [])
  ++ match Sample.ir_channel_names smp with
     | Some names => [("ir_channel_names.txt", ir_channel_names_to_text names)]
     | None => []
     end
  ++ match Sample.proc_init_values smp with
     | Some values => [("proc_init_values.txt", proc_init_values_to_text values)]
     | None => []
     end.
End Run.

(** ** Files a run leaves alone *)

(** The run does not change the file [f]. *)
Definition preserves (f : string) {A} (m : Run A) : Prop :=
  ∀ w, files (m w).2 !! f = files w !! f.

(** [s.endswith(suffix)] *)
Fixpoint ends_with (suffix s : string) : bool :=
  String.eqb suffix s
  || match s with
     | EmptyString => false
     | String _ s' => ends_with suffix s'
     end.

(** The names under which the stages of the pipeline write their
    outputs: five fixed names, the results files and the stderr files. *)
Definition is_stage_output (f : string) : bool :=
  bool_decide (f ∈ ["sample.ir"; "sample.opt.ir"; "sample.v"; "sample.sv";
                    "channel_inputs.txt"])
  || ends_with ".results" f || ends_with ".stderr" f.

(** The names under which [run_from_files] writes. *)
Definition is_run_output (f : string) : bool :=
  bool_decide (f ∈ ["revision.txt"; "exception.txt"]) || is_stage_output f.

(** The event is not a write, or a write under a name that [P]
    accepts. *)
Definition writes_under (P : string → bool) (ev : event) : Prop :=
  match ev with
  | Wrote f _ => P f = true
  | _ => True
  end.

(** The run directory after the files of a list were written, in the
    order of the list. *)
Definition with_files (l : list (string * string)) (w : world) : world :=
  foldl (λ w fc, written fc.1 fc.2 w) w l.

(** ** Options that differ in the settings of later stages *)


(** [o] with another setting of [use_jit]. *)
Definition with_use_jit (b : bool) (o : SampleOptions) : SampleOptions :=
  {| top_type := top_type o; input_is_dslx := input_is_dslx o;
     ir_converter_args := ir_converter_args o;
     convert_to_ir := convert_to_ir o;
     optimize_ir := optimize_ir o; use_jit := b;
     codegen := codegen o; codegen_args := codegen_args o;
     simulate := simulate o; simulator := simulator o;
     use_system_verilog := use_system_verilog o;
     timeout_seconds := timeout_seconds o |}.

(** What the options and the args file must be for a stage to be
    entered. *)
Definition enabled (options : SampleOptions) (args_filename : option string)
    (ev : event) : Prop :=
  match ev with
  | Entered InterpretDslx => input_is_dslx options = true
  | Entered ConvertToIr =>
      input_is_dslx options = true ∧ convert_to_ir options = true
  | Entered (EvaluateIr _ jit) =>
      args_filename ≠ None ∧ (jit = true → use_jit options = true)
  | Entered OptimizeIr => optimize_ir options = true
  | Entered Codegen => optimize_ir options = true ∧ codegen options = true
  | Entered Simulate =>
      optimize_ir options = true ∧ codegen options = true
      ∧ simulate options = true ∧ args_filename ≠ None
  | _ => True
  end.

(** ** Runs that cannot return *)

(** The exception of [_simulate_proc]. *)
Definition simulation_unsupported : exn :=
  SampleError "Simulation for procs are not supported." false.

(** A run that enters the simulation ends in [e]. *)
Definition simulation_ends_in (e : exn) {A} (m : Run A) : Prop :=
  ∀ w, ∃ evs, log (m w).2 = log w ++ evs
              ∧ (Entered Simulate ∈ evs → (m w).1 = inl e).

(** The run raises, in whatever run directory it starts. *)
Definition always_raises {A} (m : Run A) : Prop :=
  ∀ w, ∃ e, (m w).1 = inl e.

(** ** What a run compares *)

Section ComparedDefs.
Context {Value IRValue : Type}.
Context `{!ValueOps Value, !PyStr, !Toolchain Value IRValue}.

(** The values a tool yields: its stdout, parsed by [_parse_values]. *)
Definition tool_values (cmd : list string) (options : SampleOptions)
    : exn + list Value :=
  match (subprocess_run cmd (timeout_seconds options)).2 with
  | inl e => inl e
  | inr text => _parse_values text
  end.

(** The command line of [simulate_module_main], as [_run_command] runs
    it on the Verilog file that [_codegen] wrote. *)
Definition simulate_command (options : SampleOptions)
    (args_filename : string) : list string :=
  command_line
    ([SIMULATE_MODULE_MAIN_PATH;
      "--signature_file=" +:+ "module_sig.textproto";
      "--args_file=" +:+ args_filename]
     ++ (if truthy_str (simulator options)
         then ["--verilog_simulator=" +:+ default EmptyString (simulator options)]
         else [])
     ++ [if use_system_verilog options then "sample.sv" else "sample.v"]).

(** The evaluations of a function-mode run once the IR file [ir] is in
    place, with an args file: the name each result is stored under and
    the command that produces it, in the order of the run. *)
Definition evaluations (options : SampleOptions) (args_filename ir : string)
    : list (string * list string) :=
  [("evaluated unopt IR (interpreter)",
    eval_ir_command ir args_filename false)]
  ++ (if use_jit options
      then [("evaluated unopt IR (JIT)", eval_ir_command ir args_filename true)]
      else [])
  ++ (if optimize_ir options then
        (if use_jit options
         then [("evaluated opt IR (JIT)",
                eval_ir_command "sample.opt.ir" args_filename true)]
         else [])
        ++ [("evaluated opt IR (interpreter)",
             eval_ir_command "sample.opt.ir" args_filename false)]
        ++ (if codegen options && simulate options
            then [("simulated", simulate_command options args_filename)]
            else [])
      else []).
End ComparedDefs.

(** ** The order of the stages *)

(** The place of an event in the pipeline: the DSLX interpretation, the
    conversion, the evaluations of the unoptimized IR, the optimization,
    the evaluations of sample.opt.ir, the code generation, the simulation
    and the comparison.  Files and commands have no place of their own. *)
Definition rank (ev : event) : option nat :=
  match ev with
  | Entered InterpretDslx => Some 0
  | Entered ConvertToIr => Some 1
  | Entered (EvaluateIr f _) =>
      Some (if String.eqb f "sample.opt.ir" then 4 else 2)
  | Entered OptimizeIr => Some 3
  | Entered Codegen => Some 5
  | Entered Simulate => Some 6
  | ComparedResults => Some 7
  | _ => None
  end.

(** The events of the run are in the order of the pipeline, between the
    places [lo] and [hi]; a value it returns satisfies [Q]. *)
Definition in_order (lo hi : nat) {A} (Q : A → Prop) (m : Run A) : Prop :=
  ∀ w, ∃ evs,
    log (m w).2 = log w ++ evs
    ∧ StronglySorted le (omap rank evs)
    ∧ Forall (λ r, (lo ≤ r ≤ hi)%nat) (omap rank evs)
    ∧ (lo ≤ hi)%nat
    ∧ ∀ a, (m w).1 = inr a → Q a.

(** ** The reference of a run *)

(** The names under which [_run_function] and [_run_proc] store their
    results, in the order in which the comparators visit them. *)
Definition stage_priority : list string :=
  ["evaluated opt IR (JIT)"; "evaluated opt IR (interpreter)";
   "evaluated unopt IR (JIT)"; "evaluated unopt IR (interpreter)";
   "interpreted DSLX"; "simulated"].

(** ** More example inputs *)

(** Two stages that agree up to the sign tag. *)
Definition results_agreeing : list (string * list SpecValue) :=
  [("b", [s8 5; s8 6]); ("a", [u8 5; u8 6])].

(** Proc mode: two stages that agree on their one channel. *)
Definition results_agreeing_channels
    : list (string * list (string * list SpecValue)) :=
  [("b", [("in", [u8 1])]); ("a", [("in", [s8 1])])].

(** The results of a run on DSLX input, stored in the order of the
    run. *)
Definition results_of_a_run : list (string * list SpecValue) :=
  [("interpreted DSLX", [s8 5]);
   ("evaluated unopt IR (interpreter)", [u8 5]);
   ("evaluated opt IR (JIT)", [u8 5]);
   ("simulated", [u8 5])].

(** Proc-mode options for IR or DSLX input, with every later stage
    enabled. *)
Definition demo_proc_options (dslx : bool) : SampleOptions := {|
  top_type := TopType_proc;
  input_is_dslx := dslx;
  ir_converter_args := [];
  convert_to_ir := true;
  optimize_ir := true;
  use_jit := false;
  codegen := true;
  codegen_args := [];
  simulate := true;
  simulator := None;
  use_system_verilog := false;
  timeout_seconds := None;
|}.

(** The run directory of [demo_world] with a file of one channel
    name. *)
Definition demo_proc_world : world := {|
  files := <["ir_channel_names.txt" := "ch"]> (files demo_world);
  log := [];
|}.

(** A toolchain in which the DSLX interpreter returns, for every row of
    the batch, the 8-bit value 11, whose text [bits[8]:0xb] has length
    11 and so parses back to it. *)
Definition roundtrip_toolchain : Toolchain SpecValue SpecValue :=
  let base := demo_toolchain (demo_options true true true) tool_ok in
  {| IR_CONVERTER_MAIN_PATH := @IR_CONVERTER_MAIN_PATH _ _ base;
     EVAL_IR_MAIN_PATH := @EVAL_IR_MAIN_PATH _ _ base;
     EVAL_PROC_MAIN_PATH := @EVAL_PROC_MAIN_PATH _ _ base;
     IR_OPT_MAIN_PATH := @IR_OPT_MAIN_PATH _ _ base;
     CODEGEN_MAIN_PATH := @CODEGEN_MAIN_PATH _ _ base;
     SIMULATE_MODULE_MAIN_PATH := @SIMULATE_MODULE_MAIN_PATH _ _ base;
     verbosity := @verbosity _ _ base;
     get_revision := @get_revision _ _ base;
     get_default_dslx_stdlib_path := @get_default_dslx_stdlib_path _ _ base;
     subprocess_run := @subprocess_run _ _ base;
     missing_file_text := @missing_file_text _ _ base;
     options_from_json := @options_from_json _ _ base;
     parse_args_batch := @parse_args_batch _ _ base;
     parse_ir_channel_names := @parse_ir_channel_names _ _ base;
     parse_proc_init_values := @parse_proc_init_values _ _ base;
     run_function_batched _ _ batch _ := inr ((λ _, u8 11) <$> batch);
     run_proc := @run_proc _ _ base;
     interp_value_from_ir_string := @interp_value_from_ir_string _ _ base;
     convert_values_to_ir := @convert_values_to_ir _ _ base;
     channel_values_to_string := @channel_values_to_string _ _ base;
     parse_channel_values := @parse_channel_values _ _ base;
     ir_value_to_str := @ir_value_to_str _ _ base;
     to_human_str := @to_human_str _ _ base;
     check_simulator := @check_simulator _ _ base;
  |}.

(** Serializers for the examples. *)
Definition demo_SampleText : SampleText SpecValue := {|
  to_json _ := "{}";
  args_batch_to_text batch := join nl ((λ _, "a") <$> batch);
  ir_channel_names_to_text names := join nl names;
  proc_init_values_to_text values := join nl ((λ _, "i") <$> values);
|}.

(** A function-mode sample in IR with one argument vector. *)
Definition demo_sample : Sample.t SpecValue := {|
  Sample.options := demo_options false true true;
  Sample.input_text := "package p";
  Sample.args_batch := Some [[u8 1]];
  Sample.ir_channel_names := None;
  Sample.proc_init_values := None;
|}.

(** An empty run directory. *)
Definition empty_world : world := {| files := ∅; log := [] |}.

(** The toolchain of the examples in which every tool prints [x]. *)
Definition demo_tools (options : SampleOptions)
    : Toolchain SpecValue SpecValue :=
  demo_toolchain options tool_ok.

(** The evaluation of sample.ir with the interpreter, and the DSLX
    interpretation of a batch of one row. *)
Definition demo_evaluation : (exn + list SpecValue) * world :=
  _evaluate_ir_function (Toolchain0 := demo_tools (demo_options false true true))
    "sample.ir" "args.txt" false (demo_options false true true) demo_world.

Definition demo_interpretation : (exn + list SpecValue) * world :=
  _interpret_dslx_function (Toolchain0 := roundtrip_toolchain)
    "fn main" "main" [[u8 1]] demo_world.

(** A function-mode run from sample.ir with arguments and every stage
    enabled, and a proc-mode run of the same kind. *)
Definition demo_function_run : (exn + ()) * world :=
  _run_function_from_ir (Toolchain0 := demo_tools (demo_options false true true))
    (demo_options false true true) (Some "args.txt") (Some [[u8 1]]) []
    "sample.ir" demo_world.

Definition demo_proc_run : (exn + ()) * world :=
  run_from_files (Toolchain0 := demo_tools (demo_proc_options false))
    "sample.ir" "options.json" (Some "args.txt")
    (Some "ir_channel_names.txt") None demo_proc_world.

(** The run of [demo_sample] in an empty directory. *)
Definition demo_sample_run : (exn + ()) * world :=
  run (Toolchain0 := demo_tools (demo_options false true true))
    (SampleText0 := demo_SampleText) demo_sample empty_world.

(** * Proofs *)

Section StringOrder.

Lemma string_compare_OT (a b : string) :
String.compare a b = String_as_OT.compare a b.
Proof.
revert b; induction a as [|c a IH]; intros [|d b]; simpl; try reflexivity;
  rewrite ?IH; reflexivity.
Qed.

Lemma string_le_alt (a b : string) :
string_le a b ↔ a = b ∨ String_as_OT.lt a b.
Proof.
unfold string_le, String.leb, String_as_OT.lt.
rewrite string_compare_OT.
destruct (String_as_OT.compare_spec a b) as [Heq|Hlt|Hgt].
- split; [auto | reflexivity].
- split; [auto | reflexivity].
- split; [discriminate |].
  intros [->|Hlt]; [|discriminate].
  exfalso. apply (StrictOrder_Irreflexive _ Hgt).
Qed.

#[global] Instance string_le_refl : Reflexive string_le.
Proof. intros a. apply string_le_alt. by left. Qed.

#[global] Instance string_le_trans : Transitive string_le.
Proof.
intros a b c [->|Hab]%string_le_alt [->|Hbc]%string_le_alt;
  apply string_le_alt; auto.
right. apply (StrictOrder_Transitive _ _ _ Hab Hbc).
Qed.

#[global] Instance string_le_antisym : AntiSymm (=) string_le.
Proof. intros a b Hab Hba. by apply String.leb_antisym. Qed.

#[global] Instance string_le_total : Total string_le.
Proof. intros a b. apply String.leb_total. Qed.

Lemma sorted_Sorted l : Sorted string_le (sorted l).
Proof. apply Sorted_merge_sort, _. Qed.

Lemma sorted_StronglySorted l : StronglySorted string_le (sorted l).
Proof. apply StronglySorted_merge_sort; apply _. Qed.

Lemma sorted_Permutation l : sorted l ≡ₚ l.
Proof. apply merge_sort_Permutation. Qed.

Lemma sorted_proper l1 l2 : l1 ≡ₚ l2 → sorted l1 = sorted l2.
Proof.
intros Hp. apply (Sorted_unique string_le); try apply sorted_Sorted.
by rewrite !sorted_Permutation.
Qed.

Lemma sorted_elem_of x l : x ∈ sorted l ↔ x ∈ l.
Proof. by rewrite sorted_Permutation. Qed.

Lemma sorted_head_least reference rest l :
sorted l = reference :: rest → ∀ k, k ∈ l → string_le reference k.
Proof.
intros Hs k Hk. pose proof (sorted_StronglySorted l) as HS.
rewrite Hs in HS. apply StronglySorted_inv in HS as [_ Hall].
apply sorted_elem_of in Hk. rewrite Hs in Hk.
apply elem_of_cons in Hk as [->|Hk]; [reflexivity|].
rewrite Forall_forall in Hall. by apply Hall.
Qed.

End StringOrder.


(** ** Facts about the comparator monad *)

Section CmpFacts.
Context {A B : Type}.

Lemma Cmp_bind_inl (f : A → Cmp B) t e : ((t, inl e) : Cmp A) ≫= f = (t, inl e).
Proof. reflexivity. Qed.

Lemma Cmp_bind_inr (f : A → Cmp B) t a :
  ((t, inr a) : Cmp A) ≫= f = (t ++ comparisons (f a), outcome (f a)).
Proof. unfold mbind, Cmp_bind. by destruct (f a). Qed.

Lemma outcome_bind (m : Cmp A) (f : A → Cmp B) :
  outcome (m ≫= f) =
  match outcome m with inl e => inl e | inr a => outcome (f a) end.
Proof.
  destruct m as [t [e|a]]; [reflexivity|].
  by rewrite Cmp_bind_inr.
Qed.

Lemma comparisons_bind (m : Cmp A) (f : A → Cmp B) :
  comparisons (m ≫= f) =
  comparisons m ++
    match outcome m with inl e => [] | inr a => comparisons (f a) end.
Proof.
  destruct m as [t [e|a]].
  - simpl. by rewrite app_nil_r.
  - by rewrite Cmp_bind_inr.
Qed.

Lemma Cmp_eta (m : Cmp A) : m = (comparisons m, outcome m).
Proof. by destruct m. Qed.
End CmpFacts.

Lemma Cmp_bind_assoc {A B C} (m : Cmp A) (f : A → Cmp B) (g : B → Cmp C) :
  (m ≫= f) ≫= g = m ≫= (λ a, f a ≫= g).
Proof.
  unfold mbind, Cmp_bind. destruct m as [t [e|a]]; [done|].
  destruct (f a) as [t' [e'|b]]; [done|].
  destruct (g b). by rewrite app_assoc.
Qed.

Lemma for_range_from_S i n body :
  for_range_from i (S n) body = (body i;; for_range_from (S i) n body).
Proof. reflexivity. Qed.

Lemma for_each_cons {A} (x : A) l body :
  for_each (x :: l) body = (body x;; for_each l body).
Proof. reflexivity. Qed.

Lemma for_range_from_ok (t : nat → list cmp_event) body n : ∀ i,
  (∀ j, i ≤ j < i + n → body j = (t j, inr tt)) →
  for_range_from i n body = (concat (t <$> seq i n), inr tt).
Proof.
  induction n as [|n IH]; intros i Hb; [reflexivity|].
  rewrite for_range_from_S, (Hb i) by lia. rewrite Cmp_bind_inr.
  rewrite (IH (S i)) by (intros j Hj; apply Hb; lia). reflexivity.
Qed.

Lemma for_range_from_fails (t : nat → list cmp_event) body n k tk e : ∀ i,
  i ≤ k < i + n →
  (∀ j, i ≤ j < k → body j = (t j, inr tt)) →
  body k = (tk, inl e) →
  for_range_from i n body = (concat (t <$> seq i (k - i)) ++ tk, inl e).
Proof.
  induction n as [|n IH]; intros i Hk Hb Hf; [lia|].
  rewrite for_range_from_S. destruct (decide (i = k)) as [->|Hne].
  - rewrite Hf. by rewrite Nat.sub_diag.
  - rewrite (Hb i) by lia. rewrite Cmp_bind_inr.
    rewrite (IH (S i)) by (try intros j Hj; try apply Hb; auto; lia).
    replace (k - i) with (S (k - S i)) by lia. simpl.
    by rewrite app_assoc.
Qed.

Lemma for_each_ok {A} (t : A → list cmp_event) body (l : list A) :
  (∀ x, x ∈ l → body x = (t x, inr tt)) →
  for_each l body = (concat (t <$> l), inr tt).
Proof.
  induction l as [|x l IH]; intros Hb; [reflexivity|].
  rewrite for_each_cons, (Hb x) by set_solver. rewrite Cmp_bind_inr.
  rewrite IH by (intros y Hy; apply Hb; set_solver). reflexivity.
Qed.

Lemma for_each_fails {A} (t : A → list cmp_event) body (pre post : list A) x tx e :
  (∀ y, y ∈ pre → body y = (t y, inr tt)) →
  body x = (tx, inl e) →
  for_each (pre ++ x :: post) body = (concat (t <$> pre) ++ tx, inl e).
Proof.
  induction pre as [|y pre IH]; intros Hb Hf.
  - simpl. by rewrite Hf.
  - rewrite <- app_comm_cons, for_each_cons, (Hb y) by set_solver. rewrite Cmp_bind_inr.
    rewrite IH by (try intros z Hz; try apply Hb; auto; set_solver).
    simpl. by rewrite app_assoc.
Qed.

(** ** Facts about ordered dictionaries *)

Section OdictFacts.
Context {V : Type}.
Implicit Types d : odict V.

Lemma odict_get_Some_elem_of d k v : odict_get d k = Some v → (k, v) ∈ d.
Proof.
  induction d as [|[k' v'] d IH]; simpl; [done|].
  case_decide; [intros [= ->]; subst; left | right; auto].
Qed.

Lemma odict_get_elem_of d k v :
  odict_wf d → (k, v) ∈ d → odict_get d k = Some v.
Proof.
  unfold odict_wf, keys.
  induction d as [|[k' v'] d IH]; simpl; [by intros _ ?%elem_of_nil|].
  intros [Hk Hd]%NoDup_cons [Heq|Hin]%elem_of_cons.
  - injection Heq as <- <-. by rewrite decide_True.
  - rewrite decide_False; [auto|].
    intros ->. apply Hk. apply list_elem_of_fmap. by exists (k, v).
Qed.

Lemma odict_get_None d k : odict_get d k = None ↔ k ∉ keys d.
Proof.
  unfold keys. induction d as [|[k' v'] d IH]; simpl.
  - split; [intros _ ?%elem_of_nil; done | done].
  - case_decide; subst.
    + split; [done|]. intros []. left.
    + rewrite IH, not_elem_of_cons.
      split; [intros ?; split; [congruence | done] | by intros [_ ?]].
Qed.

Lemma odict_get_is_Some d k : k ∈ keys d → is_Some (odict_get d k).
Proof.
  intros Hk. destruct (odict_get d k) eqn:E; [eauto|].
  by apply odict_get_None in E.
Qed.

Lemma odict_get_proper d d' k :
  odict_wf d → d ≡ₚ d' → odict_get d k = odict_get d' k.
Proof.
  intros Hwf Hp.
  assert (Hwf' : odict_wf d') by (unfold odict_wf, keys in *; by rewrite <- Hp).
  destruct (odict_get d k) as [v|] eqn:E.
  - symmetry. apply odict_get_elem_of; [done|].
    rewrite <- Hp. by apply odict_get_Some_elem_of.
  - symmetry. apply odict_get_None. apply odict_get_None in E.
    unfold keys in *. by rewrite <- Hp.
Qed.

Lemma keys_proper d d' : d ≡ₚ d' → keys d ≡ₚ keys d'.
Proof. intros Hp. unfold keys. by rewrite Hp. Qed.
End OdictFacts.




Section FunctionMode.
Context {Value : Type} `{!ValueOps Value}.
Implicit Types (results : odict (list Value)) (args : option (@ArgsBatch Value)).

Lemma Cmp_ret_bind {A B} (a : A) (f : A → Cmp B) : mret a ≫= f = f a.
Proof. unfold mret, Cmp_ret. rewrite Cmp_bind_inr. by destruct (f a). Qed.

Lemma getitem_Some {V} (d : odict V) k v :
  odict_get d k = Some v → getitem d k = mret v.
Proof. unfold getitem. by intros ->. Qed.

Lemma tuple_index_Some {A} (t : list A) i x :
  t !! i = Some x → tuple_index t i = mret x.
Proof. unfold tuple_index. by intros ->. Qed.

Lemma list_index_Some {A} (t : list A) i x :
  t !! i = Some x → list_index t i = mret x.
Proof. unfold list_index. by intros ->. Qed.

Lemma values_equal_at_bind {B} l r ch i a b (f : bool → Cmp B) :
  values_equal_at l r ch i a b ≫= f =
  (Compared l r ch i :: comparisons (f (values_equal a b)),
   outcome (f (values_equal a b))).
Proof.
  unfold values_equal_at, tell, mbind, Cmp_bind, mret, Cmp_ret. simpl.
  by destruct (f _).
Qed.

Lemma compare_index_equal results args reference name vref v i a b :
  odict_get results reference = Some vref →
  vref !! i = Some a → v !! i = Some b → values_equal a b = true →
  compare_index results args reference name v i
  = ([Compared reference name None i], inr ()).
Proof.
  intros Hget Ha Hb Heq. unfold compare_index.
  rewrite (getitem_Some _ _ _ Hget), Cmp_ret_bind.
  rewrite (tuple_index_Some _ _ _ Ha), Cmp_ret_bind.
  rewrite (tuple_index_Some _ _ _ Hb), Cmp_ret_bind.
  rewrite values_equal_at_bind, Heq. reflexivity.
Qed.

Lemma compare_stage_agrees results args reference name vref v :
  odict_get results reference = Some vref → agrees vref v →
  compare_stage results args reference name v
  = (agreeing_comparisons reference (length vref) name, inr ()).
Proof.
  intros Hget Hag. unfold compare_stage.
  rewrite (getitem_Some _ _ _ Hget), Cmp_ret_bind.
  pose proof (Forall2_length _ _ _ Hag) as Hlen.
  rewrite Hlen, Nat.eqb_refl. simpl. unfold for_range.
  rewrite (for_range_from_ok (λ i, [Compared reference name None i])).
  - unfold agreeing_comparisons. f_equal.
    induction (seq 0 (length v)); simpl; [done|]. by f_equal.
  - intros j Hj.
    destruct (lookup_lt_is_Some_2 v j) as [b Hb]; [lia|].
    destruct (lookup_lt_is_Some_2 vref j) as [a Ha]; [lia|].
    eapply compare_index_equal; eauto.
    eapply Forall2_lookup_lr in Hag; eauto.
Qed.

Lemma compare_stage_length results args reference name vref v :
  odict_get results reference = Some vref → length vref ≠ length v →
  compare_stage results args reference name v
  = ([], inl (SampleError
                (length_mismatch_msg reference (length vref) name (length v))
                false)).
Proof.
  intros Hget Hlen. unfold compare_stage.
  rewrite (getitem_Some _ _ _ Hget), Cmp_ret_bind.
  apply Nat.eqb_neq in Hlen. by rewrite Hlen.
Qed.

Lemma compare_loop_cons results args name names reference values :
  odict_get results name = Some values →
  compare_loop results args (name :: names) (Some reference)
  = (compare_stage results args reference name values;;
     compare_loop results args names (Some reference)).
Proof.
  intros Hget. simpl. by rewrite (getitem_Some _ _ _ Hget), Cmp_ret_bind.
Qed.

Lemma compare_loop_first results args name names values :
  odict_get results name = Some values →
  compare_loop results args (name :: names) None
  = compare_loop results args names (Some name).
Proof.
  intros Hget. simpl. by rewrite (getitem_Some _ _ _ Hget), Cmp_ret_bind.
Qed.

Lemma compare_loop_agreeing results args reference vref pre rest :
  odict_get results reference = Some vref →
  (∀ n, n ∈ pre → stage_agrees results vref n) →
  compare_loop results args (pre ++ rest) (Some reference)
  = (concat (agreeing_comparisons reference (length vref) <$> pre)
       ++ comparisons (compare_loop results args rest (Some reference)),
     outcome (compare_loop results args rest (Some reference))).
Proof.
  intros Hget. induction pre as [|n pre IH]; intros Hpre.
  - simpl. by destruct (compare_loop _ _ _ _).
  - destruct (Hpre n) as (v & Hv & Hag); [left|].
    rewrite <- app_comm_cons, (compare_loop_cons _ _ _ _ _ _ Hv).
    rewrite (compare_stage_agrees _ _ _ _ _ _ Hget Hag), Cmp_bind_inr.
    rewrite IH by (intros m Hm; apply Hpre; by right).
    simpl. by rewrite app_assoc.
Qed.
End FunctionMode.




Section NoAssertion.
Context {Value : Type} `{!ValueOps Value}.

Lemma no_assertion_bind {A B} (m : Cmp A) (f : A → Cmp B) :
  no_assertion m → (∀ a, no_assertion (f a)) → no_assertion (m ≫= f).
Proof.
  unfold no_assertion. rewrite outcome_bind.
  intros Hm Hf. destruct (outcome m); [intros [= ->]; by apply Hm | apply Hf].
Qed.

Lemma no_assertion_ret {A} (a : A) : no_assertion (mret a : Cmp A).
Proof. done. Qed.

Lemma no_assertion_getitem {V} (d : odict V) k : no_assertion (getitem d k).
Proof. unfold getitem. by destruct (odict_get d k). Qed.

Lemma no_assertion_tuple_index {A} (t : list A) i :
  no_assertion (tuple_index t i).
Proof. unfold tuple_index. by destruct (t !! i). Qed.

Lemma no_assertion_list_index {A} (t : list A) i :
  no_assertion (list_index t i).
Proof. unfold list_index. by destruct (t !! i). Qed.

Lemma no_assertion_values_equal_at l r ch i (a b : Value) :
  no_assertion (values_equal_at l r ch i a b).
Proof. done. Qed.

Lemma no_assertion_for_range_from body n :
  (∀ j, no_assertion (body j)) → ∀ i, no_assertion (for_range_from i n body).
Proof.
  intros Hb. induction n as [|n IH]; intros i; [done|].
  rewrite for_range_from_S. apply no_assertion_bind; auto.
Qed.

Lemma no_assertion_for_each {A} (body : A → Cmp unit) l :
  (∀ x, no_assertion (body x)) → no_assertion (for_each l body).
Proof.
  intros Hb. induction l as [|x l IH]; [done|].
  rewrite for_each_cons. apply no_assertion_bind; auto.
Qed.

Lemma matching_stages_cons n v (items : odict (list Value)) i who x :
  matching_stages ((n, v) :: items) i who x
  = (vi ← tuple_index v i;
     b ← values_equal_at n who None i vi x;
     ns ← matching_stages items i who x;
     mret (if b : bool then n :: ns else ns)).
Proof. reflexivity. Qed.

Lemma compare_loop_unfold (results : odict (list Value)) args name names reference :
  compare_loop results args (name :: names) reference
  = (values ← getitem results name;
     match reference with
     | None => compare_loop results args names (Some name)
     | Some r =>
         compare_stage results args r name values;;
         compare_loop results args names (Some r)
     end).
Proof. reflexivity. Qed.

Lemma no_assertion_matching_stages (items : odict (list Value)) i who x :
  no_assertion (matching_stages items i who x).
Proof.
  induction items as [|[n v] items IH]; [done|]. rewrite matching_stages_cons.
  apply no_assertion_bind; [apply no_assertion_tuple_index|intros vi].
  apply no_assertion_bind; [apply no_assertion_values_equal_at|intros b].
  apply no_assertion_bind; [apply IH|done].
Qed.

Lemma no_assertion_args_text (args : option (list (list Value))) i :
  no_assertion (args_text args i).
Proof.
  unfold args_text. destruct (truthy_list args); [|done].
  apply no_assertion_bind; [apply no_assertion_list_index|done].
Qed.

Lemma no_assertion_compare_index results args reference name (v : list Value) i :
  no_assertion (compare_index results args reference name v i).
Proof.
  unfold compare_index.
  apply no_assertion_bind; [apply no_assertion_getitem|intros ?].
  apply no_assertion_bind; [apply no_assertion_tuple_index|intros ?].
  apply no_assertion_bind; [apply no_assertion_tuple_index|intros ?].
  apply no_assertion_bind; [apply no_assertion_values_equal_at|intros []]; [done|].
  apply no_assertion_bind; [apply no_assertion_matching_stages|intros ?].
  apply no_assertion_bind; [apply no_assertion_matching_stages|intros ?].
  apply no_assertion_bind; [apply no_assertion_args_text|done].
Qed.

Lemma no_assertion_compare_stage results args reference name (v : list Value) :
  no_assertion (compare_stage results args reference name v).
Proof.
  unfold compare_stage.
  apply no_assertion_bind; [apply no_assertion_getitem|intros ?].
  destruct (negb _); [done|].
  apply no_assertion_for_range_from. intros j. apply no_assertion_compare_index.
Qed.

Lemma no_assertion_compare_loop (results : odict (list Value)) args names :
  ∀ reference, no_assertion (compare_loop results args names reference).
Proof.
  induction names as [|n names IH]; intros reference; [done|].
  rewrite compare_loop_unfold.
  apply no_assertion_bind; [apply no_assertion_getitem|intros v].
  destruct reference; [|apply IH].
  apply no_assertion_bind; [apply no_assertion_compare_stage|intros; apply IH].
Qed.
End NoAssertion.

Section FunctionModeClaims.
Context {Value : Type} `{!ValueOps Value, !PyStr}.

Lemma assert_batch_length_Some (first : list Value) row batch :
  assert_batch_length first (Some (row :: batch))
  = if (length first =? length (row :: batch))%nat
    then mret () else raise AssertionError.
Proof. reflexivity. Qed.

Lemma assert_batch_length_holds n0 (first : list Value) rest args :
  assertion_holds ((n0, first) :: rest) args →
  assert_batch_length first args = mret ().
Proof.
  unfold assertion_holds.
  destruct args as [[|row batch]|]; try done.
  rewrite assert_batch_length_Some. intros ->. by rewrite Nat.eqb_refl.
Qed.

(** C8: on an empty ResultSet both comparators return, without raising
    and without making any comparison. *)
Theorem empty_result_set_succeeds (args : option (list (list Value))) :
  _compare_results_function [] args = ([], inr ())
  ∧ _compare_results_proc [] = ([], inr ()).
Proof. split; reflexivity. Qed.

(** C3 (amended): in function mode, when the comparator comes to a
    candidate stage whose sequence length differs from the reference's
    (the assertion on the ArgsBatch holds and every earlier candidate
    agrees with the reference), it raises the error that names both
    stages and both lengths, and none of the comparisons it made involves
    an element of the candidate. *)
Theorem length_mismatch_reported
    (results : odict (list Value)) args reference pre name post vref vname :
  odict_wf results →
  sorted (keys results) = reference :: pre ++ name :: post →
  assertion_holds results args →
  odict_get results reference = Some vref →
  odict_get results name = Some vname →
  (∀ n, n ∈ pre → stage_agrees results vref n) →
  length vref ≠ length vname →
  outcome (_compare_results_function results args)
  = inl (SampleError
           (length_mismatch_msg reference (length vref) name (length vname))
           false)
  ∧ Forall (λ c, ¬ involves name c)
      (comparisons (_compare_results_function results args)).
Proof.
  intros Hwf Hsorted Hassert Href Hname Hpre Hlen.
  assert (Hnd : NoDup (reference :: pre ++ name :: post)).
  { rewrite <- Hsorted, sorted_Permutation. exact Hwf. }
  destruct results as [|[n0 first] rest].
  { pose proof (sorted_Permutation (keys (@nil (string * list Value)))) as Hp.
    rewrite Hsorted in Hp. by apply Permutation_nil_r in Hp. }
  unfold _compare_results_function.
  rewrite (assert_batch_length_holds _ _ _ _ Hassert), Cmp_ret_bind, Hsorted.
  rewrite (compare_loop_first _ _ _ _ _ Href).
  rewrite (compare_loop_agreeing _ _ _ _ _ _ Href Hpre).
  rewrite (compare_loop_cons _ _ _ _ _ _ Hname).
  rewrite (compare_stage_length _ _ _ _ _ _ Href Hlen). simpl.
  split; [reflexivity|].
  rewrite app_nil_r. apply Forall_concat, Forall_fmap, Forall_forall.
  intros n Hn. unfold agreeing_comparisons. apply Forall_fmap, Forall_forall.
  intros i _. simpl. intros [->| ->].
  - apply NoDup_cons in Hnd as [Hnd _]. apply Hnd. set_solver.
  - apply NoDup_cons in Hnd as [_ Hnd].
    apply NoDup_app in Hnd as (_ & Hnd & _). apply (Hnd name Hn). left.
Qed.

(** C4 (amended): with an ArgsBatch supplied and a non-empty ResultSet,
    the comparator ends in an AssertionError exactly when the batch is
    non-empty and the length of the first inserted stage differs from the
    batch length, and then it has made no comparison; the lengths of the
    other stages are not asserted.  When every stage's length equals the
    batch length, the assertion does not fail. *)
Theorem assertion_inspects_first_inserted
    n0 (first : list Value) rest (batch : list (list Value)) :
  let results := (n0, first) :: rest in
  (outcome (_compare_results_function results (Some batch)) = inl AssertionError
   ↔ batch ≠ [] ∧ length first ≠ length batch)
  ∧ (outcome (_compare_results_function results (Some batch))
     = inl AssertionError →
     comparisons (_compare_results_function results (Some batch)) = [])
  ∧ (Forall (λ nv, length nv.2 = length batch) results →
     outcome (_compare_results_function results (Some batch))
     ≠ inl AssertionError).
Proof.
  intros results.
  assert (Hiff : outcome (_compare_results_function results (Some batch))
                 = inl AssertionError
                 ↔ batch ≠ [] ∧ length first ≠ length batch).
  { unfold results, _compare_results_function.
    destruct batch as [|row batch].
    - change (assert_batch_length first (Some [])) with (mret () : Cmp ()).
      rewrite Cmp_ret_bind. split; [|by intros [? _]].
      intros Hout. by apply no_assertion_compare_loop in Hout.
    - rewrite assert_batch_length_Some.
      destruct (Nat.eqb_spec (length first) (length (row :: batch)))
        as [Heq|Hne].
      + rewrite Cmp_ret_bind. split; [|by intros [_ ?]].
        intros Hout. by apply no_assertion_compare_loop in Hout.
      + done. }
  split; [exact Hiff|]. split.
  - intros [Hbatch Hne]%Hiff. unfold results, _compare_results_function.
    destruct batch as [|row batch]; [done|].
    rewrite assert_batch_length_Some.
    apply Nat.eqb_neq in Hne. by rewrite Hne.
  - intros Hall Hout. apply Hiff in Hout as [_ Hout]. apply Hout.
    by apply Forall_cons in Hall as [Hfirst _].
Qed.
End FunctionModeClaims.




Section OutcomeRules.
Lemma outcome_bind_rel {A B} (R : A → A → Prop)
    (m m' : Cmp A) (f f' : A → Cmp B) :
  match outcome m, outcome m' with
  | inl e, inl e' => e = e'
  | inr a, inr a' => R a a'
  | _, _ => False
  end →
  (∀ a a', R a a' → outcome (f a) = outcome (f' a')) →
  outcome (m ≫= f) = outcome (m' ≫= f').
Proof.
  intros Hm Hf. rewrite !outcome_bind.
  destruct (outcome m), (outcome m'); try done; [by subst | by apply Hf].
Qed.

Lemma outcome_bind_ext {A B} (m m' : Cmp A) (f f' : A → Cmp B) :
  outcome m = outcome m' →
  (∀ a, outcome (f a) = outcome (f' a)) →
  outcome (m ≫= f) = outcome (m' ≫= f').
Proof.
  intros Hm Hf. rewrite !outcome_bind, Hm.
  destruct (outcome m'); [done | apply Hf].
Qed.

Lemma outcome_for_range_from_ext body body' n :
  (∀ j, outcome (body j) = outcome (body' j)) →
  ∀ i, outcome (for_range_from i n body) = outcome (for_range_from i n body').
Proof.
  intros Hb. induction n as [|n IH]; intros i; [done|].
  rewrite !for_range_from_S. apply outcome_bind_ext; auto.
Qed.

Lemma outcome_for_each_ext {A} (body body' : A → Cmp unit) l :
  (∀ x, outcome (body x) = outcome (body' x)) →
  outcome (for_each l body) = outcome (for_each l body').
Proof.
  intros Hb. induction l as [|x l IH]; [done|].
  rewrite !for_each_cons. apply outcome_bind_ext; auto.
Qed.
End OutcomeRules.

Section OrderIndependence.
Context {Value : Type} `{!ValueOps Value}.
Implicit Types (results : odict (list Value))
  (args : option (list (list Value))).

Lemma all_have_index_dec results i : Decision (all_have_index results i).
Proof. unfold all_have_index. apply _. Defined.

Lemma matching_stages_outcome results i who x :
  outcome (matching_stages results i who x)
  = if decide (all_have_index results i)
    then inr (stages_matching results i x)
    else inl (IndexError "tuple index out of range").
Proof.
  unfold all_have_index, stages_matching.
  induction results as [|[n v] items IH].
  - rewrite decide_True by constructor. reflexivity.
  - rewrite matching_stages_cons. unfold tuple_index.
    destruct (v !! i) as [y|] eqn:Hy.
    + apply lookup_lt_Some in Hy as Hlt.
      rewrite Cmp_ret_bind, values_equal_at_bind. unfold outcome at 1. simpl.
      rewrite outcome_bind, IH.
      destruct (decide (Forall _ items)) as [Hall|Hall].
      * rewrite decide_True by (by constructor).
        destruct (values_equal y x) eqn:Hyx.
        -- rewrite filter_cons_True; [done|].
           unfold matches_at. simpl. by rewrite Hy, Hyx.
        -- rewrite filter_cons_False; [done|].
           unfold matches_at. simpl. rewrite Hy, Hyx. by intros [].
      * rewrite decide_False; [done|].
        intros [_ ?]%Forall_cons. done.
    + apply lookup_ge_None in Hy. simpl.
      rewrite decide_False; [done|].
      intros [? _]%Forall_cons. simpl in *. lia.
Qed.

Lemma stages_matching_proper results results' i x :
  results ≡ₚ results' →
  stages_matching results i x ≡ₚ stages_matching results' i x.
Proof. intros Hp. unfold stages_matching. by rewrite Hp. Qed.

Lemma matching_stages_proper results results' i who x :
  results ≡ₚ results' →
  match outcome (matching_stages results i who x),
        outcome (matching_stages results' i who x) with
  | inl e, inl e' => e = e'
  | inr l, inr l' => l ≡ₚ l'
  | _, _ => False
  end.
Proof.
  intros Hp. rewrite !matching_stages_outcome.
  destruct (decide (all_have_index results i)) as [Hall|Hall].
  - rewrite decide_True by (unfold all_have_index in *; by rewrite <- Hp).
    by apply stages_matching_proper.
  - rewrite decide_False; [done|].
    unfold all_have_index in *. by rewrite <- Hp.
Qed.

Lemma getitem_proper {V} (d d' : odict V) k :
  odict_wf d → d ≡ₚ d' → getitem d k = getitem d' k.
Proof. intros Hwf Hp. unfold getitem. by rewrite (odict_get_proper d d'). Qed.

Lemma compare_index_proper results results' args reference name v i :
  odict_wf results → results ≡ₚ results' →
  outcome (compare_index results args reference name v i)
  = outcome (compare_index results' args reference name v i).
Proof.
  intros Hwf Hp. unfold compare_index.
  rewrite (getitem_proper results results') by done.
  apply outcome_bind_ext; [done|intros ref_values].
  apply outcome_bind_ext; [done|intros ref_result].
  apply outcome_bind_ext; [done|intros vi].
  apply outcome_bind_ext; [done|intros []]; [done|].
  apply (outcome_bind_rel Permutation); [by apply matching_stages_proper|].
  intros rm rm' Hrm.
  apply (outcome_bind_rel Permutation); [by apply matching_stages_proper|].
  intros vm vm' Hvm.
  apply outcome_bind_ext; [done|intros a].
  by rewrite (sorted_proper rm rm'), (sorted_proper vm vm').
Qed.

Lemma compare_stage_proper results results' args reference name v :
  odict_wf results → results ≡ₚ results' →
  outcome (compare_stage results args reference name v)
  = outcome (compare_stage results' args reference name v).
Proof.
  intros Hwf Hp. unfold compare_stage.
  rewrite (getitem_proper results results') by done.
  apply outcome_bind_ext; [done|intros ref_values].
  destruct (negb _); [done|].
  apply outcome_for_range_from_ext. intros j. by apply compare_index_proper.
Qed.

Lemma compare_loop_proper results results' args names :
  odict_wf results → results ≡ₚ results' →
  ∀ reference,
    outcome (compare_loop results args names reference)
    = outcome (compare_loop results' args names reference).
Proof.
  intros Hwf Hp. induction names as [|n names IH]; intros reference; [done|].
  rewrite !compare_loop_unfold.
  rewrite (getitem_proper results results') by done.
  apply outcome_bind_ext; [done|intros v].
  destruct reference; [|apply IH].
  apply outcome_bind_ext; [by apply compare_stage_proper|intros; apply IH].
Qed.

Lemma compare_results_function_eq results args :
  _compare_results_function results args
  = match results with
    | [] => mret ()
    | _ :: _ =>
        assert_batch_length (first_inserted results) args;;
        compare_loop results args (sorted (keys results)) None
    end.
Proof. by destruct results as [|[??]?]. Qed.

Lemma compare_results_function_proper results results' args :
  odict_wf results → results ≡ₚ results' →
  outcome (assert_batch_length (first_inserted results) args)
  = outcome (assert_batch_length (first_inserted results') args) →
  outcome (_compare_results_function results args)
  = outcome (_compare_results_function results' args).
Proof.
  intros Hwf Hp Hassert. rewrite !compare_results_function_eq.
  destruct results as [|nv results], results' as [|nv' results'].
  - done.
  - by apply Permutation_nil_l in Hp.
  - by apply Permutation_nil_r in Hp.
  - apply outcome_bind_ext; [done|intros _].
    rewrite (sorted_proper (keys (nv :: results)) (keys (nv' :: results')))
      by (by apply keys_proper).
    by apply compare_loop_proper.
Qed.

(** The loop over the sorted names, once the reference is chosen. *)
Lemma compare_loop_for_each results args names reference :
  compare_loop results args names (Some reference)
  = for_each names
      (λ name, values ← getitem results name;
               compare_stage results args reference name values).
Proof.
  induction names as [|n names IH]; [done|].
  by rewrite compare_loop_unfold, for_each_cons, <- IH, Cmp_bind_assoc.
Qed.
End OrderIndependence.


Section OutcomeLoops.
Lemma outcome_for_range_from_ok body n : ∀ i,
  (∀ j, i ≤ j < i + n → outcome (body j) = inr ()) →
  outcome (for_range_from i n body) = inr ().
Proof.
  intros i Hb.
  rewrite (for_range_from_ok (λ j, comparisons (body j))); [done|].
  intros j Hj. rewrite (Cmp_eta (body j)) at 1. by rewrite Hb.
Qed.

Lemma outcome_for_range_from_fails body n k e : ∀ i,
  i ≤ k < i + n →
  (∀ j, i ≤ j < k → outcome (body j) = inr ()) →
  outcome (body k) = inl e →
  outcome (for_range_from i n body) = inl e.
Proof.
  intros i Hk Hb Hf.
  rewrite (for_range_from_fails (λ j, comparisons (body j)) body n k
             (comparisons (body k)) e); [done|done|..].
  - intros j Hj. rewrite (Cmp_eta (body j)) at 1. by rewrite Hb.
  - rewrite (Cmp_eta (body k)) at 1. by rewrite Hf.
Qed.

Lemma outcome_for_each_ok {A} (body : A → Cmp unit) l :
  (∀ x, x ∈ l → outcome (body x) = inr ()) →
  outcome (for_each l body) = inr ().
Proof.
  intros Hb. rewrite (for_each_ok (λ x, comparisons (body x))); [done|].
  intros x Hx. rewrite (Cmp_eta (body x)) at 1. by rewrite Hb.
Qed.

Lemma outcome_for_each_fails {A} (body : A → Cmp unit) pre x post e :
  (∀ y, y ∈ pre → outcome (body y) = inr ()) →
  outcome (body x) = inl e →
  outcome (for_each (pre ++ x :: post) body) = inl e.
Proof.
  intros Hb Hf.
  rewrite (for_each_fails (λ y, comparisons (body y)) body pre post x
             (comparisons (body x)) e); [done|..].
  - intros y Hy. rewrite (Cmp_eta (body y)) at 1. by rewrite Hb.
  - rewrite (Cmp_eta (body x)) at 1. by rewrite Hf.
Qed.
End OutcomeLoops.



Section ProcMode.
Context {Value : Type} `{!ValueOps Value, !PyStr}.
Implicit Types (results : odict (odict (list Value))).

Lemma compare_channel_index_equal reference name channel
    (vref v : list Value) i a b :
  vref !! i = Some a → v !! i = Some b → values_equal a b = true →
  compare_channel_index reference name channel vref v i
  = ([Compared reference name (Some channel) i], inr ()).
Proof.
  intros Ha Hb Heq. unfold compare_channel_index.
  rewrite (list_index_Some _ _ _ Ha), Cmp_ret_bind.
  rewrite (list_index_Some _ _ _ Hb), Cmp_ret_bind.
  rewrite values_equal_at_bind, Heq. reflexivity.
Qed.

Lemma compare_channel_agrees reference name channels item :
  channel_agrees channels item →
  outcome (compare_channel reference name channels item) = inr ().
Proof.
  destruct item as [c vref]. intros (v & Hv & Hag). simpl in *.
  unfold compare_channel. rewrite Hv.
  pose proof (Forall2_length _ _ _ Hag) as Hlen.
  rewrite Hlen, Nat.eqb_refl. simpl.
  apply outcome_for_range_from_ok. intros j Hj.
  destruct (lookup_lt_is_Some_2 v j) as [b Hb]; [lia|].
  destruct (lookup_lt_is_Some_2 vref j) as [a Ha]; [lia|].
  erewrite compare_channel_index_equal; eauto.
  eapply Forall2_lookup_lr in Hag; eauto.
Qed.

Lemma compare_stage_proc_agrees results reference ref_channels n :
  stage_agrees_proc results ref_channels n →
  outcome (compare_stage_proc results reference ref_channels n) = inr ().
Proof.
  intros (channels & Hget & Hlen & Hag). unfold compare_stage_proc.
  rewrite (getitem_Some _ _ _ Hget), Cmp_ret_bind.
  rewrite Hlen, Nat.eqb_refl. simpl.
  apply outcome_for_each_ok. intros item Hitem.
  by apply compare_channel_agrees, Hag.
Qed.

Lemma compare_results_proc_eq results reference stages ref_channels :
  sorted (keys results) = reference :: stages →
  odict_get results reference = Some ref_channels →
  _compare_results_proc results
  = for_each stages (compare_stage_proc results reference ref_channels).
Proof.
  intros Hsorted Href. unfold _compare_results_proc.
  destruct results as [|nv results].
  { pose proof (sorted_Permutation (keys (@nil (string * odict (list Value))))) as Hp.
    rewrite Hsorted in Hp. by apply Permutation_nil_r in Hp. }
  by rewrite Hsorted, (getitem_Some _ _ _ Href), Cmp_ret_bind.
Qed.

(** C5 (amended): in proc mode, when the comparator comes to a
    candidate stage (every earlier candidate agrees with the reference)
    that lacks a channel [c] of the reference, it raises an error naming
    [c] and both stages.  When the two stages have equally many channels and the
    reference's channels before [c] agree, it is the missing-channel
    error for [c]; when the channel counts differ, it is the
    channel-count error, which lists the channel names of the reference,
    [c] among them. *)
Theorem missing_channel_reported
    results reference pre name post ref_channels channels
    chpre c cvs chpost :
  sorted (keys results) = reference :: pre ++ name :: post →
  odict_get results reference = Some ref_channels →
  odict_get results name = Some channels →
  (∀ n, n ∈ pre → stage_agrees_proc results ref_channels n) →
  ref_channels = chpre ++ (c, cvs) :: chpost →
  odict_get channels c = None →
  (length ref_channels = length channels →
   ∀ item, item ∈ chpre → channel_agrees channels item) →
  c ∈ keys ref_channels
  ∧ outcome (_compare_results_proc results)
    = inl (SampleError
             (if decide (length ref_channels = length channels)
              then missing_channel_msg c reference name
              else channel_count_msg reference (keys ref_channels)
                     name (keys channels))
             false).
Proof.
  intros Hsorted Href Hname Hpre Hsplit Hmissing Hchpre. split.
  { rewrite Hsplit. unfold keys. rewrite fmap_app, fmap_cons. set_solver. }
  rewrite (compare_results_proc_eq _ _ _ _ Hsorted Href).
  apply outcome_for_each_fails.
  { intros n Hn. by apply compare_stage_proc_agrees, Hpre. }
  unfold compare_stage_proc.
  rewrite (getitem_Some _ _ _ Hname), Cmp_ret_bind.
  destruct (decide (length ref_channels = length channels)) as [Hlen|Hlen].
  - rewrite Hlen, Nat.eqb_refl. simpl. rewrite Hsplit.
    apply outcome_for_each_fails.
    + intros item Hitem. by apply compare_channel_agrees, Hchpre.
    + unfold compare_channel. by rewrite Hmissing.
  - apply Nat.eqb_neq in Hlen. by rewrite Hlen.
Qed.

Lemma compare_stage_proc_proper results results' reference ref_channels n :
  odict_wf results → results ≡ₚ results' →
  compare_stage_proc results reference ref_channels n
  = compare_stage_proc results' reference ref_channels n.
Proof.
  intros Hwf Hp. unfold compare_stage_proc.
  by rewrite (getitem_proper results results').
Qed.

Lemma compare_results_proc_proper results results' :
  odict_wf results → results ≡ₚ results' →
  _compare_results_proc results = _compare_results_proc results'.
Proof.
  intros Hwf Hp. unfold _compare_results_proc.
  destruct results as [|nv results], results' as [|nv' results'].
  - done.
  - by apply Permutation_nil_l in Hp.
  - by apply Permutation_nil_r in Hp.
  - rewrite (sorted_proper (keys (nv :: results)) (keys (nv' :: results')))
      by (by apply keys_proper).
    destruct (sorted _) as [|reference stages]; [done|].
    rewrite (getitem_proper (nv :: results) (nv' :: results')) by done.
    destruct (getitem _ reference) as [t [e|ref_channels]]; [done|].
    rewrite !Cmp_bind_inr. do 2 f_equal.
    all: induction stages as [|n stages IH]; [done|];
      rewrite !for_each_cons,
        (compare_stage_proc_proper (nv :: results) (nv' :: results')) by done;
      destruct (compare_stage_proc _ _ _ _) as [t' [e'|[]]]; [done|];
      rewrite !Cmp_bind_inr; simpl; by rewrite IH.
Qed.
End ProcMode.




Section Miscompare.
Context {Value : Type} `{!ValueOps Value}.
Implicit Types (results : odict (list Value))
  (args : option (list (list Value))).

Lemma args_text_outcome results args i :
  results ≠ [] → assertion_holds results args → all_have_index results i →
  outcome (args_text args i) = inr (args_at args i).
Proof.
  intros Hne Hassert Hall. unfold args_text, args_at.
  destruct args as [[|row batch]|]; try done.
  destruct results as [|[n0 first] rest]; [done|].
  simpl in Hassert. apply Forall_cons in Hall as [Hfirst _]. simpl in Hfirst.
  change (truthy_list (Some (row :: batch))) with true. cbv iota.
  change (default [] (Some (row :: batch))) with (row :: batch).
  destruct (lookup_lt_is_Some_2 (row :: batch) i) as [r Hr]; [simpl; lia|].
  rewrite (list_index_Some _ _ _ Hr), Cmp_ret_bind. by rewrite Hr.
Qed.

Lemma compare_index_mismatch results args reference name vref v i a b :
  results ≠ [] → assertion_holds results args →
  odict_get results reference = Some vref →
  vref !! i = Some a → v !! i = Some b → values_equal a b = false →
  all_have_index results i →
  outcome (compare_index results args reference name v i)
  = inl (SampleError
           (miscompare_msg i (args_at args i)
              (sorted (stages_matching results i a)) (to_ir_str a)
              (sorted (stages_matching results i b)) (to_ir_str b))
           false).
Proof.
  intros Hne Hassert Hget Ha Hb Hab Hall. unfold compare_index.
  rewrite (getitem_Some _ _ _ Hget), Cmp_ret_bind.
  rewrite (tuple_index_Some _ _ _ Ha), Cmp_ret_bind.
  rewrite (tuple_index_Some _ _ _ Hb), Cmp_ret_bind.
  rewrite values_equal_at_bind, Hab. unfold outcome at 1. simpl.
  rewrite outcome_bind, matching_stages_outcome, decide_True by done.
  rewrite outcome_bind, matching_stages_outcome, decide_True by done.
  rewrite outcome_bind, (args_text_outcome results) by done.
  reflexivity.
Qed.

(** The report of the first miscompare, when every stage has a value at
    the index of the miscompare. *)
Lemma first_miscompare_reported
    results args reference pre name post vref vname i a b :
  sorted (keys results) = reference :: pre ++ name :: post →
  assertion_holds results args →
  odict_get results reference = Some vref →
  odict_get results name = Some vname →
  (∀ n, n ∈ pre → stage_agrees results vref n) →
  length vref = length vname →
  agrees (take i vref) (take i vname) →
  vref !! i = Some a → vname !! i = Some b → values_equal a b = false →
  all_have_index results i →
  outcome (_compare_results_function results args)
  = inl (SampleError
           (miscompare_msg i (args_at args i)
              (sorted (stages_matching results i a)) (to_ir_str a)
              (sorted (stages_matching results i b)) (to_ir_str b))
           false).
Proof.
  intros Hsorted Hassert Href Hname Hpre Hlen Hbefore Ha Hb Hab Hall.
  assert (Hne : results ≠ []).
  { intros ->.
    pose proof (sorted_Permutation (keys (@nil (string * list Value)))) as Hp.
    rewrite Hsorted in Hp. by apply Permutation_nil_r in Hp. }
  rewrite compare_results_function_eq.
  destruct results as [|[n0 first] rest] eqn:Hres; [done|]. rewrite <- Hres in *.
  assert (Hfirst : first_inserted results = first) by (by rewrite Hres).
  rewrite Hfirst.
  rewrite (assert_batch_length_holds n0 first rest)
    by (by rewrite <- Hres).
  rewrite Cmp_ret_bind, Hsorted.
  rewrite (compare_loop_first _ _ _ _ _ Href).
  rewrite (compare_loop_agreeing _ _ _ _ _ _ Href Hpre).
  unfold outcome at 1. cbn [snd].
  rewrite (compare_loop_cons _ _ _ _ _ _ Hname), outcome_bind.
  unfold compare_stage at 1.
  rewrite (getitem_Some _ _ _ Href), Cmp_ret_bind.
  rewrite Hlen, Nat.eqb_refl. simpl. unfold for_range.
  apply lookup_lt_Some in Hb as Hi.
  rewrite (outcome_for_range_from_fails _ _ i
             (SampleError
                (miscompare_msg i (args_at args i)
                   (sorted (stages_matching results i a)) (to_ir_str a)
                   (sorted (stages_matching results i b)) (to_ir_str b))
                false)); [done|lia|..].
  - intros j Hj.
    destruct (lookup_lt_is_Some_2 vname j) as [b' Hb']; [lia|].
    destruct (lookup_lt_is_Some_2 vref j) as [a' Ha']; [lia|].
    rewrite (compare_index_equal results args reference name vref vname
               j a' b'); [done..|].
    apply (Forall2_lookup_lr _ _ _ j a' b' Hbefore).
    + by rewrite lookup_take_lt by lia.
    + by rewrite lookup_take_lt by lia.
  - by apply (compare_index_mismatch _ _ _ _ vref).
Qed.
End Miscompare.

Section OrderTheorem.
Context {Value : Type} `{!ValueOps Value, !PyStr}.

(** C1 (amended): for a non-empty ResultSet, in function mode and in
    proc mode, the comparator takes the lexicographically smallest stage
    name as the reference and visits the other stages in lexicographic
    order.  In proc mode the outcome does not depend on the order in which
    the stages were inserted.  In function mode the outcome depends on
    that order only through the initial assertion on the ArgsBatch length,
    which inspects the first inserted stage: two insertion orders of one
    mapping have the same outcome whenever that assertion has the same
    result for both, in particular when no non-empty ArgsBatch is
    supplied. *)
Theorem reference_is_least_and_order_is_immaterial :
  (∀ (results : odict (list Value)) args, results ≠ [] →
     ∃ reference stages,
       sorted (keys results) = reference :: stages
       ∧ (∀ k, k ∈ keys results → string_le reference k)
       ∧ StronglySorted string_le (reference :: stages)
       ∧ _compare_results_function results args
         = (assert_batch_length (first_inserted results) args;;
            getitem results reference;;
            for_each stages
              (λ name, values ← getitem results name;
                       compare_stage results args reference name values)))
  ∧ (∀ (results : odict (odict (list Value))), results ≠ [] →
       ∃ reference stages,
         sorted (keys results) = reference :: stages
         ∧ (∀ k, k ∈ keys results → string_le reference k)
         ∧ StronglySorted string_le (reference :: stages)
         ∧ _compare_results_proc results
           = (ref_channels ← getitem results reference;
              for_each stages
                (compare_stage_proc results reference ref_channels)))
  ∧ (∀ (results results' : odict (odict (list Value))),
       odict_wf results → results ≡ₚ results' →
       outcome (_compare_results_proc results)
       = outcome (_compare_results_proc results'))
  ∧ (∀ (results results' : odict (list Value)) args,
       odict_wf results → results ≡ₚ results' →
       outcome (assert_batch_length (first_inserted results) args)
       = outcome (assert_batch_length (first_inserted results') args) →
       outcome (_compare_results_function results args)
       = outcome (_compare_results_function results' args))
  ∧ (∀ (results results' : odict (list Value)) args,
       odict_wf results → results ≡ₚ results' →
       truthy_list args = false →
       outcome (_compare_results_function results args)
       = outcome (_compare_results_function results' args)).
Proof.
  assert (Hhead : ∀ {V} (d : odict V), d ≠ [] →
            ∃ reference stages, sorted (keys d) = reference :: stages).
  { intros V d Hd. destruct (sorted (keys d)) as [|r s] eqn:Hs; [|eauto].
    pose proof (sorted_Permutation (keys d)) as Hp. rewrite Hs in Hp.
    apply Permutation_nil_l in Hp. by destruct d. }
  split; [|split; [|split; [|split]]].
  - intros results args Hne.
    destruct (Hhead _ results Hne) as (reference & stages & Hs).
    exists reference, stages. split; [done|].
    split; [by apply (sorted_head_least _ stages)|].
    split; [rewrite <- Hs; apply sorted_StronglySorted|].
    rewrite compare_results_function_eq.
    destruct results as [|nv results]; [done|]. rewrite Hs.
    rewrite compare_loop_unfold, <- compare_loop_for_each. done.
  - intros results Hne.
    destruct (Hhead _ results Hne) as (reference & stages & Hs).
    exists reference, stages. split; [done|].
    split; [by apply (sorted_head_least _ stages)|].
    split; [rewrite <- Hs; apply sorted_StronglySorted|].
    unfold _compare_results_proc.
    destruct results as [|nv results]; [done|]. by rewrite Hs.
  - intros results results' Hwf Hp.
    by rewrite (compare_results_proc_proper results results').
  - intros results results' args. apply compare_results_function_proper.
  - intros results results' args Hwf Hp Hargs.
    apply compare_results_function_proper; [done|done|].
    unfold assert_batch_length. by rewrite Hargs.
Qed.
End OrderTheorem.


(** ** Facts about the orchestrator monad *)

Section RunFacts.
Context {A B : Type}.

Lemma Run_bind_unfold (m : Run A) (f : A → Run B) w :
  (m ≫= f) w
  = match m w with
    | (inl e, w') => (inl e, w')
    | (inr a, w') => f a w'
    end.
Proof. reflexivity. Qed.

Lemma Run_bind_inr (m : Run A) (f : A → Run B) w a w' :
  m w = (inr a, w') → (m ≫= f) w = f a w'.
Proof. intros H. by rewrite Run_bind_unfold, H. Qed.

Lemma Run_bind_inl (m : Run A) (f : A → Run B) w e w' :
  m w = (inl e, w') → (m ≫= f) w = (inl e, w').
Proof. intros H. by rewrite Run_bind_unfold, H. Qed.
End RunFacts.

Lemma new_events_app w w' evs : log w' = log w ++ evs → new_events w w' = evs.
Proof. unfold new_events. intros ->. by rewrite drop_app_length. Qed.



Section Emits.
Context (P : event → Prop).

Lemma emits_ret {A} (a : A) : emits P (mret a).
Proof. intros w. exists []. by rewrite app_nil_r. Qed.

Lemma emits_raise {A} e : emits P (raise e : Run A).
Proof. intros w. exists []. by rewrite app_nil_r. Qed.

Lemma emits_lift {A} (r : exn + A) : emits P (lift r).
Proof. intros w. exists []. by rewrite app_nil_r. Qed.

Lemma emits_bind {A B} (m : Run A) (f : A → Run B) :
  emits P m → (∀ a, emits P (f a)) → emits P (m ≫= f).
Proof.
  intros Hm Hf w. rewrite Run_bind_unfold.
  destruct (Hm w) as (evs & Hlog & HP).
  destruct (m w) as [[e|a] w']; simpl in *; [eauto|].
  destruct (Hf a w') as (evs' & Hlog' & HP').
  exists (evs ++ evs'). rewrite Hlog', Hlog, app_assoc.
  split; [done | by apply Forall_app].
Qed.

Lemma emits_ran cmd : P (Ran cmd) → emits P (ran cmd).
Proof. intros HP w. exists [Ran cmd]. split; [done | by constructor]. Qed.

Lemma emits_in_stage {A} s (body : Run A) :
  P (Entered s) → (∀ e, P (Failed s e)) → emits P body →
  emits P (in_stage s body).
Proof.
  intros HE HF Hb w. unfold in_stage.
  destruct (Hb (add_log (Entered s) w)) as (evs & Hlog & HP).
  destruct (body _) as [[e|a] w']; simpl in *.
  - exists (Entered s :: evs ++ [Failed s e]). rewrite Hlog.
    split; [by rewrite <- !app_assoc|].
    constructor; [done|]. apply Forall_app. split; [done|]. by constructor.
  - exists (Entered s :: evs). rewrite Hlog.
    split; [by rewrite <- !app_assoc|]. by constructor.
Qed.

Lemma emits_try_except {A} (body : Run A) handler :
  emits P body → (∀ e, emits P (handler e)) →
  emits P (try_except body handler).
Proof.
  intros Hb Hh w. unfold try_except.
  destruct (Hb w) as (evs & Hlog & HP).
  destruct (body w) as [[e|a] w']; simpl in *; [|eauto].
  destruct (Hh e w') as (evs' & Hlog' & HP').
  exists (evs ++ evs'). rewrite Hlog', Hlog, app_assoc.
  split; [done | by apply Forall_app].
Qed.
End Emits.

Lemma emits_impl {A} (P Q : event → Prop) (m : Run A) :
  (∀ ev, P ev → Q ev) → emits P m → emits Q m.
Proof.
  intros HPQ Hm w. destruct (Hm w) as (evs & Hlog & HP).
  exists evs. split; [done|]. by eapply Forall_impl.
Qed.



Section StagePhase.
Lemma stage_phase_quiet {A} (m : Run A) : emits quiet m → stage_phase m.
Proof.
  intros Hm w. destruct (Hm w) as (evs & Hlog & HP).
  exists evs. rewrite Forall_forall in HP.
  split; [done|]. split.
  - intros Hin. by apply HP in Hin.
  - intros s e Hin. by apply HP in Hin.
Qed.

Lemma stage_phase_bind {A B} (m : Run A) (f : A → Run B) :
  stage_phase m → (∀ a, stage_phase (f a)) → stage_phase (m ≫= f).
Proof.
  intros Hm Hf w. rewrite Run_bind_unfold.
  destruct (Hm w) as (evs & Hlog & Hc & Hfail).
  destruct (m w) as [[e|a] w']; simpl in *.
  { exists evs. split_and!; [done..|].
    intros s e0 Hin. by injection (Hfail s e0 Hin) as ->. }
  destruct (Hf a w') as (evs' & Hlog' & Hc' & Hfail').
  exists (evs ++ evs'). rewrite Hlog', Hlog, app_assoc.
  split; [done|]. split.
  - rewrite elem_of_app. intros [?|?]; done.
  - intros s e [Hin|Hin]%elem_of_app; [|by apply (Hfail' s)].
    by apply Hfail in Hin.
Qed.

Lemma stage_phase_in_stage {A} s (body : Run A) :
  emits quiet body → stage_phase (in_stage s body).
Proof.
  intros Hb w. unfold in_stage.
  destruct (Hb (add_log (Entered s) w)) as (evs & Hlog & HP).
  rewrite Forall_forall in HP.
  destruct (body _) as [[e|a] w']; simpl in *.
  - exists (Entered s :: evs ++ [Failed s e]). rewrite Hlog.
    split; [by rewrite <- !app_assoc|]. split.
    + rewrite elem_of_cons, elem_of_app, list_elem_of_singleton.
      intros [?|[Hin|?]]; try done. by apply HP in Hin.
    + intros s' e'.
      rewrite elem_of_cons, elem_of_app, list_elem_of_singleton.
      intros [?|[Hin|?]]; try done; [by apply HP in Hin | congruence].
  - exists (Entered s :: evs). rewrite Hlog.
    split; [by rewrite <- !app_assoc|]. split.
    + rewrite elem_of_cons. intros [?|Hin]; [done | by apply HP in Hin].
    + intros s' e'. rewrite elem_of_cons.
      intros [?|Hin]; [done | by apply HP in Hin].
Qed.

Lemma fails_uncompared_stage_phase {A} (m : Run A) :
  stage_phase m → fails_uncompared m.
Proof.
  intros Hm w. destruct (Hm w) as (evs & Hlog & Hc & Hfail).
  exists evs. split; [done|]. intros s e Hin. split; [eauto | done].
Qed.

Lemma fails_uncompared_bind {A B} (m : Run A) (f : A → Run B) :
  stage_phase m → (∀ a, fails_uncompared (f a)) →
  fails_uncompared (m ≫= f).
Proof.
  intros Hm Hf w. rewrite Run_bind_unfold.
  destruct (Hm w) as (evs & Hlog & Hc & Hfail).
  destruct (m w) as [[e|a] w']; simpl in *.
  { exists evs. split; [done|]. intros s e' Hin. split; [|done].
    by injection (Hfail s e' Hin) as ->. }
  destruct (Hf a w') as (evs' & Hlog' & Hfail').
  exists (evs ++ evs'). rewrite Hlog', Hlog, app_assoc.
  split; [done|].
  intros s e [Hin|Hin]%elem_of_app; [by apply Hfail in Hin|].
  destruct (Hfail' s e Hin) as [Hout Hc']. split; [done|].
  rewrite elem_of_app. intros [?|?]; done.
Qed.

Lemma returns_compared_bind {A B} (m : Run A) (f : A → Run B) :
  emits (λ _, True) m → (∀ a, returns_compared (f a)) →
  returns_compared (m ≫= f).
Proof.
  intros Hm Hf w. rewrite Run_bind_unfold.
  destruct (Hm w) as (evs & Hlog & _).
  destruct (m w) as [[e|a] w']; simpl in *.
  { exists evs. split; [done|]. by intros [? [=]]. }
  destruct (Hf a w') as (evs' & Hlog' & Hc').
  exists (evs ++ evs'). rewrite Hlog', Hlog, app_assoc.
  split; [done|]. intros Hr. apply elem_of_app. right. by apply Hc'.
Qed.

Lemma returns_compared_raise {A} e : returns_compared (raise e : Run A).
Proof.
  intros w. exists []. rewrite app_nil_r. split; [done|]. by intros [? [=]].
Qed.
End StagePhase.


(** ** The orchestrator *)

Create HintDb runner.

#[local] Hint Unfold _run_command read_optional _parse_values
  _interpret_dslx_function _evaluate_ir_function _dslx_to_ir_function
  _optimize_ir _codegen _simulate_function _interpret_dslx_proc
  _evaluate_ir_proc _dslx_to_ir_proc _simulate_proc
  _run_function_from_ir _run_function _run_proc_from_ir _run_proc
  run_sample on_exception : runner.

Section RunnerLeaves.
Context {Value IRValue : Type}.
Context `{!ValueOps Value, !PyStr, !Toolchain Value IRValue}.

Lemma emits_write_file P f c : P (Wrote f c) → emits P (_write_file f c).
Proof. intros HP w. exists [Wrote f c]. split; [done | by constructor]. Qed.

Lemma emits_read_file P f : emits P (_read_file f).
Proof.
  intros w. exists []. rewrite app_nil_r. unfold _read_file.
  by destruct (files w !! f).
Qed.

Lemma emits_call_compare_results_function P
    (results : odict (list Value)) args :
  P ComparedResults → emits P (call_compare_results_function results args).
Proof. intros HP w. exists [ComparedResults]. split; [done | by constructor]. Qed.

Lemma emits_call_compare_results_proc P
    (results : odict (odict (list Value))) :
  P ComparedResults → emits P (call_compare_results_proc results).
Proof. intros HP w. exists [ComparedResults]. split; [done | by constructor]. Qed.

Lemma fails_uncompared_call_function (results : odict (list Value)) args :
  fails_uncompared (call_compare_results_function results args).
Proof.
  intros w. exists [ComparedResults]. split; [done|].
  intros s e Hin. by apply list_elem_of_singleton in Hin.
Qed.

Lemma fails_uncompared_call_proc (results : odict (odict (list Value))) :
  fails_uncompared (call_compare_results_proc results).
Proof.
  intros w. exists [ComparedResults]. split; [done|].
  intros s e Hin. by apply list_elem_of_singleton in Hin.
Qed.

Lemma returns_compared_call_function (results : odict (list Value)) args :
  returns_compared (call_compare_results_function results args).
Proof.
  intros w. exists [ComparedResults]. split; [done|]. intros _. left.
Qed.

Lemma returns_compared_call_proc (results : odict (odict (list Value))) :
  returns_compared (call_compare_results_proc results).
Proof.
  intros w. exists [ComparedResults]. split; [done|]. intros _. left.
Qed.
End RunnerLeaves.

(** One step of a proof that a run only logs events satisfying a
    predicate, by the shape of the run. *)
Ltac emits_step :=
  lazymatch goal with
  | |- emits _ (_ ≫= _) => apply emits_bind; [|intros ?]
  | |- emits _ (mret _) => apply emits_ret
  | |- emits _ (raise _) => apply emits_raise
  | |- emits _ (lift _) => apply emits_lift
  | |- emits _ (ran _) => apply emits_ran
  | |- emits _ (_read_file _) => apply emits_read_file
  | |- emits _ (_write_file _ _) => apply emits_write_file
  | |- emits _ (in_stage _ _) => apply emits_in_stage; [| |]
  | |- emits _ (call_compare_results_function _ _) =>
      apply emits_call_compare_results_function
  | |- emits _ (call_compare_results_proc _) =>
      apply emits_call_compare_results_proc
  | |- emits _ (if ?b then _ else _) => destruct b eqn:?
  | |- emits _ (match ?x with _ => _ end) => destruct x eqn:?
  end.

Ltac emits_tac :=
  autounfold with runner; repeat emits_step; simpl; try done.

Ltac stage_phase_step :=
  lazymatch goal with
  | |- stage_phase (in_stage _ _) => apply stage_phase_in_stage; emits_tac
  | |- stage_phase (_ ≫= _) => apply stage_phase_bind; [|intros ?]
  | |- stage_phase (if ?b then _ else _) => destruct b eqn:?
  | |- stage_phase (match ?x with _ => _ end) => destruct x eqn:?
  | |- stage_phase _ => apply stage_phase_quiet; emits_tac
  end.

Ltac stage_phase_tac := autounfold with runner; repeat stage_phase_step.

Ltac fails_uncompared_step :=
  lazymatch goal with
  | |- fails_uncompared (call_compare_results_function _ _) =>
      apply fails_uncompared_call_function
  | |- fails_uncompared (call_compare_results_proc _) =>
      apply fails_uncompared_call_proc
  | |- fails_uncompared (_ ≫= _) =>
      apply fails_uncompared_bind; [stage_phase_tac | intros ?]
  | |- fails_uncompared (if ?b then _ else _) => destruct b eqn:?
  | |- fails_uncompared (match ?x with _ => _ end) => destruct x eqn:?
  | |- fails_uncompared _ => apply fails_uncompared_stage_phase; stage_phase_tac
  end.

Ltac fails_uncompared_tac :=
  autounfold with runner; repeat fails_uncompared_step.

Section RunnerInvariants.
Context {Value IRValue : Type}.
Context `{!ValueOps Value, !PyStr, !Toolchain Value IRValue}.

Lemma fails_uncompared_run_sample input options af cf pf :
  fails_uncompared (run_sample input options af cf pf).
Proof. fails_uncompared_tac. Qed.
End RunnerInvariants.




Section RunnerClaims.
Context {Value IRValue : Type}.
Context `{!ValueOps Value, !PyStr, !Toolchain Value IRValue}.

(** *** The failure policy *)

Lemma try_except_on_exception (body : Run ()) w s e :
  fails_uncompared body →
  let r := try_except body on_exception w in
  Failed s e ∈ new_events w r.2 →
  r.1 = inl (SampleError (exn_message e) (is_TimeoutExpired e))
  ∧ files r.2 !! "exception.txt" = Some (exn_message e)
  ∧ ∃ evs, new_events w r.2 = evs ++ [Wrote "exception.txt" (exn_message e)]
           ∧ ComparedResults ∉ evs.
Proof.
  intros Hbody. unfold try_except.
  destruct (Hbody w) as (evs & Hlog & Hfail).
  destruct (body w) as [[e0|[]] w1]; simpl in *.
  - rewrite (new_events_app w _ (evs ++ [Wrote "exception.txt" (exn_message e0)]))
      by (simpl; by rewrite Hlog, app_assoc).
    rewrite elem_of_app, list_elem_of_singleton. intros [Hin|?]; [|done].
    destruct (Hfail s e Hin) as [[= ->] Hc].
    split; [done|]. split; [by rewrite lookup_insert_eq|]. eauto.
  - rewrite (new_events_app w _ evs) by done. intros Hin.
    by destruct (Hfail s e Hin).
Qed.

Lemma run_from_files_eq input json af cf pf w :
  run_from_files input json af cf pf w
  = match files w !! json with
    | None => (inl (ForeignError (missing_file_text json) None), w)
    | Some text =>
        match options_from_json text with
        | inl e => (inl e, w)
        | inr options =>
            try_except (run_sample input options af cf pf) on_exception
              (written "revision.txt" get_revision w)
        end
    end.
Proof.
  unfold run_from_files. rewrite Run_bind_unfold. unfold _read_file at 1.
  destruct (files w !! json) as [text|]; [|done].
  rewrite Run_bind_unfold. unfold lift at 1.
  by destruct (options_from_json text) as [e0|options].
Qed.

Lemma new_events_refl w : new_events w w = [].
Proof. unfold new_events. by rewrite drop_all. Qed.

(** C6: in every run of [run_from_files] in which a stage raised a
    failure [e], no comparator was called, the message of [e] was written
    to exception.txt as the last step of the run, and the run ends in one
    SampleError with that message, whose is_timeout flag is set exactly
    when [e] is a subprocess.TimeoutExpired. *)
Theorem stage_failure_policy input json af cf pf w s e :
  let r := run_from_files input json af cf pf w in
  Failed s e ∈ new_events w r.2 →
  r.1 = inl (SampleError (exn_message e) (is_TimeoutExpired e))
  ∧ (is_TimeoutExpired e = true ↔ ∃ txt, e = TimeoutExpired txt)
  ∧ files r.2 !! "exception.txt" = Some (exn_message e)
  ∧ ∃ evs, new_events w r.2 = evs ++ [Wrote "exception.txt" (exn_message e)]
           ∧ ComparedResults ∉ evs.
Proof.
  assert (Htimeout : is_TimeoutExpired e = true ↔ ∃ txt, e = TimeoutExpired txt).
  { destruct e; simpl; split; try done; eauto; by intros [? [=]]. }
  intros r. subst r. rewrite run_from_files_eq.
  destruct (files w !! json) as [text|].
  2:{ simpl. rewrite new_events_refl. by intros ?%elem_of_nil. }
  destruct (options_from_json text) as [e0|options].
  { simpl. rewrite new_events_refl. by intros ?%elem_of_nil. }
  set (w1 := written "revision.txt" get_revision w).
  pose proof (try_except_on_exception
                (run_sample input options af cf pf) w1 s e
                (fails_uncompared_run_sample _ _ _ _ _)) as Hpolicy.
  cbv zeta in Hpolicy.
  destruct (emits_try_except (λ _, True)
              (run_sample input options af cf pf) on_exception
              ltac:(emits_tac) ltac:(intros; emits_tac) w1)
    as (evs1 & Hlog1 & _).
  set (r := try_except _ _ w1) in *.
  rewrite (new_events_app w1 _ evs1) in Hpolicy by done.
  rewrite (new_events_app w _ (Wrote "revision.txt" get_revision :: evs1))
    by (rewrite Hlog1; simpl; by rewrite <- app_assoc).
  rewrite elem_of_cons. intros [?|Hin]; [done|].
  destruct (Hpolicy Hin) as (Hr & Hfile & evs & Hevs & Hc).
  split; [done|]. split; [done|]. split; [done|].
  exists (Wrote "revision.txt" get_revision :: evs). rewrite Hevs.
  split; [done|]. rewrite elem_of_cons. by intros [?|?].
Qed.
End RunnerClaims.


Ltac emits_tac_with tac :=
  autounfold with runner; repeat emits_step; simpl; try done; try tac.

Ltac returns_compared_step :=
  lazymatch goal with
  | |- returns_compared (call_compare_results_function _ _) =>
      apply returns_compared_call_function
  | |- returns_compared (call_compare_results_proc _) =>
      apply returns_compared_call_proc
  | |- returns_compared (raise _) => apply returns_compared_raise
  | |- returns_compared (_ ≫= _) =>
      apply returns_compared_bind; [emits_tac | intros ?]
  | |- returns_compared (if ?b then _ else _) => destruct b eqn:?
  | |- returns_compared (match ?x with _ => _ end) => destruct x eqn:?
  end.

Section RunnerClaims2.
Context {Value IRValue : Type}.
Context `{!ValueOps Value, !PyStr, !Toolchain Value IRValue}.

(** *** The unoptimized IR is always interpreted *)

Lemma starts_bind {A B} (m : Run A) (f : A → Run B) prefix w :
  (∃ evs, log (m w).2 = log w ++ prefix ++ evs) →
  (∀ a, emits (λ _, True) (f a)) →
  ∃ evs, log ((m ≫= f) w).2 = log w ++ prefix ++ evs.
Proof.
  intros (evs & Hlog) Hf. rewrite Run_bind_unfold.
  destruct (m w) as [[e|a] w']; simpl in *; [eauto|].
  destruct (Hf a w') as (evs' & Hlog' & _).
  exists (evs ++ evs'). by rewrite Hlog', Hlog, <- !app_assoc.
Qed.

Lemma in_stage_starts {A} s (body : Run A) prefix w :
  (∃ evs, log (body (add_log (Entered s) w)).2
          = log (add_log (Entered s) w) ++ prefix ++ evs) →
  ∃ evs, log (in_stage s body w).2 = log w ++ (Entered s :: prefix) ++ evs.
Proof.
  intros (evs & Hlog). unfold in_stage.
  destruct (body _) as [[e|a] w']; simpl in *.
  - exists (evs ++ [Failed s e]). rewrite Hlog. by rewrite <- !app_assoc.
  - exists evs. rewrite Hlog. by rewrite <- !app_assoc.
Qed.

Lemma run_command_starts desc args options w :
  args ≠ [] →
  ∃ evs, log (_run_command desc args options w).2
         = log w
           ++ [Ran (args
                    ++ (if (0 <? verbosity)%nat
                        then ["-v=" +:+ str_nat verbosity] else [])
                    ++ ["--logtostderr"])]
           ++ evs.
Proof.
  intros Hargs. unfold _run_command.
  destruct (0 <? verbosity)%nat.
  - destruct (args ++ _) as [|arg0 args'] eqn:Happ.
    { by apply app_eq_nil in Happ as [? _]. }
    rewrite <- Happ, <- app_assoc.
    destruct (subprocess_run _ _) as [stderr_text [e|out]];
      eexists; simpl; by rewrite <- app_assoc.
  - destruct args as [|arg0 args']; [done|].
    destruct (subprocess_run _ _) as [stderr_text [e|out]];
      eexists; simpl; by rewrite <- app_assoc.
Qed.

Lemma evaluate_ir_function_starts ir af use_jit options w :
  ∃ evs, log (_evaluate_ir_function ir af use_jit options w).2
         = log w
           ++ [Entered (EvaluateIr ir use_jit);
               Ran (eval_ir_command ir af use_jit)]
           ++ evs.
Proof.
  unfold _evaluate_ir_function.
  apply (in_stage_starts _ _ [Ran (eval_ir_command ir af use_jit)]).
  apply starts_bind; [|intros; emits_tac].
  by apply run_command_starts.
Qed.

Lemma evaluate_ir_proc_starts ir batch names use_jit options w :
  ∃ evs, log (_evaluate_ir_proc ir batch names use_jit options w).2
         = log w ++ [Entered (EvaluateIr ir use_jit)] ++ evs.
Proof.
  unfold _evaluate_ir_proc. apply (in_stage_starts _ _ []).
  match goal with |- context [?m (add_log _ _)] =>
    assert (Hm : emits (λ _, True) m) by emits_tac end.
  destruct (Hm (add_log (Entered (EvaluateIr ir use_jit)) w)) as (evs & Hlog & _).
  eauto.
Qed.

Ltac jit_side := unfold jit_only_if_asked; intros; by simplify_eq.

Lemma jit_only_function options af args_batch results ir :
  emits (jit_only_if_asked options)
    (_run_function_from_ir options af args_batch results ir).
Proof.
  unfold _run_function_from_ir.
  destruct (use_jit options) eqn:Hjit.
  - apply (emits_impl (λ _, True)); [|emits_tac].
    intros ev _ f _. done.
  - emits_tac_with jit_side.
Qed.
End RunnerClaims2.


Section RunnerClaims3.
Context {Value IRValue : Type}.
Context `{!ValueOps Value, !PyStr, !Toolchain Value IRValue}.

Lemma jit_only_proc options af args_batch names results ir :
  emits (jit_only_if_asked options)
    (_run_proc_from_ir options af args_batch names results ir).
Proof.
  unfold _run_proc_from_ir.
  destruct (use_jit options) eqn:Hjit.
  - apply (emits_impl (λ _, True)); [|emits_tac].
    intros ev _ f _. done.
  - emits_tac_with ltac:(unfold jit_only_if_asked; intros; by simplify_eq).
Qed.

Lemma starts_and_emits {A} (m : Run A) P prefix w :
  (∃ evs, log (m w).2 = log w ++ prefix ++ evs) → emits P m →
  ∃ evs, new_events w (m w).2 = prefix ++ evs ∧ Forall P evs.
Proof.
  intros (evs & Hlog) Hm. destruct (Hm w) as (evs' & Hlog' & HP).
  exists evs. split; [by apply new_events_app|].
  rewrite Hlog in Hlog'. apply app_inv_head in Hlog'. subst evs'.
  by apply Forall_app in HP as [_ ?].
Qed.

Lemma lift_inl_bind {A B} e (f : A → Run B) w :
  (lift (inl e) ≫= f) w = (inl e, w).
Proof. reflexivity. Qed.

Lemma lift_inr_bind {A B} (a : A) (f : A → Run B) w :
  (lift (inr a) ≫= f) w = f a w.
Proof. reflexivity. Qed.

Lemma evaluate_ir_proc_begins ir batch names use_jit options w :
  let r := _evaluate_ir_proc ir batch names use_jit options w in
  match channel_inputs batch names with
  | inr content =>
      ∃ evs, log r.2
             = log w
               ++ [Entered (EvaluateIr ir use_jit);
                   Wrote "channel_inputs.txt" content;
                   Ran (eval_proc_command ir (length (default [] batch))
                          use_jit)]
               ++ evs
  | inl e =>
      r.1 = inl e
      ∧ log r.2
        = log w ++ [Entered (EvaluateIr ir use_jit);
                    Failed (EvaluateIr ir use_jit) e]
  end.
Proof.
  cbv zeta. unfold channel_inputs, _evaluate_ir_proc.
  destruct names as [names|], batch as [batch|];
    try (unfold in_stage; cbn; split; [done | by rewrite <- app_assoc]).
  fold (@empty_channels Value names). unfold in_stage.
  destruct (gather_channels _ names batch) as [e|all_channel_values].
  { rewrite lift_inl_bind. cbn. split; [done | by rewrite <- app_assoc]. }
  rewrite lift_inr_bind. cbv beta.
  destruct (convert_channels all_channel_values) as [e|ir_channel_values].
  { rewrite lift_inl_bind. cbn. split; [done | by rewrite <- app_assoc]. }
  rewrite lift_inr_bind. cbv beta.
  destruct (channel_values_to_string ir_channel_values) as [e|content].
  { rewrite lift_inl_bind. cbn. split; [done | by rewrite <- app_assoc]. }
  rewrite lift_inr_bind. cbv beta.
  apply (in_stage_starts _ _
           [Wrote "channel_inputs.txt" content;
            Ran (eval_proc_command ir (length batch) use_jit)]).
  rewrite Run_bind_unfold. unfold _write_file at 1. cbv beta iota.
  set (w1 := {| files := _; log := _ |}).
  destruct (starts_bind
              (_run_command (evaluating_desc use_jit ir)
                 [EVAL_PROC_MAIN_PATH;
                  "--inputs_for_all_channels=" +:+ "channel_inputs.txt";
                  "--ticks=" +:+ str_nat (length batch);
                  "--backend=" +:+
                    (if use_jit then "serial_jit" else "ir_interpreter"); ir]
                 options)
              (λ results_text,
                 _write_file (ir +:+ ".results") results_text
                 ≫= λ _ : string,
                      lift (parse_channel_values results_text (length batch))
                      ≫= λ ir_channel_values_result,
                           lift
                             (map_exn
                                (λ '(key, values),
                                   match
                                     map_exn
                                       (λ value : IRValue,
                                          interp_value_from_ir_string
                                            (ir_value_to_str value))
                                       values
                                   with
                                   | inl e => inl e
                                   | inr vs => inr (key, vs)
                                   end)
                                ir_channel_values_result))
              [Ran (eval_proc_command ir (length batch) use_jit)] w1)
    as (evs & Hlog).
  - by apply run_command_starts.
  - intros; emits_tac.
  - exists evs. rewrite Hlog. unfold w1. cbn [log add_log].
    by rewrite <- !app_assoc.
Qed.

(** C7: in function mode and in proc mode, once the IR file is in place
    and an args file is present, the pipeline first enters the evaluation
    of the unoptimized IR with the interpreter, whatever [use_jit] is; a
    JIT evaluation is entered only if [use_jit] is set.  In function mode
    the first command of the run is eval_ir_main with --nouse_llvm_jit.
    In proc mode the channel inputs are written and the first command of
    the run is eval_proc_main with --backend=ir_interpreter; when the
    channel inputs cannot be made of the batch and the channel names, it
    is this evaluation with the interpreter that fails, and no command
    was run. *)
Theorem unoptimized_ir_is_interpreted options af args_batch w :
  (∀ results ir, ∃ evs,
      new_events w
        (_run_function_from_ir options (Some af) args_batch results ir w).2
      = Entered (EvaluateIr ir false)
          :: Ran (eval_ir_command ir af false) :: evs
      ∧ ∀ f, Entered (EvaluateIr f true) ∈ evs → use_jit options = true)
  ∧ (∀ names results ir, ∃ evs,
       let r := _run_proc_from_ir options (Some af) args_batch names results
                  ir w in
       new_events w r.2 = Entered (EvaluateIr ir false) :: evs
       ∧ (∀ f, Entered (EvaluateIr f true) ∈ evs → use_jit options = true)
       ∧ match channel_inputs args_batch names with
         | inr content =>
             ∃ evs',
               evs = Wrote "channel_inputs.txt" content
                     :: Ran (eval_proc_command ir
                               (length (default [] args_batch)) false)
                     :: evs'
         | inl e =>
             evs = [Failed (EvaluateIr ir false) e] ∧ r.1 = inl e
         end).
Proof.
  split.
  - intros results ir.
    destruct (starts_and_emits
                (_run_function_from_ir options (Some af) args_batch results ir)
                (jit_only_if_asked options)
                [Entered (EvaluateIr ir false);
                 Ran (eval_ir_command ir af false)] w)
      as (evs & Hevs & HP).
    + unfold _run_function_from_ir.
      apply starts_bind; [|intros; emits_tac].
      apply starts_bind; [|intros; emits_tac].
      apply evaluate_ir_function_starts.
    + apply jit_only_function.
    + exists evs. split; [done|]. intros f Hin.
      rewrite Forall_forall in HP. by apply (HP _ Hin f).
  - intros names results ir.
    destruct (starts_and_emits
                (_run_proc_from_ir options (Some af) args_batch names results ir)
                (jit_only_if_asked options)
                [Entered (EvaluateIr ir false)] w)
      as (evs & Hevs & HP).
    + unfold _run_proc_from_ir.
      apply starts_bind; [|intros; emits_tac].
      apply starts_bind; [|intros; emits_tac].
      apply evaluate_ir_proc_starts.
    + apply jit_only_proc.
    + exists evs. cbv zeta. split; [done|]. split.
      { intros f Hin. rewrite Forall_forall in HP. by apply (HP _ Hin f). }
      pose proof (evaluate_ir_proc_begins ir args_batch names false options w)
        as Hbegin. cbv zeta in Hbegin.
      destruct (channel_inputs args_batch names) as [e|content].
      * destruct Hbegin as (Hout & Hlog).
        assert (Hrun :
          _run_proc_from_ir options (Some af) args_batch names results ir w
          = (inl e, (_evaluate_ir_proc ir args_batch names false options w).2)).
        { unfold _run_proc_from_ir. rewrite !Run_bind_unfold.
          destruct (_evaluate_ir_proc ir args_batch names false options w)
            as [[e'|r] w']; cbn in Hout |- *; by simplify_eq. }
        rewrite Hrun in Hevs |- *. cbn [fst snd] in *.
        rewrite (new_events_app w _ _ Hlog) in Hevs.
        split; [|done]. by injection Hevs as <-.
      * assert (Hstart : ∃ evs1,
          log (_run_proc_from_ir options (Some af) args_batch names results
                 ir w).2
          = log w
            ++ [Entered (EvaluateIr ir false);
                Wrote "channel_inputs.txt" content;
                Ran (eval_proc_command ir (length (default [] args_batch))
                       false)]
            ++ evs1).
        { unfold _run_proc_from_ir.
          apply starts_bind; [|intros; emits_tac].
          apply starts_bind; [|intros; emits_tac].
          exact Hbegin. }
        destruct Hstart as (evs1 & Hlog).
        rewrite (new_events_app w _ _ Hlog) in Hevs.
        exists evs1. by injection Hevs as <-.
Qed.

(** *** [convert_to_ir] only matters for DSLX input *)

Lemma returns_compared_function_from_ir options af args_batch results ir :
  returns_compared (_run_function_from_ir options af args_batch results ir).
Proof. unfold _run_function_from_ir. repeat returns_compared_step. Qed.

Lemma returns_compared_proc_from_ir options af args_batch names results ir :
  returns_compared (_run_proc_from_ir options af args_batch names results ir).
Proof. unfold _run_proc_from_ir. repeat returns_compared_step. Qed.

Lemma returns_compared_run_sample input options af cf pf :
  ¬ (input_is_dslx options = true ∧ convert_to_ir options = false) →
  returns_compared (run_sample input options af cf pf).
Proof.
  intros Hno. unfold run_sample, _run_function, _run_proc.
  destruct (top_type options).
  - apply returns_compared_bind; [emits_tac|intros input_text].
    apply returns_compared_bind; [emits_tac|intros args_batch].
    destruct (input_is_dslx options).
    + apply returns_compared_bind; [emits_tac|intros results].
      destruct (convert_to_ir options); [|by destruct Hno].
      apply returns_compared_bind; [emits_tac|intros ir].
      apply returns_compared_function_from_ir.
    + apply returns_compared_bind; [emits_tac|intros ir].
      apply returns_compared_function_from_ir.
  - apply returns_compared_bind; [emits_tac|intros input_text].
    apply returns_compared_bind; [emits_tac|intros args_batch].
    apply returns_compared_bind; [emits_tac|intros names].
    apply returns_compared_bind; [emits_tac|intros init].
    destruct (input_is_dslx options).
    + apply returns_compared_bind; [emits_tac|intros results].
      destruct (convert_to_ir options); [|by destruct Hno].
      apply returns_compared_bind; [emits_tac|intros ir].
      apply returns_compared_proc_from_ir.
    + apply returns_compared_bind; [emits_tac|intros ir].
      apply returns_compared_proc_from_ir.
Qed.

(** C9: when the input is not DSLX, [convert_to_ir] does not change the
    run: the input text is written as sample.ir and the run goes on with
    the evaluation, optimization, code generation and comparison as
    configured.  A run that returns without having called a comparator
    has [input_is_dslx] set and [convert_to_ir] unset. *)
Theorem convert_to_ir_only_matters_for_dslx input options af cf pf :
  (input_is_dslx options = false →
   ∀ b, run_sample input (with_convert_to_ir b options) af cf pf
        = run_sample input options af cf pf)
  ∧ (input_is_dslx options = false →
     ∀ w text args_batch,
       files w !! input = Some text →
       read_optional parse_args_batch af w = (inr args_batch, w) →
       _run_function input options af w
       = _run_function_from_ir options af args_batch [] "sample.ir"
           (written "sample.ir" text w))
  ∧ (input_is_dslx options = false →
     ∀ w text args_batch names init,
       files w !! input = Some text →
       read_optional parse_args_batch af w = (inr args_batch, w) →
       read_optional parse_ir_channel_names cf w = (inr names, w) →
       read_optional parse_proc_init_values pf w = (inr init, w) →
       _run_proc input options af cf pf w
       = _run_proc_from_ir options af args_batch names [] "sample.ir"
           (written "sample.ir" text w))
  ∧ (∀ w, let r := run_sample input options af cf pf w in
          returned r.1 → ComparedResults ∉ new_events w r.2 →
          input_is_dslx options = true ∧ convert_to_ir options = false).
Proof.
  split; [|split; [|split]].
  - intros Hdslx b. destruct options. simpl in *. subst. reflexivity.
  - intros Hdslx w text args_batch Hinput Hargs.
    unfold _run_function. rewrite Hdslx.
    rewrite Run_bind_unfold. unfold _read_file at 1. rewrite Hinput.
    rewrite Run_bind_unfold, Hargs. reflexivity.
  - intros Hdslx w text args_batch names init Hinput Hargs Hnames Hinit.
    unfold _run_proc. rewrite Hdslx.
    rewrite Run_bind_unfold. unfold _read_file at 1. rewrite Hinput.
    rewrite Run_bind_unfold, Hargs.
    rewrite Run_bind_unfold, Hnames.
    rewrite Run_bind_unfold, Hinit. reflexivity.
  - intros w r Hret Hnot. subst r.
    destruct (input_is_dslx options) eqn:Hdslx,
             (convert_to_ir options) eqn:Hconv; try done; exfalso.
    all: destruct (returns_compared_run_sample input options af cf pf
                     ltac:(rewrite Hdslx, Hconv; by intros [??]) w)
           as (evs & Hlog & Hcmp);
      apply Hnot; rewrite (new_events_app _ _ _ Hlog); by apply Hcmp.
Qed.
End RunnerClaims3.




Section Refused.
Lemma stage_like_ret {A} (a : A) : stage_like (mret a).
Proof.
  intros w. exists []. rewrite app_nil_r. split_and!; try done.
  intros _ s e ?%elem_of_nil. done.
Qed.

Lemma stage_like_in_stage {A} s (body : Run A) :
  s ≠ Simulate → emits quiet body → stage_like (in_stage s body).
Proof.
  intros Hs Hb w. unfold in_stage.
  destruct (Hb (add_log (Entered s) w)) as (evs & Hlog & HP).
  assert (Hq : Forall before_simulation evs).
  { eapply Forall_impl; [done|]. by intros [] ?. }
  rewrite Forall_forall in HP.
  destruct (body _) as [[e|a] w']; simpl in *.
  - exists (Entered s :: evs ++ [Failed s e]). rewrite Hlog.
    split; [by rewrite <- !app_assoc|]. split_and!.
    + constructor; [split; congruence|].
      apply Forall_app. split; [done|]. by constructor.
    + intros e' [= ->]. exists s. set_solver.
    + by intros [? [=]].
  - exists (Entered s :: evs). rewrite Hlog.
    split; [by rewrite <- !app_assoc|]. split_and!.
    + constructor; [split; congruence | done].
    + intros e' [=].
    + intros _ s' e'. rewrite elem_of_cons.
      intros [?|Hin]; [done | by apply HP in Hin].
Qed.

Lemma stage_like_bind {A B} (m : Run A) (f : A → Run B) :
  stage_like m → (∀ a, stage_like (f a)) → stage_like (m ≫= f).
Proof.
  intros Hm Hf w. rewrite Run_bind_unfold.
  destruct (Hm w) as (evs & Hlog & HP & Hfail & Hok).
  destruct (m w) as [[e|a] w']; simpl in *.
  - exists evs. split_and!; try done.
    + intros e' [= <-]. by apply Hfail.
    + by intros [? [=]].
  - destruct (Hf a w') as (evs' & Hlog' & HP' & Hfail' & Hok').
    exists (evs ++ evs'). rewrite Hlog', Hlog, app_assoc.
    split_and!; try done.
    + by apply Forall_app.
    + intros e Hout. destruct (Hfail' e Hout) as [s Hin].
      exists s. apply elem_of_app. by right.
    + intros Hret s e [Hin|Hin]%elem_of_app.
      * by apply (Hok ltac:(by eexists) s e).
      * by apply (Hok' Hret s e).
Qed.

Lemma refused_raise {A} : refused (raise AssertionError : Run A).
Proof.
  intros w. exists AssertionError, []. rewrite app_nil_r.
  split_and!; done.
Qed.

Lemma refused_bind {A B} (m : Run A) (f : A → Run B) :
  stage_like m → (∀ a, refused (f a)) → refused (m ≫= f).
Proof.
  intros Hm Hf w. rewrite Run_bind_unfold.
  destruct (Hm w) as (evs & Hlog & HP & Hfail & Hok).
  destruct (m w) as [[e|a] w']; simpl in *.
  - exists e, evs. split_and!; try done.
    intros Hno. destruct (Hfail e eq_refl) as [s Hin]. by apply Hno in Hin.
  - destruct (Hf a w') as (e & evs' & Hout & Hlog' & HP' & Hassert).
    exists e, (evs ++ evs'). rewrite Hlog', Hlog, app_assoc.
    split_and!; try done; [by apply Forall_app|].
    intros Hno. apply Hassert. intros s e' Hin. apply (Hno s e').
    apply elem_of_app. by right.
Qed.

Lemma refused_bind_l {A B} (m : Run A) (f : A → Run B) :
  refused m → refused (m ≫= f).
Proof.
  intros Hm w. rewrite Run_bind_unfold.
  destruct (Hm w) as (e & evs & Hout & Hlog & HP & Hassert).
  destruct (m w) as [[e0|a] w']; simpl in *; [|done].
  exists e, evs. split_and!; try done. congruence.
Qed.
End Refused.

Section RunnerClaims4.
Context {Value IRValue : Type}.
Context `{!ValueOps Value, !PyStr, !Toolchain Value IRValue}.

Lemma stage_like_write_file f c : stage_like (_write_file f c).
Proof.
  intros w. exists [Wrote f c]. split_and!; try done.
  - constructor; [by split | done].
  - intros _ s e Hin. by apply list_elem_of_singleton in Hin.
Qed.

Lemma refused_function_from_ir options args_batch results ir :
  optimize_ir options = true → codegen options = true →
  simulate options = true →
  refused (_run_function_from_ir options None args_batch results ir).
Proof.
  intros Hopt Hcg Hsim. unfold _run_function_from_ir.
  rewrite Hopt, Hcg, Hsim.
  apply refused_bind; [apply stage_like_ret|intros ?].
  apply refused_bind_l.
  apply refused_bind;
    [apply stage_like_in_stage; [done|emits_tac]|intros ?].
  apply refused_bind; [apply stage_like_ret|intros ?].
  apply refused_bind;
    [apply stage_like_in_stage; [done|emits_tac]|intros ?].
  apply refused_raise.
Qed.

Lemma refused_function_after_read input options input_text :
  optimize_ir options = true → codegen options = true →
  simulate options = true →
  input_is_dslx options = false ∨ convert_to_ir options = true →
  refused
    (args_batch ← read_optional parse_args_batch None;
     let results : odict (list Value) := [] in
     if input_is_dslx options then
       results ←
         (if truthy_list args_batch then
            r ← _interpret_dslx_function input_text "main"
                  (default [] args_batch);
            mret (odict_set results "interpreted DSLX" r)
          else mret results);
       if negb (convert_to_ir options) then mret ()
       else
         ir_filename ← _dslx_to_ir_function input options;
         _run_function_from_ir options None args_batch results ir_filename
     else
       ir_filename ← _write_file "sample.ir" input_text;
       _run_function_from_ir options None args_batch results ir_filename).
Proof.
  intros Hopt Hcg Hsim Hreach.
  change (read_optional parse_args_batch None) with
    (mret None : Run (option (list (list Value)))).
  apply refused_bind; [apply stage_like_ret|intros args_batch].
  destruct (input_is_dslx options).
  - destruct Hreach as [?|Hconv]; [done|]. rewrite Hconv.
    apply refused_bind.
    { destruct (truthy_list args_batch); [|apply stage_like_ret].
      apply stage_like_bind; [|intros; apply stage_like_ret].
      apply stage_like_in_stage; [done|emits_tac]. }
    intros results. simpl.
    apply refused_bind;
      [apply stage_like_in_stage; [done|emits_tac]|intros ?].
    by apply refused_function_from_ir.
  - apply refused_bind; [apply stage_like_write_file|intros ?].
    by apply refused_function_from_ir.
Qed.
End RunnerClaims4.


Section RunnerClaims5.
Context {Value IRValue : Type}.
Context `{!ValueOps Value, !PyStr, !Toolchain Value IRValue}.

Lemma on_exception_eq e w :
  on_exception e w
  = (inl (SampleError (exn_message e) (is_TimeoutExpired e)),
     written "exception.txt" (exn_message e) w).
Proof. reflexivity. Qed.

(** C10 (amended): in function mode with [optimize_ir], [codegen] and
    [simulate] set and no args file, a run that is not ended early (the
    input is not DSLX, or [convert_to_ir] is set) never completes: it
    ends in a SampleError, without entering the simulation stage or a
    comparator.  When the input file can be read and no stage fails, that
    error is the failed assertion on the args file: its message is empty
    and is_timeout is false. *)
Theorem simulation_without_args_is_refused
    input json cf pf w text options :
  files w !! json = Some text →
  options_from_json text = inr options →
  top_type options = TopType_function →
  optimize_ir options = true → codegen options = true →
  simulate options = true →
  input_is_dslx options = false ∨ convert_to_ir options = true →
  let r := run_from_files input json None cf pf w in
  (∃ msg t, r.1 = inl (SampleError msg t))
  ∧ (Entered Simulate ∉ new_events w r.2)
  ∧ (ComparedResults ∉ new_events w r.2)
  ∧ (is_Some (files w !! input) →
     (∀ s e, Failed s e ∉ new_events w r.2) →
     r.1 = inl (SampleError EmptyString false)).
Proof.
  intros Hjson Hoptions Htop Hopt Hcg Hsim Hreach r.
  assert (Hrun : ∃ e evs w',
            run_from_files input json None cf pf w
            = (inl (SampleError (exn_message e) (is_TimeoutExpired e)), w')
            ∧ log w' = log w ++ Wrote "revision.txt" get_revision
                               :: evs ++ [Wrote "exception.txt" (exn_message e)]
            ∧ Forall before_simulation evs
            ∧ (is_Some (files w !! input) →
               (∀ s e', Failed s e' ∉ evs) → e = AssertionError)).
  { rewrite run_from_files_eq, Hjson, Hoptions.
    set (w1 := written "revision.txt" get_revision w).
    unfold try_except, run_sample. rewrite Htop.
    unfold _run_function. rewrite Run_bind_unfold. unfold _read_file at 1.
    destruct (files w1 !! input) as [input_text|] eqn:Hinput.
    - destruct (refused_function_after_read input options input_text
                  Hopt Hcg Hsim Hreach w1)
        as (e & evs & Hout & Hlog & HP & Hassert).
      match goal with |- context [let (_, _) := ?m w1 in _] =>
        destruct (m w1) as [r0 w2] end.
      simpl in Hout, Hlog. subst r0. rewrite on_exception_eq.
      exists e, evs. eexists. split; [reflexivity|].
      split; [simpl; rewrite Hlog; simpl; by rewrite <- !app_assoc|].
      split; [done|]. intros _. done.
    - rewrite on_exception_eq.
      exists (ForeignError (missing_file_text input) None), []. eexists.
      split; [reflexivity|].
      split; [simpl; by rewrite <- !app_assoc|].
      split; [done|]. intros [c Hc]. exfalso.
      unfold w1, written in Hinput. simpl in Hinput.
      apply lookup_insert_None in Hinput. destruct Hinput. congruence. }
  destruct Hrun as (e & evs & w' & Hrun & Hlog & HP & Hassert).
  subst r. rewrite Hrun. simpl.
  rewrite (new_events_app w w' _ Hlog).
  rewrite Forall_forall in HP. split_and!.
  - eauto.
  - rewrite elem_of_cons, elem_of_app, list_elem_of_singleton.
    intros [?|[Hin|?]]; try done. by destruct (HP _ Hin).
  - rewrite elem_of_cons, elem_of_app, list_elem_of_singleton.
    intros [?|[Hin|?]]; try done. by destruct (HP _ Hin).
  - intros Hsome Hno. rewrite Hassert; [done|done|].
    intros s e' Hin. apply (Hno s e').
    apply elem_of_cons. right. apply elem_of_app. by left.
Qed.
End RunnerClaims5.

(** ** The theorems at concrete inputs *)

Lemma elem_of_unpack {A} `{EqDecision A} (x : A) (l : list A) :
  bool_decide (x ∈ l) = true → x ∈ l.
Proof. apply bool_decide_eq_true_1. Qed.

Lemma results_short_last_wf : odict_wf results_short_last.
Proof. apply (bool_decide_unpack _). by vm_compute. Qed.

Lemma length_mismatch_reported_witness :
  outcome (_compare_results_function results_short_last None)
  = inl (SampleError "Results for a has 2 values, c has 1" false)
  ∧ Forall (λ c, ¬ involves "c" c)
      (comparisons (_compare_results_function results_short_last None)).
Proof.
  apply (length_mismatch_reported results_short_last None "a" ["b"] "c" []
           [u8 5; u8 6] [u8 5]).
  - exact results_short_last_wf.
  - vm_compute. reflexivity.
  - exact I.
  - reflexivity.
  - reflexivity.
  - intros n Hn. apply list_elem_of_singleton in Hn. subst n.
    exists [s8 5; s8 6]. split; [reflexivity|].
    repeat constructor.
  - simpl. lia.
Defined.

(** C3: a candidate whose length differs from the reference's is not
    reported when something else fails first.  With a batch of one
    argument vector the assertion on the first inserted stage fails
    before [a] and [b] are compared; and when [a] and [b] differ at an
    index that the shorter stage [c] does not have, the comparator ends in
    an [IndexError] before it comes to [c]. *)
Lemma length_mismatch_preempted :
  (sorted (keys results_long_first) = ["a"; "b"]
   ∧ odict_get results_long_first "a" = Some [u8 5; u8 5]
   ∧ odict_get results_long_first "b" = Some [u8 5]
   ∧ outcome (_compare_results_function results_long_first
                (Some batch_of_one))
     = inl AssertionError)
  ∧ (sorted (keys results_short_third) = ["a"; "b"; "c"]
     ∧ odict_get results_short_third "a" = Some [u8 5; u8 5]
     ∧ odict_get results_short_third "c" = Some [u8 5]
     ∧ outcome (_compare_results_function results_short_third None)
       = inl (IndexError "tuple index out of range")).
Proof. by vm_compute. Qed.

Lemma assertion_inspects_first_inserted_witness :
  outcome (_compare_results_function results_long_first (Some batch_of_one))
  = inl AssertionError
  ∧ comparisons (_compare_results_function results_long_first (Some batch_of_one))
    = []
  ∧ outcome (_compare_results_function results_short_first (Some batch_of_one))
    ≠ inl AssertionError.
Proof.
  destruct (assertion_inspects_first_inserted "a" [u8 5; u8 5]
              [("b", [u8 5])] batch_of_one) as (Hiff & Hnone & _).
  destruct (assertion_inspects_first_inserted "b" [u8 5]
              [("a", [u8 5; u8 5])] batch_of_one) as (Hiff' & _ & _).
  assert (Hfails : outcome (_compare_results_function results_long_first
                              (Some batch_of_one)) = inl AssertionError).
  { apply Hiff. split; [discriminate | simpl; lia]. }
  split; [exact Hfails|]. split; [exact (Hnone Hfails)|].
  intros Hout. apply Hiff' in Hout as [_ Hlen]. simpl in Hlen. lia.
Defined.

Lemma assertion_skips_later_stages :
  results_short_first ≠ []
  ∧ (∃ n v, (n, v) ∈ results_short_first ∧ length v ≠ length batch_of_one)
  ∧ outcome (_compare_results_function results_short_first (Some batch_of_one))
    = inl (SampleError "Results for a has 2 values, b has 1" false)
  ∧ outcome (_compare_results_function results_short_first (Some batch_of_one))
    ≠ inl AssertionError.
Proof.
  split; [discriminate|]. split.
  - exists "a", [u8 5; u8 5]. split; [right; left | simpl; lia].
  - split; [by vm_compute | by vm_compute].
Qed.

Lemma insertion_order_changes_outcome :
  odict_wf results_long_first
  ∧ results_long_first ≡ₚ results_short_first
  ∧ outcome (_compare_results_function results_long_first (Some batch_of_one))
    = inl AssertionError
  ∧ outcome (_compare_results_function results_short_first (Some batch_of_one))
    = inl (SampleError "Results for a has 2 values, b has 1" false)
  ∧ outcome (_compare_results_function results_long_first (Some batch_of_one))
    ≠ outcome (_compare_results_function results_short_first (Some batch_of_one)).
Proof.
  split; [apply (bool_decide_unpack _); by vm_compute|].
  split; [apply perm_swap|].
  split; [by vm_compute|]. split; [by vm_compute|]. by vm_compute.
Qed.

Lemma reference_is_least_and_order_is_immaterial_witness :
  outcome (_compare_results_function results_long_first None)
  = outcome (_compare_results_function results_short_first None).
Proof.
  destruct (reference_is_least_and_order_is_immaterial (Value:=SpecValue))
    as (_ & _ & _ & _ & Hnone).
  apply Hnone.
  - apply (bool_decide_unpack _). by vm_compute.
  - apply perm_swap.
  - reflexivity.
Defined.

(** C2: stages [a] and [b] first differ at index 1, and a third stage
    [c] holds one value only.  Instead of the miscompare report, the
    comparator ends in the IndexError raised by reading [c] at index 1. *)
Theorem miscompare_with_short_stage_raises_IndexError :
  outcome (_compare_results_function results_short_third None)
  = inl (IndexError "tuple index out of range").
Proof. by vm_compute. Qed.

Lemma missing_channel_reported_witness :
  "out" ∈ keys [("in", [s8 1]); ("out", [u8 2])]
  ∧ outcome (_compare_results_proc results_missing_channel)
    = inl (SampleError
             "A channel named out is present in a, but it is not present in b."
             false).
Proof.
  apply (missing_channel_reported results_missing_channel "a" [] "b" []
           [("in", [s8 1]); ("out", [u8 2])]
           [("in", [u8 1]); ("extra", [u8 2])]
           [("in", [s8 1])] "out" [u8 2] []).
  - vm_compute. reflexivity.
  - reflexivity.
  - reflexivity.
  - intros n Hn. by apply elem_of_nil in Hn.
  - reflexivity.
  - reflexivity.
  - intros _ item Hitem. apply list_elem_of_singleton in Hitem. subst item.
    exists [u8 1]. split; [reflexivity|]. repeat constructor.
Defined.

(** C5: the candidate [b] lacks the channel [out] of the reference
    [a], and has as many channels; but the two differ on the channel [in],
    which is compared first, and the error raised is the one about [in]:
    the missing channel is not named. *)
Lemma missing_channel_preempted :
  sorted (keys results_mismatch_then_missing) = ["a"; "b"]
  ∧ odict_get results_mismatch_then_missing "a"
    = Some [("in", [u8 1]); ("out", [u8 2])]
  ∧ (∃ channels,
       odict_get results_mismatch_then_missing "b" = Some channels
       ∧ odict_get channels "out" = None)
  ∧ outcome (_compare_results_proc results_mismatch_then_missing)
    = inl (SampleError
             ("In a, at position 0 channel 'in' has value bits[8]:0x1. "
              +:+ "However, in b, the value is bits[8]:0x9.")
             false)
  ∧ outcome (_compare_results_proc results_mismatch_then_missing)
    ≠ inl (SampleError (missing_channel_msg "out" "a" "b") false).
Proof.
  split; [by vm_compute|]. split; [by vm_compute|]. split.
  - exists [("in", [u8 9]); ("extra", [u8 2])]. by vm_compute.
  - split; by vm_compute.
Qed.

Lemma stage_failure_policy_witness :
  Failed OptimizeIr (TimeoutExpired "timed out")
    ∈ new_events demo_world run_with_timeout.2
  ∧ run_with_timeout.1 = inl (SampleError "timed out" true)
  ∧ files run_with_timeout.2 !! "exception.txt" = Some "timed out".
Proof.
  assert (Hin : Failed OptimizeIr (TimeoutExpired "timed out")
                  ∈ new_events demo_world run_with_timeout.2).
  { apply elem_of_unpack. vm_compute. reflexivity. }
  split; [exact Hin|].
  destruct (@stage_failure_policy _ _ _ _
              (demo_toolchain (demo_options true true true)
                 (tool_timing_out "xls/tools/opt_main"))
              "sample.x" "options.json" (Some "args.txt") None None
              demo_world OptimizeIr (TimeoutExpired "timed out") Hin)
    as (Hout & _ & Hfile & _).
  split; [exact Hout | exact Hfile].
Defined.

Lemma unoptimized_ir_is_interpreted_witness :
  ∃ evs,
    new_events demo_proc_world
      (_run_proc_from_ir
         (Toolchain0 := demo_tools (demo_proc_options false))
         (with_use_jit true (demo_proc_options false)) (Some "args.txt")
         (Some [[u8 1]]) (Some ["ch"]) [] "sample.ir" demo_proc_world).2
    = Entered (EvaluateIr "sample.ir" false)
        :: Wrote "channel_inputs.txt" EmptyString
        :: Ran ["xls/tools/eval_proc_main";
                "--inputs_for_all_channels=channel_inputs.txt";
                "--ticks=1"; "--backend=ir_interpreter"; "sample.ir";
                "--logtostderr"]
        :: evs.
Proof.
  destruct (proj2 (unoptimized_ir_is_interpreted
                     (Toolchain0 := demo_tools (demo_proc_options false))
                     (with_use_jit true (demo_proc_options false)) "args.txt"
                     (Some [[u8 1]]) demo_proc_world)
              (Some ["ch"]) [] "sample.ir")
    as (evs & Hevs & _ & Hcommand).
  vm_compute in Hcommand. destruct Hcommand as (evs' & ->).
  exists evs'. exact Hevs.
Defined.

Lemma convert_to_ir_only_matters_for_dslx_witness :
  @_run_function _ _ _ _
    (demo_toolchain (demo_options false false true) tool_ok)
    "sample.ir" (demo_options false false true) (Some "args.txt") demo_world
  = @_run_function_from_ir _ _ _ _
      (demo_toolchain (demo_options false false true) tool_ok)
      (demo_options false false true) (Some "args.txt")
      (Some [[demo_value "a"]]) [] "sample.ir"
      (written "sample.ir" "package p" demo_world).
Proof.
  destruct (@convert_to_ir_only_matters_for_dslx _ _ _ _
              (demo_toolchain (demo_options false false true) tool_ok)
              "sample.ir" (demo_options false false true)
              (Some "args.txt") None None) as (_ & Hproceeds & _).
  apply Hproceeds.
  - reflexivity.
  - vm_compute. reflexivity.
  - vm_compute. reflexivity.
Defined.

Lemma simulation_without_args_is_refused_witness :
  run_without_args.1 = inl (SampleError EmptyString false)
  ∧ Entered Simulate ∉ new_events demo_world run_without_args.2.
Proof.
  destruct (@simulation_without_args_is_refused _ _ _ _
              (demo_toolchain (demo_options true true false) tool_ok)
              "sample.x" "options.json" None None demo_world "{}"
              (demo_options true true false))
    as (_ & Hsim & _ & Hassert).
  - vm_compute. reflexivity.
  - reflexivity.
  - reflexivity.
  - reflexivity.
  - reflexivity.
  - reflexivity.
  - right. reflexivity.
  - split; [|exact Hsim]. apply Hassert.
    + exists "fn main". vm_compute. reflexivity.
    + intros s e Hin. vm_compute in Hin.
      repeat (apply elem_of_cons in Hin as [Hin|Hin]; [discriminate Hin|]).
      by apply elem_of_nil in Hin.
Defined.

Lemma unconverted_dslx_run_completes :
  optimize_ir (demo_options true false false) = true
  ∧ codegen (demo_options true false false) = true
  ∧ simulate (demo_options true false false) = true
  ∧ run_without_conversion.1 = inr ()
  ∧ new_events demo_world run_without_conversion.2
    = [Wrote "revision.txt" "r0"].
Proof. repeat split; by vm_compute. Qed.

(** * Further properties of the runner *)

(** ** When the comparators return *)

Section CmpInversion.
Lemma outcome_for_each_inv {A} (body : A → Cmp unit) l :
  outcome (for_each l body) = inr () →
  ∀ x, x ∈ l → outcome (body x) = inr ().
Proof.
  induction l as [|y l IH]; [by intros _ x ?%elem_of_nil|].
  rewrite for_each_cons, outcome_bind.
  destruct (outcome (body y)) as [e|[]] eqn:Hy; [done|].
  intros Hl x [->|Hx]%elem_of_cons; [done | by apply IH].
Qed.

Lemma outcome_for_range_from_inv body n : ∀ i,
  outcome (for_range_from i n body) = inr () →
  ∀ j, i ≤ j < i + n → outcome (body j) = inr ().
Proof.
  induction n as [|n IH]; intros i; [intros _ j ?; lia|].
  rewrite for_range_from_S, outcome_bind.
  destruct (outcome (body i)) as [e|[]] eqn:Hi; [done|].
  intros Hn j Hj. destruct (decide (j = i)) as [->|Hne]; [done|].
  apply (IH (S i)); [done | lia].
Qed.

Lemma sorted_nonempty {V} (d : odict V) reference rest :
  sorted (keys d) = reference :: rest → d ≠ [].
Proof.
  intros Hs ->. pose proof (sorted_Permutation (keys (@nil (string * V)))) as Hp.
  rewrite Hs in Hp. by apply Permutation_nil_r in Hp.
Qed.

Lemma sorted_keys_elem_of {V} (d : odict V) reference rest n :
  sorted (keys d) = reference :: rest → n ∈ reference :: rest → n ∈ keys d.
Proof. intros Hs Hn. apply sorted_elem_of. by rewrite Hs. Qed.
End CmpInversion.

Section FunctionModeReturns.
Context {Value : Type} `{!ValueOps Value}.
Implicit Types (results : odict (list Value))
  (args : option (list (list Value))).

Lemma compare_index_inv results args reference name vref v i a b :
  odict_get results reference = Some vref →
  vref !! i = Some a → v !! i = Some b →
  outcome (compare_index results args reference name v i) = inr () →
  values_equal a b = true.
Proof.
  intros Hget Ha Hb. unfold compare_index.
  rewrite (getitem_Some _ _ _ Hget), Cmp_ret_bind.
  rewrite (tuple_index_Some _ _ _ Ha), Cmp_ret_bind.
  rewrite (tuple_index_Some _ _ _ Hb), Cmp_ret_bind.
  rewrite values_equal_at_bind.
  destruct (values_equal a b); [done|]. unfold outcome at 1. cbn [snd].
  rewrite outcome_bind. destruct (outcome (matching_stages _ _ _ _)); [done|].
  rewrite outcome_bind. destruct (outcome (matching_stages _ _ _ _)); [done|].
  rewrite outcome_bind. by destruct (outcome (args_text _ _)).
Qed.

Lemma compare_stage_inv results args reference name vref v :
  odict_get results reference = Some vref →
  outcome (compare_stage results args reference name v) = inr () →
  agrees vref v.
Proof.
  intros Hget. unfold compare_stage.
  rewrite (getitem_Some _ _ _ Hget), Cmp_ret_bind.
  destruct (length vref =? length v)%nat eqn:Hlen; [|done].
  apply Nat.eqb_eq in Hlen. simpl. unfold for_range. intros Hloop.
  apply Forall2_same_length_lookup_2; [done|].
  intros i a b Ha Hb.
  eapply compare_index_inv; eauto.
  apply (outcome_for_range_from_inv _ _ 0 Hloop).
  apply lookup_lt_Some in Hb. lia.
Qed.

#[global] Instance assertion_holds_dec results args :
  Decision (assertion_holds results args).
Proof.
  unfold assertion_holds.
  destruct results as [|[??]?], args as [[|??]|]; apply _.
Defined.

Lemma assert_batch_length_outcome results args :
  results ≠ [] →
  outcome (assert_batch_length (first_inserted results) args)
  = if decide (assertion_holds results args) then inr ()
    else inl AssertionError.
Proof.
  destruct results as [|[n0 first] rest]; [done|]. intros _.
  unfold assertion_holds. simpl.
  destruct args as [[|row batch]|]; try done.
  rewrite assert_batch_length_Some.
  destruct (Nat.eqb_spec (length first) (length (row :: batch))) as [Heq|Hne].
  - by rewrite decide_True.
  - by rewrite decide_False.
Qed.

(** The comparator on a non-empty mapping, as a loop over the
    candidates. *)
Lemma compare_results_function_loop results args reference rest :
  sorted (keys results) = reference :: rest →
  odict_get results reference = Some (default [] (odict_get results reference)) ∧
  _compare_results_function results args
  = (assert_batch_length (first_inserted results) args;;
     for_each rest
       (λ name, values ← getitem results name;
                compare_stage results args reference name values)).
Proof.
  intros Hs.
  assert (Href : is_Some (odict_get results reference)).
  { apply odict_get_is_Some. apply (sorted_keys_elem_of _ _ _ _ Hs). left. }
  destruct Href as [vref Href]. split; [by rewrite Href|].
  rewrite compare_results_function_eq.
  pose proof (sorted_nonempty _ _ _ Hs).
  destruct results as [|nv results]; [done|]. rewrite Hs.
  by rewrite (compare_loop_first _ _ _ _ _ Href), compare_loop_for_each.
Qed.

Lemma compare_results_function_inv results args reference rest vref :
  sorted (keys results) = reference :: rest →
  odict_get results reference = Some vref →
  outcome (_compare_results_function results args) = inr () →
  assertion_holds results args
  ∧ ∀ n, n ∈ rest → stage_agrees results vref n.
Proof.
  intros Hs Href.
  destruct (compare_results_function_loop results args _ _ Hs) as [_ ->].
  pose proof (sorted_nonempty _ _ _ Hs) as Hne.
  rewrite outcome_bind, (assert_batch_length_outcome _ _ Hne).
  destruct (decide (assertion_holds results args)) as [Hassert|]; [|done].
  intros Hloop. split; [done|]. intros n Hn.
  pose proof (outcome_for_each_inv _ _ Hloop n Hn) as Hstage.
  cbv beta in Hstage.
  destruct (odict_get_is_Some results n) as [v Hv].
  { apply (sorted_keys_elem_of _ _ _ _ Hs). by right. }
  rewrite (getitem_Some _ _ _ Hv), Cmp_ret_bind in Hstage.
  exists v. split; [done|]. by eapply compare_stage_inv.
Qed.

(** X1: the function-mode comparator returns exactly when the assertion on
    the batch length holds and every other stage agrees with the
    reference: the same number of values, pairwise equal. *)
Theorem function_comparison_returns_iff results args reference rest vref :
  sorted (keys results) = reference :: rest →
  odict_get results reference = Some vref →
  outcome (_compare_results_function results args) = inr ()
  ↔ assertion_holds results args
    ∧ ∀ n, n ∈ rest → stage_agrees results vref n.
Proof.
  intros Hs Href. split; [by apply (compare_results_function_inv _ _ reference)|].
  destruct (compare_results_function_loop results args _ _ Hs) as [_ ->].
  pose proof (sorted_nonempty _ _ _ Hs) as Hne.
  rewrite outcome_bind, (assert_batch_length_outcome _ _ Hne).
  intros [Hassert Hag]. rewrite decide_True by done.
  apply outcome_for_each_ok. intros n Hn.
  destruct (Hag n Hn) as (v & Hv & Hagv).
  rewrite (getitem_Some _ _ _ Hv), Cmp_ret_bind.
  by rewrite (compare_stage_agrees _ _ _ _ _ _ Href Hagv).
Qed.

(** X2: when the function-mode comparator returns, it has compared every
    other stage with the reference and with nothing else: one call of
    [values_equal] per stage and index, in the order of the sorted stage
    names. *)
Theorem successful_comparison_is_against_reference
    results args reference rest vref :
  sorted (keys results) = reference :: rest →
  odict_get results reference = Some vref →
  outcome (_compare_results_function results args) = inr () →
  comparisons (_compare_results_function results args)
  = concat (agreeing_comparisons reference (length vref) <$> rest)
  ∧ length (comparisons (_compare_results_function results args))
    = length rest * length vref.
Proof.
  intros Hs Href Hret.
  destruct (compare_results_function_inv _ _ _ _ _ Hs Href Hret)
    as [Hassert Hag].
  assert (Heq : comparisons (_compare_results_function results args)
                = concat (agreeing_comparisons reference (length vref) <$> rest)).
  { rewrite compare_results_function_eq.
    pose proof (sorted_nonempty _ _ _ Hs) as Hne.
    destruct results as [|[n0 first] results'] eqn:Hres; [done|].
    rewrite <- Hres in *.
    replace (first_inserted results) with first by (by rewrite Hres).
    rewrite (assert_batch_length_holds n0 first results') by (by rewrite <- Hres).
    rewrite Cmp_ret_bind, Hs, (compare_loop_first _ _ _ _ _ Href).
    rewrite <- (app_nil_r rest) at 1.
    rewrite (compare_loop_agreeing _ _ _ _ _ _ Href Hag).
    unfold comparisons at 1. simpl. by rewrite app_nil_r. }
  split; [done|]. rewrite Heq.
  clear. induction rest as [|n rest IH]; [done|].
  rewrite fmap_cons. cbn [concat]. rewrite length_app, IH.
  unfold agreeing_comparisons. rewrite length_fmap, length_seq.
  cbn [length]. lia.
Qed.
End FunctionModeReturns.

Section ProcModeReturns.
Context {Value : Type} `{!ValueOps Value, !PyStr}.
Implicit Types (results : odict (odict (list Value))).

Lemma compare_channel_index_inv reference name channel
    (vref v : list Value) i a b :
  vref !! i = Some a → v !! i = Some b →
  outcome (compare_channel_index reference name channel vref v i) = inr () →
  values_equal a b = true.
Proof.
  intros Ha Hb. unfold compare_channel_index.
  rewrite (list_index_Some _ _ _ Ha), Cmp_ret_bind.
  rewrite (list_index_Some _ _ _ Hb), Cmp_ret_bind.
  rewrite values_equal_at_bind. by destruct (values_equal a b).
Qed.

Lemma compare_channel_inv reference name channels item :
  outcome (compare_channel reference name channels item) = inr () →
  channel_agrees channels item.
Proof.
  destruct item as [c vref]. unfold compare_channel, channel_agrees. simpl.
  destruct (odict_get channels c) as [v|]; [|done].
  destruct (length vref =? length v)%nat eqn:Hlen; [|done].
  apply Nat.eqb_eq in Hlen. simpl. intros Hloop.
  exists v. split; [done|].
  apply Forall2_same_length_lookup_2; [done|].
  intros i a b Ha Hb.
  eapply compare_channel_index_inv; eauto.
  apply (outcome_for_range_from_inv _ _ 0 Hloop).
  apply lookup_lt_Some in Hb. lia.
Qed.

Lemma compare_stage_proc_inv results reference ref_channels n :
  n ∈ keys results →
  outcome (compare_stage_proc results reference ref_channels n) = inr () →
  stage_agrees_proc results ref_channels n.
Proof.
  intros Hn. destruct (odict_get_is_Some results n Hn) as [channels Hget].
  unfold compare_stage_proc.
  rewrite (getitem_Some _ _ _ Hget), Cmp_ret_bind.
  destruct (length ref_channels =? length channels)%nat eqn:Hlen; [|done].
  apply Nat.eqb_eq in Hlen. simpl. intros Hloop.
  exists channels. split; [done|]. split; [done|].
  intros item Hitem. apply (compare_channel_inv reference n).
  by apply (outcome_for_each_inv _ _ Hloop).
Qed.

(** X3: the proc-mode comparator returns exactly when every other stage
    agrees with the reference: as many channels, and on each channel of
    the reference a sequence of the same length with pairwise equal
    values. *)
Theorem proc_comparison_returns_iff results reference rest ref_channels :
  sorted (keys results) = reference :: rest →
  odict_get results reference = Some ref_channels →
  outcome (_compare_results_proc results) = inr ()
  ↔ ∀ n, n ∈ rest → stage_agrees_proc results ref_channels n.
Proof.
  intros Hs Href. rewrite (compare_results_proc_eq _ _ _ _ Hs Href). split.
  - intros Hloop n Hn. apply (compare_stage_proc_inv _ reference).
    + apply (sorted_keys_elem_of _ _ _ _ Hs). by right.
    + by apply (outcome_for_each_inv _ _ Hloop).
  - intros Hag. apply outcome_for_each_ok. intros n Hn.
    by apply compare_stage_proc_agrees, Hag.
Qed.
End ProcModeReturns.

(** ** What the comparators raise *)

Section RaisesOnly.
Context (P : exn → Prop).

Lemma raises_only_ret {A} (a : A) : raises_only P (mret a : Cmp A).
Proof. by intros e. Qed.

Lemma raises_only_raise {A} e : P e → raises_only P (raise e : Cmp A).
Proof. intros HP e' [= <-]. done. Qed.

Lemma raises_only_bind {A B} (m : Cmp A) (f : A → Cmp B) :
  raises_only P m → (∀ a, outcome m = inr a → raises_only P (f a)) →
  raises_only P (m ≫= f).
Proof.
  intros Hm Hf e. rewrite outcome_bind.
  destruct (outcome m) as [e'|a] eqn:Hout.
  - intros [= <-]. by apply Hm.
  - by apply Hf.
Qed.

Lemma raises_only_getitem {V} (d : odict V) k :
  k ∈ keys d → raises_only P (getitem d k).
Proof.
  intros Hk. destruct (odict_get_is_Some d k Hk) as [v Hv].
  rewrite (getitem_Some _ _ _ Hv). apply raises_only_ret.
Qed.

Lemma raises_only_tuple_index {A} (t : list A) i :
  i < length t → raises_only P (tuple_index t i).
Proof.
  intros Hi. destruct (lookup_lt_is_Some_2 t i Hi) as [x Hx].
  rewrite (tuple_index_Some _ _ _ Hx). apply raises_only_ret.
Qed.

Lemma raises_only_list_index {A} (t : list A) i :
  i < length t → raises_only P (list_index t i).
Proof.
  intros Hi. destruct (lookup_lt_is_Some_2 t i Hi) as [x Hx].
  rewrite (list_index_Some _ _ _ Hx). apply raises_only_ret.
Qed.

Lemma raises_only_for_range_from body n : ∀ i,
  (∀ j, i ≤ j < i + n → raises_only P (body j)) →
  raises_only P (for_range_from i n body).
Proof.
  induction n as [|n IH]; intros i Hb; [apply raises_only_ret|].
  rewrite for_range_from_S. apply raises_only_bind; [apply Hb; lia|].
  intros _ _. apply IH. intros j Hj. apply Hb. lia.
Qed.

Lemma raises_only_for_each {A} (body : A → Cmp unit) l :
  (∀ x, x ∈ l → raises_only P (body x)) → raises_only P (for_each l body).
Proof.
  induction l as [|x l IH]; intros Hb; [apply raises_only_ret|].
  rewrite for_each_cons. apply raises_only_bind; [apply Hb; left|].
  intros _ _. apply IH. intros y Hy. apply Hb. by right.
Qed.
End RaisesOnly.

Section FunctionModeRaises.
Context {Value : Type} `{!ValueOps Value}.
Implicit Types (results : odict (list Value))
  (args : option (list (list Value))).

Lemma getitem_outcome_elem_of {V} (d : odict V) k v :
  outcome (getitem d k) = inr v → (k, v) ∈ d.
Proof.
  unfold getitem. destruct (odict_get d k) as [v'|] eqn:Hget; [|done].
  intros [= <-]. by apply odict_get_Some_elem_of.
Qed.

Lemma tuple_index_outcome {A} (t : list A) i x :
  outcome (tuple_index t i) = inr x → t !! i = Some x.
Proof. unfold tuple_index. destruct (t !! i); [by intros [= ->] | done]. Qed.

Lemma raises_only_values_equal_at P l r ch i (a b : Value) :
  raises_only P (values_equal_at l r ch i a b).
Proof. by intros e. Qed.

Lemma raises_only_matching_stages (P : exn → Prop) results i who x :
  (¬ all_have_index results i → P (IndexError "tuple index out of range")) →
  raises_only P (matching_stages results i who x).
Proof.
  intros HP e. rewrite matching_stages_outcome.
  destruct (decide (all_have_index results i)); [done|].
  intros [= <-]. by apply HP.
Qed.

Lemma matching_stages_all_have_index results i who x l :
  outcome (matching_stages results i who x) = inr l →
  all_have_index results i.
Proof.
  rewrite matching_stages_outcome.
  by destruct (decide (all_have_index results i)).
Qed.

(** The loop of the function-mode comparator raises a [SampleError], or
    an [IndexError] when two stages differ in length. *)
Lemma raises_only_compare_loop (P : exn → Prop) results args names :
  (∀ msg, P (SampleError msg false)) →
  (¬ equal_lengths results → P (IndexError "tuple index out of range")) →
  results ≠ [] → assertion_holds results args →
  (∀ n, n ∈ names → n ∈ keys results) →
  ∀ reference,
    (∀ r, reference = Some r → r ∈ keys results) →
    raises_only P (compare_loop results args names reference).
Proof.
  intros HS HI Hne Hassert.
  induction names as [|name names IH]; intros Hnames reference Href;
    [apply raises_only_ret|].
  rewrite compare_loop_unfold.
  apply raises_only_bind; [apply raises_only_getitem, Hnames; left|].
  intros values Hvalues%getitem_outcome_elem_of.
  assert (Hnames' : ∀ n, n ∈ names → n ∈ keys results)
    by (intros n Hn; apply Hnames; by right).
  destruct reference as [r|].
  2:{ apply IH; [done|]. intros r [= <-]. apply Hnames. left. }
  apply raises_only_bind; [|intros _ _; by apply IH].
  unfold compare_stage.
  apply raises_only_bind; [apply raises_only_getitem; by apply Href|].
  intros vref Hvref.
  destruct (length vref =? length values)%nat eqn:Hlen;
    [|by apply raises_only_raise].
  apply Nat.eqb_eq in Hlen. simpl. unfold for_range.
  apply raises_only_for_range_from. intros i Hi. unfold compare_index.
  apply raises_only_bind; [apply raises_only_getitem; by apply Href|].
  intros vref' Hvref'. assert (vref' = vref) as -> by congruence.
  apply raises_only_bind; [apply raises_only_tuple_index; lia|].
  intros a Ha.
  apply raises_only_bind; [apply raises_only_tuple_index; lia|].
  intros b Hb.
  apply raises_only_bind; [apply raises_only_values_equal_at|].
  intros [] _; [apply raises_only_ret|].
  assert (Hshort : ¬ all_have_index results i →
                   P (IndexError "tuple index out of range")).
  { intros Hnot. apply HI. intros Heq. apply Hnot.
    apply Forall_forall. intros nv Hnv.
    rewrite (Heq nv (name, values) Hnv Hvalues). simpl. lia. }
  apply raises_only_bind; [by apply raises_only_matching_stages|].
  intros rm Hall%matching_stages_all_have_index.
  apply raises_only_bind; [by apply raises_only_matching_stages|].
  intros vm _.
  apply raises_only_bind; [|intros; by apply raises_only_raise].
  intros e. by rewrite (args_text_outcome results).
Qed.

Lemma raises_only_compare_results_function (P : exn → Prop) results args :
  (∀ msg, P (SampleError msg false)) →
  (¬ equal_lengths results → P (IndexError "tuple index out of range")) →
  (¬ assertion_holds results args → P AssertionError) →
  raises_only P (_compare_results_function results args).
Proof.
  intros HS HI HA. rewrite compare_results_function_eq.
  destruct results as [|nv results'] eqn:Hres; [apply raises_only_ret|].
  rewrite <- Hres in *. assert (Hne : results ≠ []) by (by rewrite Hres).
  apply raises_only_bind.
  { intros e. rewrite (assert_batch_length_outcome _ _ Hne).
    destruct (decide (assertion_holds results args)); [done|].
    intros [= <-]. by apply HA. }
  intros [] Hassert. rewrite (assert_batch_length_outcome _ _ Hne) in Hassert.
  destruct (decide (assertion_holds results args)); [|done].
  apply raises_only_compare_loop; try done.
  intros n Hn. by apply sorted_elem_of.
Qed.

(** X4: whatever the mapping and the batch, the function-mode comparator
    ends in one of three exceptions: the failed assertion, an
    [IndexError] of a tuple, or a [SampleError] that is not a timeout;
    reading the batch at the index of a miscompare never fails.  When the
    assertion holds and all stages have the same number of values, the
    exception is a [SampleError]. *)
Theorem function_comparison_error_kinds results args e :
  outcome (_compare_results_function results args) = inl e →
  (e = AssertionError ∨ e = IndexError "tuple index out of range"
   ∨ is_plain_SampleError e)
  ∧ (assertion_holds results args → equal_lengths results →
     is_plain_SampleError e).
Proof.
  intros He. split.
  - revert e He. apply raises_only_compare_results_function.
    + intros msg. right. right. by exists msg.
    + intros _. right. by left.
    + intros _. by left.
  - intros Hassert Heq. revert e He.
    apply raises_only_compare_results_function; [by eexists|done|done].
Qed.
End FunctionModeRaises.

Section ProcModeRaises.
Context {Value : Type} `{!ValueOps Value, !PyStr}.
Implicit Types (results : odict (odict (list Value))).

Lemma raises_only_compare_results_proc results :
  raises_only is_plain_SampleError (_compare_results_proc results).
Proof.
  unfold _compare_results_proc.
  destruct results as [|nv results'] eqn:Hres; [apply raises_only_ret|].
  rewrite <- Hres.
  destruct (sorted (keys results)) as [|reference stages] eqn:Hs.
  { pose proof (sorted_Permutation (keys results)) as Hp. rewrite Hs in Hp.
    apply Permutation_nil_l in Hp. by rewrite Hres in Hp. }
  apply raises_only_bind.
  { apply raises_only_getitem, (sorted_keys_elem_of _ _ _ _ Hs). left. }
  intros ref_channels _.
  apply raises_only_for_each. intros name Hname. unfold compare_stage_proc.
  apply raises_only_bind.
  { apply raises_only_getitem, (sorted_keys_elem_of _ _ _ _ Hs). by right. }
  intros channels _.
  destruct (negb _); [apply raises_only_raise; by eexists|].
  apply raises_only_for_each. intros [c vref] _. unfold compare_channel.
  destruct (odict_get channels c) as [v|];
    [|apply raises_only_raise; by eexists].
  destruct (length vref =? length v)%nat eqn:Hlen;
    [|apply raises_only_raise; by eexists].
  apply Nat.eqb_eq in Hlen. simpl.
  apply raises_only_for_range_from. intros i Hi. unfold compare_channel_index.
  apply raises_only_bind; [apply raises_only_list_index; lia|]. intros a _.
  apply raises_only_bind; [apply raises_only_list_index; lia|]. intros b _.
  apply raises_only_bind; [by intros e|].
  intros [] _; [apply raises_only_ret | apply raises_only_raise; by eexists].
Qed.

(** X5: whatever the mapping, the proc-mode comparator raises nothing but a
    [SampleError] that is not a timeout: no lookup of a stage, a channel
    or an index fails. *)
Theorem proc_comparison_raises_only_SampleError results e :
  outcome (_compare_results_proc results) = inl e → is_plain_SampleError e.
Proof. apply raises_only_compare_results_proc. Qed.
End ProcModeRaises.

(** ** Lines of values *)

Section Lines.
Lemma string_app_cons c (a b : string) : String c a +:+ b = String c (a +:+ b).
Proof. reflexivity. Qed.

Lemma split_lines_from_app cur s1 s2 :
  split_lines_from cur (s1 +:+ nl +:+ s2)
  = split_lines_from cur s1 ++ split_lines s2.
Proof.
  revert cur. induction s1 as [|c s1 IH]; intros cur; [done|].
  rewrite string_app_cons. cbn [split_lines_from].
  destruct (Ascii.eqb c "010").
  - rewrite <- app_comm_cons. f_equal. apply IH.
  - apply IH.
Qed.

Lemma split_lines_app s1 s2 :
  split_lines (s1 +:+ nl +:+ s2) = split_lines s1 ++ split_lines s2.
Proof. apply split_lines_from_app. Qed.

Lemma string_app_assoc (a b c : string) : (a +:+ b) +:+ c = a +:+ (b +:+ c).
Proof. induction a as [|x a IH]; [done|]. by rewrite !string_app_cons, IH. Qed.

Lemma string_app_nil_r (a : string) : a +:+ EmptyString = a.
Proof. induction a as [|x a IH]; [done|]. by rewrite !string_app_cons, IH. Qed.

Lemma split_lines_from_single s : ∀ cur,
  single_line s = true → split_lines_from cur s = [cur +:+ s].
Proof.
  induction s as [|c s IH]; intros cur Hs.
  - by rewrite string_app_nil_r.
  - cbn [single_line] in Hs. apply andb_true_iff in Hs as [Hc Hs].
    cbn [split_lines_from]. apply negb_true_iff in Hc. rewrite Hc.
    rewrite (IH _ Hs), string_app_assoc. done.
Qed.

Lemma split_lines_single s : single_line s = true → split_lines s = [s].
Proof. intros Hs. apply (split_lines_from_single s EmptyString Hs). Qed.

Lemma split_lines_join l :
  l ≠ [] → Forall (λ s, single_line s = true) l →
  split_lines (join nl l) = l.
Proof.
  intros Hne Hl. induction Hl as [|s l Hs Hl IH]; [done|].
  destruct l as [|s' l].
  - by apply split_lines_single.
  - change (join nl (s :: s' :: l)) with (s +:+ nl +:+ join nl (s' :: l)).
    rewrite split_lines_app, (split_lines_single s Hs), IH; done.
Qed.

Lemma map_exn_app {A B} (f : A → exn + B) l1 l2 :
  map_exn f (l1 ++ l2)
  = match map_exn f l1 with
    | inl e => inl e
    | inr ys1 => match map_exn f l2 with
                 | inl e => inl e
                 | inr ys2 => inr (ys1 ++ ys2)
                 end
    end.
Proof.
  induction l1 as [|x l1 IH]; simpl.
  - by destruct (map_exn f l2).
  - destruct (f x) as [e|y]; [done|]. rewrite IH.
    destruct (map_exn f l1) as [e|ys1]; [done|].
    by destruct (map_exn f l2).
Qed.

Lemma map_exn_inr {A B} (f : A → exn + B) (g : A → B) l :
  (∀ x, x ∈ l → f x = inr (g x)) → map_exn f l = inr (g <$> l).
Proof.
  induction l as [|x l IH]; intros Hf; [done|]. simpl.
  rewrite (Hf x) by left. rewrite IH; [done|].
  intros y Hy. apply Hf. by right.
Qed.
End Lines.

Section ParseValues.
Context {Value IRValue : Type}.
Context `{!ValueOps Value, !PyStr, !Toolchain Value IRValue}.

(** X6: parsing is line by line, from the first line on: the values of a
    text are the values of its lines up to a newline followed by the
    values of the rest, and the first line that does not parse decides
    the exception. *)
Theorem parse_values_is_linewise (s1 s2 : string) :
  _parse_values (s1 +:+ nl +:+ s2)
  = match _parse_values s1 with
    | inl e => inl e
    | inr vs1 => match _parse_values s2 with
                 | inl e => inl e
                 | inr vs2 => inr (vs1 ++ vs2)
                 end
    end.
Proof.
  unfold _parse_values.
  by rewrite split_lines_app, fmap_app, filter_app, map_exn_app.
Qed.

Lemma parse_values_join (vs : list Value) :
  str_strip EmptyString = EmptyString →
  Forall codec_round_trips vs →
  _parse_values (join nl (to_ir_str <$> vs)) = inr vs.
Proof.
  intros Hstrip Hvs. unfold _parse_values.
  destruct (decide (vs = [])) as [->|Hne].
  { simpl. rewrite Hstrip. by rewrite filter_cons_False by (by intros []). }
  rewrite split_lines_join.
  2:{ by destruct vs. }
  2:{ apply Forall_fmap. eapply Forall_impl; [done|]. by intros v (? & _). }
  clear Hne. induction Hvs as [|v vs (Hline & Hne & Hparse) Hvs IH]; [done|].
  rewrite !fmap_cons, filter_cons_True by done.
  cbn [map_exn]. by rewrite Hparse, IH.
Qed.

Lemma run_command_eq desc arg0 rest options w :
  _run_command desc (arg0 :: rest) options w
  = ((subprocess_run (command_line (arg0 :: rest)) (timeout_seconds options)).2,
     written (basename arg0 +:+ ".stderr")
       (subprocess_run (command_line (arg0 :: rest)) (timeout_seconds options)).1
       (add_log (Ran (command_line (arg0 :: rest))) w)).
Proof.
  unfold _run_command, command_line.
  destruct (0 <? verbosity)%nat; simpl;
    by destruct (subprocess_run _ _) as [err [e|out]].
Qed.

(** X7: each stage that produces values leaves them in a results file:
    when the evaluation of an IR file or the simulation returns, the
    file [<name>.results] it wrote parses, by [_parse_values], to the
    returned values; the same holds for the file written after the DSLX
    interpretation when the text of every value parses back to it. *)
Theorem results_files_hold_the_returned_values options w vs w' :
  (∀ ir af use_jit,
     _evaluate_ir_function ir af use_jit options w = (inr vs, w') →
     ∃ content, files w' !! (ir +:+ ".results") = Some content
                ∧ _parse_values content = inr vs)
  ∧ (∀ verilog sig af,
       _simulate_function verilog sig af options w = (inr vs, w') →
       ∃ content, files w' !! (verilog +:+ ".results") = Some content
                  ∧ _parse_values content = inr vs)
  ∧ (∀ text top_name batch,
       _interpret_dslx_function text top_name batch w = (inr vs, w') →
       str_strip EmptyString = EmptyString →
       Forall codec_round_trips vs →
       ∃ content, files w' !! "sample.x.results" = Some content
                  ∧ _parse_values content = inr vs).
Proof.
  split; [|split].
  - intros ir af use_jit. unfold _evaluate_ir_function, in_stage.
    rewrite Run_bind_unfold, run_command_eq.
    destruct (subprocess_run _ _) as [err [e|out]]; [done|].
    cbn [fst snd]. rewrite Run_bind_unfold. cbn.
    destruct (_parse_values out) as [e|vs'] eqn:Hparse; [done|].
    intros [= <- <-]. exists out. cbn. by rewrite lookup_insert_eq.
  - intros verilog sig af. unfold _simulate_function, in_stage.
    rewrite Run_bind_unfold. unfold lift at 1.
    destruct (check_simulator _) as [e|[]]; [done|].
    rewrite Run_bind_unfold. cbn [app]. rewrite run_command_eq.
    destruct (subprocess_run _ _) as [err [e|out]]; [done|].
    cbn [fst snd]. rewrite Run_bind_unfold. cbn.
    destruct (_parse_values out) as [e|vs'] eqn:Hparse; [done|].
    intros [= <- <-]. exists out. cbn. by rewrite lookup_insert_eq.
  - intros text top_name batch. unfold _interpret_dslx_function, in_stage.
    rewrite Run_bind_unfold. unfold lift at 1.
    destruct (run_function_batched _ _ _ _) as [e|vs']; [done|].
    cbn. intros [= <- <-] Hstrip Hvs. eexists. cbn.
    rewrite lookup_insert_eq. split; [done|]. by apply parse_values_join.
Qed.
End ParseValues.

(** ** Commands *)

Section Basename.
Lemma basename_from_no_slash name : ∀ acc,
  no_slash name = true → basename_from acc name = acc +:+ name.
Proof.
  induction name as [|c name IH]; intros acc Hname.
  - by rewrite string_app_nil_r.
  - cbn [no_slash] in Hname. apply andb_true_iff in Hname as [Hc Hname].
    apply negb_true_iff in Hc. cbn [basename_from]. rewrite Hc.
    by rewrite (IH _ Hname), string_app_assoc.
Qed.

Lemma basename_from_path dir name : ∀ acc,
  no_slash name = true → basename_from acc (dir +:+ "/" +:+ name) = name.
Proof.
  induction dir as [|c dir IH]; intros acc Hname.
  - change (EmptyString +:+ "/" +:+ name) with (String "/" name).
    cbn [basename_from]. rewrite Ascii.eqb_refl.
    by rewrite basename_from_no_slash.
  - rewrite string_app_cons. cbn [basename_from].
    destruct (Ascii.eqb c "/"); by apply IH.
Qed.

Lemma basename_path dir name :
  no_slash name = true → basename (dir +:+ "/" +:+ name) = name.
Proof. apply basename_from_path. Qed.
End Basename.

Section RunCommand.
Context {Value IRValue : Type}.
Context `{!ValueOps Value, !PyStr, !Toolchain Value IRValue}.

(** X8: a command whose program is [dir/name] is run with [--logtostderr]
    as its last argument and with the timeout of the options.  What it
    wrote to stderr is saved in [name.stderr], whether it succeeded or
    not, and this is the only file [_run_command] itself writes; its
    stdout is returned, and an exception of the subprocess (a non-zero
    exit, a timeout) is raised unchanged. *)
Theorem run_command_saves_stderr desc dir name rest options w :
  no_slash name = true →
  let cmd := command_line ((dir +:+ "/" +:+ name) :: rest) in
  let out := subprocess_run cmd (timeout_seconds options) in
  let r := _run_command desc ((dir +:+ "/" +:+ name) :: rest) options w in
  r.1 = out.2
  ∧ files r.2 !! (name +:+ ".stderr") = Some out.1
  ∧ new_events w r.2 = [Ran cmd; Wrote (name +:+ ".stderr") out.1]
  ∧ last cmd = Some "--logtostderr".
Proof.
  intros Hname cmd out r. subst r. rewrite run_command_eq.
  rewrite (basename_path _ _ Hname).
  fold cmd. fold out. split; [done|].
  split; [cbn; apply lookup_insert_eq|]. split.
  - apply new_events_app. cbn. by rewrite <- app_assoc.
  - subst cmd. unfold command_line. apply last_snoc.
Qed.
End RunCommand.

(** ** The channel inputs of a proc *)

Section Gather.
Context {V : Type}.
Implicit Types d : odict (list V).

Lemma odict_append_spec d k x :
  k ∈ keys d →
  ∃ d', odict_append d k x = inr d' ∧ keys d' = keys d
        ∧ odict_get d' k = (λ l, l ++ [x]) <$> odict_get d k
        ∧ ∀ k', k' ≠ k → odict_get d' k' = odict_get d k'.
Proof.
  unfold keys. induction d as [|[k0 l] d IH]; [by intros ?%elem_of_nil|].
  intros Hk. cbn [odict_append]. destruct (decide (k0 = k)) as [->|Hne].
  - eexists. split; [done|]. split; [done|]. split.
    + cbn. by rewrite !decide_True.
    + intros k' Hk'. cbn. by rewrite !decide_False.
  - rewrite fmap_cons in Hk. apply elem_of_cons in Hk as [?|Hk]; [by subst|].
    destruct (IH Hk) as (d' & -> & Hkeys & Hget & Hother).
    eexists. split; [done|]. split; [by rewrite !fmap_cons, Hkeys|]. split.
    + cbn. by rewrite !decide_False.
    + intros k' Hk'. cbn. case_decide; [done | by apply Hother].
Qed.
End Gather.

Section GatherChannels.
Context {Value : Type}.
Implicit Types d : odict (list Value).

Lemma append_row_spec cells : ∀ d,
  NoDup cells.*1 → (∀ k, k ∈ cells.*1 → k ∈ keys d) →
  ∃ d', append_row d cells = inr d' ∧ keys d' = keys d
        ∧ (∀ k x, (k, x) ∈ cells →
             odict_get d' k = (λ l, l ++ [x]) <$> odict_get d k)
        ∧ (∀ k, k ∉ cells.*1 → odict_get d' k = odict_get d k).
Proof.
  induction cells as [|[k x] cells IH]; intros d Hnd Hin.
  - exists d. split; [done|]. split; [done|]. split; [|done].
    by intros k x ?%elem_of_nil.
  - rewrite fmap_cons in Hnd, Hin. apply NoDup_cons in Hnd as [Hk Hnd].
    cbn [fst] in *.
    destruct (odict_append_spec d k x) as (d1 & Happ & Hkeys1 & Hget1 & Hother1).
    { apply Hin. left. }
    cbn [append_row]. rewrite Happ.
    destruct (IH d1 Hnd) as (d' & -> & Hkeys & Hget & Hother).
    { intros k' Hk'. rewrite Hkeys1. apply Hin. by right. }
    exists d'. split; [done|]. split; [congruence|]. split.
    + intros k' x' [[= -> ->]|Hin']%elem_of_cons.
      * by rewrite (Hother k Hk).
      * rewrite (Hget _ _ Hin'), Hother1; [done|].
        intros ->. apply Hk. apply list_elem_of_fmap. by exists (k, x').
    + intros k' Hk'. rewrite fmap_cons in Hk'.
      apply not_elem_of_cons in Hk' as [Hne Hk'].
      by rewrite (Hother _ Hk'), Hother1.
Qed.

Lemma zip_names_row (names : list string) (row : list Value) :
  length row = length names → (zip names row).*1 = names.
Proof. intros Hlen. apply fst_zip. lia. Qed.

Lemma gather_channels_spec names batch : ∀ d,
  NoDup names → (∀ k, k ∈ names → k ∈ keys d) →
  Forall (λ row, length row = length names) batch →
  ∃ d', gather_channels d names batch = inr d' ∧ keys d' = keys d
        ∧ ∀ j k, names !! j = Some k →
            odict_get d' k = (λ l, l ++ column j batch) <$> odict_get d k.
Proof.
  induction batch as [|row batch IH]; intros d Hnd Hin Hrows.
  - exists d. split; [done|]. split; [done|]. intros j k _.
    unfold column. simpl. destruct (odict_get d k); simpl; [|done].
    by rewrite app_nil_r.
  - apply Forall_cons in Hrows as [Hrow Hrows]. cbn [gather_channels].
    rewrite Hrow, Nat.eqb_refl. cbn [negb].
    destruct (append_row_spec (zip names row) d)
      as (d1 & -> & Hkeys1 & Hget1 & _).
    { by rewrite zip_names_row. }
    { intros k. rewrite zip_names_row by done. apply Hin. }
    destruct (IH d1 Hnd) as (d' & -> & Hkeys & Hget); [|done|].
    { intros k Hk. rewrite Hkeys1. by apply Hin. }
    exists d'. split; [done|]. split; [congruence|]. intros j k Hj.
    destruct (lookup_lt_is_Some_2 row j) as [x Hx].
    { apply lookup_lt_Some in Hj. lia. }
    rewrite (Hget _ _ Hj), (Hget1 k x).
    2:{ apply list_elem_of_lookup. exists j. apply lookup_zip_with_Some.
        by exists k, x. }
    unfold column. cbn [omap list_omap]. rewrite Hx.
    destruct (odict_get d k); simpl; [|done]. by rewrite <- app_assoc.
Qed.

Lemma gather_channels_fails names batch : ∀ d,
  NoDup names → (∀ k, k ∈ names → k ∈ keys d) →
  ¬ Forall (λ row, length row = length names) batch →
  gather_channels d names batch = inl AssertionError.
Proof.
  induction batch as [|row batch IH]; intros d Hnd Hin Hrows.
  - destruct Hrows. constructor.
  - cbn [gather_channels].
    destruct (Nat.eqb_spec (length row) (length names)) as [Hrow|Hrow]; [|done].
    cbn [negb].
    destruct (append_row_spec (zip names row) d)
      as (d1 & -> & Hkeys1 & _).
    { by rewrite zip_names_row. }
    { intros k. rewrite zip_names_row by done. apply Hin. }
    apply IH; [done| |].
    + intros k Hk. rewrite Hkeys1. by apply Hin.
    + intros Hall. apply Hrows. by constructor.
Qed.

Lemma odict_set_fresh {V} (d : odict V) k v :
  k ∉ keys d →
  keys (odict_set d k v) = keys d ++ [k]
  ∧ odict_get (odict_set d k v) k = Some v
  ∧ ∀ k', k' ≠ k → odict_get (odict_set d k v) k' = odict_get d k'.
Proof.
  unfold keys. induction d as [|[k0 v0] d IH]; intros Hk.
  - split; [done|]. split; [cbn; by rewrite decide_True|].
    intros k' Hk'. cbn. by rewrite decide_False.
  - rewrite fmap_cons in Hk. apply not_elem_of_cons in Hk as [Hne Hk].
    cbn [fst] in Hne. destruct (IH Hk) as (Hkeys & Hget & Hother).
    cbn [odict_set]. rewrite decide_False by done.
    split; [by rewrite !fmap_cons, Hkeys|]. split.
    + cbn. by rewrite decide_False.
    + intros k' Hk'. cbn. case_decide; [done | by apply Hother].
Qed.

Lemma empty_channels_from names : ∀ d : odict (list Value),
  NoDup (keys d ++ names) →
  keys (foldl (λ d k, odict_set d k []) d names) = keys d ++ names
  ∧ ∀ k, k ∈ names →
      odict_get (foldl (λ d k, odict_set d k []) d names) k = Some [].
Proof.
  induction names as [|n names IH]; intros d Hnd.
  - split; [by rewrite app_nil_r | by intros k ?%elem_of_nil].
  - cbn [foldl].
    assert (Hn : n ∉ keys d).
    { apply NoDup_app in Hnd as (_ & Hd & _). intros Hin.
      apply (Hd n Hin). left. }
    destruct (odict_set_fresh d n [] Hn) as (Hkeys & Hget & Hother).
    destruct (IH (odict_set d n [])) as (Hkeys' & Hget').
    { rewrite Hkeys, <- app_assoc. done. }
    split; [by rewrite Hkeys', Hkeys, <- app_assoc|].
    intros k [->|Hk]%elem_of_cons; [|by apply Hget'].
    destruct (decide (n ∈ names)) as [Hin|Hnin]; [by apply Hget'|].
    assert (Hfold : ∀ (l : list string) (d0 : odict (list Value)),
              n ∉ l →
              odict_get (foldl (λ d k, odict_set d k []) d0 l) n
              = odict_get d0 n).
    { clear. induction l as [|m l IHl]; intros d0 Hl; [done|].
      apply not_elem_of_cons in Hl as [Hne Hl]. cbn [foldl].
      rewrite (IHl _ Hl). clear IHl.
      induction d0 as [|[k0 v0] d0 IHd]; cbn.
      - by rewrite decide_False.
      - destruct (decide (k0 = m)) as [->|]; cbn.
        + by rewrite !decide_False.
        + case_decide; [done|apply IHd]. }
    by rewrite Hfold.
Qed.

(** X9: [_evaluate_ir_proc] turns the batch, a list of rows with one value
    per channel, into one sequence per channel.  For distinct channel
    names this succeeds exactly when every row has as many values as
    there are names; the channels are then the names, in their order,
    and the channel of the [j]-th name holds the [j]-th value of every
    row, in the order of the rows.  Otherwise the assertion on the row
    length fails; no lookup of a channel does. *)
Theorem channel_inputs_are_the_columns (names : list string)
    (batch : list (list Value)) :
  NoDup names →
  match gather_channels (empty_channels names) names batch with
  | inr d =>
      Forall (λ row, length row = length names) batch
      ∧ keys d = names
      ∧ ∀ j k, names !! j = Some k → odict_get d k = Some (column j batch)
  | inl e =>
      e = AssertionError
      ∧ ¬ Forall (λ row, length row = length names) batch
  end.
Proof.
  intros Hnd. unfold empty_channels.
  destruct (empty_channels_from names []) as (Hkeys & Hget); [done|].
  simpl in Hkeys.
  destruct (decide (Forall (λ row : list Value, length row = length names) batch))
    as [Hrows|Hrows].
  - destruct (gather_channels_spec names batch
                (foldl (λ d k, odict_set d k []) [] names) Hnd)
      as (d' & -> & Hk & Hg); [|done|].
    { intros k Hk. by rewrite Hkeys. }
    split; [done|]. split; [congruence|]. intros j k Hj.
    rewrite (Hg _ _ Hj), Hget; [done|]. by eapply list_elem_of_lookup_2.
  - rewrite gather_channels_fails; [done|done| |done].
    intros k Hk. by rewrite Hkeys.
Qed.
End GatherChannels.

(** ** Files a run leaves alone *)

Section Preserves.
Context (f : string).

Lemma preserves_ret {A} (a : A) : preserves f (mret a).
Proof. by intros w. Qed.

Lemma preserves_raise {A} e : preserves f (raise e : Run A).
Proof. by intros w. Qed.

Lemma preserves_lift {A} (r : exn + A) : preserves f (lift r).
Proof. by intros w. Qed.

Lemma preserves_ran cmd : preserves f (ran cmd).
Proof. by intros w. Qed.

Lemma preserves_bind {A B} (m : Run A) (k : A → Run B) :
  preserves f m → (∀ a, preserves f (k a)) → preserves f (m ≫= k).
Proof.
  intros Hm Hk w. rewrite Run_bind_unfold. specialize (Hm w).
  destruct (m w) as [[e|a] w']; simpl in *; [done|].
  by rewrite (Hk a w').
Qed.

Lemma preserves_in_stage {A} s (body : Run A) :
  preserves f body → preserves f (in_stage s body).
Proof.
  intros Hb w. unfold in_stage. specialize (Hb (add_log (Entered s) w)).
  by destruct (body _) as [[e|a] w'].
Qed.

Lemma preserves_try_except {A} (body : Run A) handler :
  preserves f body → (∀ e, preserves f (handler e)) →
  preserves f (try_except body handler).
Proof.
  intros Hb Hh w. unfold try_except. specialize (Hb w).
  destruct (body w) as [[e|a] w']; simpl in *; [|done].
  by rewrite (Hh e w').
Qed.
End Preserves.

Section PreservesLeaves.
Context {Value IRValue : Type}.
Context `{!ValueOps Value, !PyStr, !Toolchain Value IRValue}.
Context (f : string).

Lemma preserves_write_file g c : g ≠ f → preserves f (_write_file g c).
Proof. intros Hg w. simpl. by rewrite lookup_insert_ne. Qed.

Lemma preserves_read_file g : preserves f (_read_file g).
Proof. intros w. unfold _read_file. by destruct (files w !! g). Qed.

Lemma preserves_call_compare_results_function
    (results : odict (list Value)) args :
  preserves f (call_compare_results_function results args).
Proof. by intros w. Qed.

Lemma preserves_call_compare_results_proc
    (results : odict (odict (list Value))) :
  preserves f (call_compare_results_proc results).
Proof. by intros w. Qed.
End PreservesLeaves.

Ltac preserves_step :=
  lazymatch goal with
  | |- preserves _ (_ ≫= _) => apply preserves_bind; [|intros ?]
  | |- preserves _ (mret _) => apply preserves_ret
  | |- preserves _ (raise _) => apply preserves_raise
  | |- preserves _ (lift _) => apply preserves_lift
  | |- preserves _ (ran _) => apply preserves_ran
  | |- preserves _ (_read_file _) => apply preserves_read_file
  | |- preserves _ (_write_file _ _) => apply preserves_write_file
  | |- preserves _ (in_stage _ _) => apply preserves_in_stage
  | |- preserves _ (call_compare_results_function _ _) =>
      apply preserves_call_compare_results_function
  | |- preserves _ (call_compare_results_proc _) =>
      apply preserves_call_compare_results_proc
  | |- preserves _ (if ?b then _ else _) => destruct b eqn:?
  | |- preserves _ (match ?x with _ => _ end) => destruct x eqn:?
  end.

Ltac preserves_tac_with tac :=
  autounfold with runner; repeat preserves_step; simpl; try done; try tac.

Section EndsWith.
Lemma ends_with_app x t : ends_with t (x +:+ t) = true.
Proof.
  induction x as [|c x IH].
  - change (EmptyString +:+ t) with t.
    destruct t; simpl; [done|]. by rewrite Ascii.eqb_refl, String.eqb_refl.
  - rewrite string_app_cons. cbn [ends_with]. rewrite IH. apply orb_true_r.
Qed.

Lemma is_stage_output_false f :
  is_stage_output f = false →
  f ≠ "sample.ir" ∧ f ≠ "sample.opt.ir" ∧ f ≠ "sample.v" ∧ f ≠ "sample.sv"
  ∧ f ≠ "channel_inputs.txt"
  ∧ (∀ x, f ≠ x +:+ ".results") ∧ (∀ x, f ≠ x +:+ ".stderr").
Proof.
  unfold is_stage_output. rewrite !orb_false_iff, bool_decide_eq_false.
  rewrite !not_elem_of_cons. intros [[Hlist Hres] Herr].
  split_and!; try tauto.
  - intros x ->. by rewrite ends_with_app in Hres.
  - intros x ->. by rewrite ends_with_app in Herr.
Qed.

Lemma is_run_output_false f :
  is_run_output f = false →
  f ≠ "revision.txt" ∧ f ≠ "exception.txt" ∧ is_stage_output f = false.
Proof.
  unfold is_run_output. rewrite orb_false_iff, bool_decide_eq_false.
  rewrite !not_elem_of_cons. tauto.
Qed.
End EndsWith.

Section PreservesRunner.
Context {Value IRValue : Type}.
Context `{!ValueOps Value, !PyStr, !Toolchain Value IRValue}.

Lemma preserves_function_from_ir f options af args_batch results ir :
  f ≠ "sample.opt.ir" → f ≠ "sample.v" → f ≠ "sample.sv" →
  (∀ x, f ≠ x +:+ ".results") → (∀ x, f ≠ x +:+ ".stderr") →
  preserves f (_run_function_from_ir options af args_batch results ir).
Proof.
  intros Hopt Hv Hsv Hres Herr.
  preserves_tac_with ltac:(by destruct (use_system_verilog options)).
Qed.

Lemma preserves_proc_from_ir f options af args_batch names results ir :
  f ≠ "sample.opt.ir" → f ≠ "sample.v" → f ≠ "sample.sv" →
  f ≠ "channel_inputs.txt" →
  (∀ x, f ≠ x +:+ ".results") → (∀ x, f ≠ x +:+ ".stderr") →
  preserves f (_run_proc_from_ir options af args_batch names results ir).
Proof.
  intros Hopt Hv Hsv Hch Hres Herr.
  preserves_tac_with ltac:(by destruct (use_system_verilog options)).
Qed.

Lemma preserves_run_sample f input options af cf pf :
  is_stage_output f = false →
  preserves f (run_sample input options af cf pf).
Proof.
  intros Hf.
  destruct (is_stage_output_false f Hf)
    as (Hir & Hopt & Hv & Hsv & Hch & Hres & Herr).
  unfold run_sample, _run_function, _run_proc, read_optional,
    _interpret_dslx_function, _dslx_to_ir_function, _interpret_dslx_proc,
    _dslx_to_ir_proc, _run_command.
  repeat first
    [ by apply preserves_function_from_ir
    | by apply preserves_proc_from_ir
    | preserves_step ].
  all: try done; intros Heq; by apply (Hres "sample.x").
Qed.

Lemma preserves_run_from_files f input json af cf pf :
  is_run_output f = false →
  preserves f (run_from_files input json af cf pf).
Proof.
  intros Hf. destruct (is_run_output_false f Hf) as (Hrev & Hexn & Hstage).
  unfold run_from_files.
  apply preserves_bind; [apply preserves_read_file|intros text].
  apply preserves_bind; [apply preserves_lift|intros options].
  apply preserves_bind; [by apply preserves_write_file|intros _].
  apply preserves_try_except; [by apply preserves_run_sample|intros e].
  unfold on_exception.
  apply preserves_bind; [by apply preserves_write_file|intros _].
  apply preserves_raise.
Qed.
End PreservesRunner.

(** ** Every outcome of [run_from_files] *)

Section RunFromFiles.
Context {Value IRValue : Type}.
Context `{!ValueOps Value, !PyStr, !Toolchain Value IRValue}.

Lemma emits_run_sample_any input options af cf pf :
  emits (λ _, True) (run_sample input options af cf pf).
Proof. emits_tac. Qed.

(** X10: [run_from_files] ends in one of four ways.  When the options file
    is missing or does not parse, the exception of the read or of the
    parser is raised as it is and nothing is written.  Otherwise
    revision.txt is written, and either the sample runs to its end, the
    run returns and exception.txt is left as it was; or the sample raises
    an exception [e] of any kind, and then the message of [e] is written
    to exception.txt as the last step and the run raises a SampleError
    with that message, a timeout exactly when [e] is a
    subprocess.TimeoutExpired. *)
Theorem every_outcome_of_run_from_files input json af cf pf w :
  let r := run_from_files input json af cf pf w in
  match files w !! json with
  | None => r = (inl (ForeignError (missing_file_text json) None), w)
  | Some text =>
      match options_from_json text with
      | inl e => r = (inl e, w)
      | inr options =>
          match (run_sample input options af cf pf
                   (written "revision.txt" get_revision w)).1 with
          | inl e =>
              r.1 = inl (SampleError (exn_message e) (is_TimeoutExpired e))
              ∧ files r.2 !! "exception.txt" = Some (exn_message e)
              ∧ last (new_events w r.2)
                = Some (Wrote "exception.txt" (exn_message e))
          | inr _ =>
              r.1 = inr ()
              ∧ files r.2 !! "exception.txt" = files w !! "exception.txt"
              ∧ head (new_events w r.2)
                = Some (Wrote "revision.txt" get_revision)
          end
      end
  end.
Proof.
  intros r. subst r. rewrite run_from_files_eq.
  destruct (files w !! json) as [text|]; [|done].
  destruct (options_from_json text) as [e|options]; [done|].
  set (w1 := written "revision.txt" get_revision w). unfold try_except.
  destruct (emits_run_sample_any input options af cf pf w1) as (evs & Hlog & _).
  pose proof (preserves_run_sample "exception.txt" input options af cf pf
                eq_refl w1) as Hfile.
  destruct (run_sample input options af cf pf w1) as [[e|[]] w2];
    cbn [fst snd] in *.
  - rewrite on_exception_eq. cbn [fst snd]. split; [done|].
    split; [cbn; by rewrite lookup_insert_eq|].
    rewrite (new_events_app w _
               ((Wrote "revision.txt" get_revision :: evs)
                ++ [Wrote "exception.txt" (exn_message e)])).
    + apply last_snoc.
    + cbn. rewrite Hlog. cbn. by rewrite <- !app_assoc.
  - split; [done|]. split.
    + rewrite Hfile. cbn. by rewrite lookup_insert_ne.
    + rewrite (new_events_app w _ (Wrote "revision.txt" get_revision :: evs));
        [done|].
      rewrite Hlog. cbn. by rewrite <- !app_assoc.
Qed.
End RunFromFiles.

(** ** What the runner writes *)

Section WritesOnly.
Context {Value IRValue : Type}.
Context `{!ValueOps Value, !PyStr, !Toolchain Value IRValue}.

Lemma is_stage_output_results x : is_stage_output (x +:+ ".results") = true.
Proof.
  unfold is_stage_output. rewrite ends_with_app.
  by rewrite orb_true_r.
Qed.

Lemma is_stage_output_stderr x : is_stage_output (x +:+ ".stderr") = true.
Proof. unfold is_stage_output. rewrite ends_with_app. apply orb_true_r. Qed.

Lemma is_run_output_stage f : is_stage_output f = true → is_run_output f = true.
Proof. unfold is_run_output. intros ->. apply orb_true_r. Qed.

Ltac output_side options :=
  cbn [writes_under];
  first [ apply is_stage_output_results
        | apply is_stage_output_stderr
        | reflexivity
        | by destruct (use_system_verilog options) ].

Lemma writes_function_from_ir options af args_batch results ir :
  emits (writes_under is_stage_output)
    (_run_function_from_ir options af args_batch results ir).
Proof. emits_tac_with ltac:(output_side options). Qed.

Lemma writes_proc_from_ir options af args_batch names results ir :
  emits (writes_under is_stage_output)
    (_run_proc_from_ir options af args_batch names results ir).
Proof. emits_tac_with ltac:(output_side options). Qed.

Lemma writes_run_sample input options af cf pf :
  emits (writes_under is_stage_output) (run_sample input options af cf pf).
Proof.
  unfold run_sample, _run_function, _run_proc, read_optional,
    _interpret_dslx_function, _dslx_to_ir_function, _interpret_dslx_proc,
    _dslx_to_ir_proc, _run_command.
  repeat first
    [ apply writes_function_from_ir
    | apply writes_proc_from_ir
    | emits_step ].
  all: try done; try output_side options.
Qed.

Lemma writes_run_from_files input json af cf pf :
  emits (writes_under is_run_output) (run_from_files input json af cf pf).
Proof.
  unfold run_from_files.
  apply emits_bind; [apply emits_read_file|intros text].
  apply emits_bind; [apply emits_lift|intros options].
  apply emits_bind; [by apply emits_write_file|intros _].
  apply emits_try_except.
  - apply (emits_impl (writes_under is_stage_output)); [|apply writes_run_sample].
    intros [f c| | | |]; cbn; try done. apply is_run_output_stage.
  - intros e. unfold on_exception.
    apply emits_bind; [by apply emits_write_file|intros _].
    apply emits_raise.
Qed.

(** X11: every write of [run_from_files] and of the stages it runs goes
    to one of the runner's own outputs: revision.txt, exception.txt,
    sample.ir, sample.opt.ir, sample.v, sample.sv, channel_inputs.txt, or
    a name that ends in .results or .stderr.  The runner writes under no
    other name, so it overwrites none of the files it was given unless
    they carry such a name. *)
Theorem runner_writes_only_its_outputs input json af cf pf w f c :
  Wrote f c ∈ new_events w (run_from_files input json af cf pf w).2 →
  is_run_output f = true.
Proof.
  intros Hin.
  destruct (writes_run_from_files input json af cf pf w) as (evs & Hlog & HP).
  rewrite (new_events_app w _ _ Hlog) in Hin.
  rewrite Forall_forall in HP. exact (HP _ Hin).
Qed.
End WritesOnly.

(** ** The entry point *)

Section RunEntry.
Context {Value IRValue : Type}.
Context `{!ValueOps Value, !PyStr, !Toolchain Value IRValue, !SampleText Value}.

Lemma files_written f c w : files (written f c w) = <[f := c]> (files w).
Proof. reflexivity. Qed.

Lemma run_eq (smp : Sample.t Value) w :
  run smp w
  = run_from_files (sample_filename smp) "options.json" (args_filename_of smp)
      (ir_channel_names_filename_of smp) (proc_init_values_filename_of smp)
      (with_files (sample_files smp) w).
Proof.
  unfold run, sample_files, sample_filename, args_filename_of,
    ir_channel_names_filename_of, proc_init_values_filename_of, with_files.
  destruct smp as [options input_text args_batch names init]. cbn [Sample.options
    Sample.input_text Sample.args_batch Sample.ir_channel_names
    Sample.proc_init_values].
  by destruct (input_is_dslx options), (truthy_list args_batch), names, init.
Qed.

Lemma sample_files_NoDup (smp : Sample.t Value) : NoDup (sample_files smp).*1.
Proof.
  unfold sample_files, sample_filename.
  destruct (input_is_dslx _), (truthy_list _), (Sample.ir_channel_names smp),
    (Sample.proc_init_values smp); by apply (bool_decide_unpack _).
Qed.

Lemma with_files_lookup l : ∀ w f c,
  NoDup l.*1 → (f, c) ∈ l → files (with_files l w) !! f = Some c.
Proof.
  unfold with_files.
  induction l as [|[g d] l IH] using rev_ind; intros w f c Hnd Hin.
  - by apply elem_of_nil in Hin.
  - rewrite foldl_app. cbn. rewrite fmap_app in Hnd.
    apply NoDup_app in Hnd as (Hnd & Hdisj & _).
    apply elem_of_app in Hin as [Hin|Hin].
    + rewrite lookup_insert_ne; [by apply IH|].
      intros <-. apply (Hdisj g); [|cbn; left].
      apply list_elem_of_fmap. by exists (g, c).
    + apply list_elem_of_singleton in Hin as [= -> ->].
      apply lookup_insert_eq.
Qed.

Lemma with_files_other l : ∀ w f,
  f ∉ l.*1 → files (with_files l w) !! f = files w !! f.
Proof.
  unfold with_files.
  induction l as [|[g d] l IH] using rev_ind; intros w f Hf; [done|].
  rewrite foldl_app. cbn. rewrite fmap_app in Hf.
  apply not_elem_of_app in Hf as [Hf Hg]. cbn in Hg.
  apply not_elem_of_cons in Hg as [Hg _].
  rewrite lookup_insert_ne by done. by apply IH.
Qed.

Lemma options_file_lookup (smp : Sample.t Value) w :
  files (with_files (sample_files smp) w) !! "options.json"
  = Some (to_json (Sample.options smp)).
Proof.
  apply with_files_lookup; [apply sample_files_NoDup|].
  unfold sample_files. cbn [app]. right. left.
Qed.

Lemma sample_files_not_revision (smp : Sample.t Value) :
  "revision.txt" ∉ (sample_files smp).*1.
Proof.
  unfold sample_files, sample_filename.
  destruct (input_is_dslx _), (truthy_list _), (Sample.ir_channel_names smp),
    (Sample.proc_init_values smp);
    by apply (bool_decide_unpack _).
Qed.

(** X12: [run] writes the sample to the run directory and hands the names
    of the files to [run_from_files].  When the options survive the
    round trip through JSON, the sample then runs with its own options,
    in a directory that holds every file of the sample with the content
    [run] gave it, and whatever goes wrong from there on reaches the
    caller as a SampleError. *)
Theorem run_hands_the_sample_over (smp : Sample.t Value) w :
  options_from_json (to_json (Sample.options smp))
  = inr (Sample.options smp) →
  let w1 := written "revision.txt" get_revision
              (with_files (sample_files smp) w) in
  run smp w
  = try_except
      (run_sample (sample_filename smp) (Sample.options smp)
         (args_filename_of smp) (ir_channel_names_filename_of smp)
         (proc_init_values_filename_of smp))
      on_exception w1
  ∧ (∀ f c, (f, c) ∈ sample_files smp → files w1 !! f = Some c)
  ∧ (∀ e, (run smp w).1 = inl e → ∃ msg t, e = SampleError msg t).
Proof.
  intros Hround w1.
  pose proof (options_file_lookup smp w) as Hoptions.
  assert (Heq : run smp w
    = try_except
        (run_sample (sample_filename smp) (Sample.options smp)
           (args_filename_of smp) (ir_channel_names_filename_of smp)
           (proc_init_values_filename_of smp))
        on_exception w1).
  { by rewrite run_eq, run_from_files_eq, Hoptions, Hround. }
  split; [done|]. split.
  - intros f c Hin. subst w1. rewrite files_written, lookup_insert_ne.
    + apply with_files_lookup; [apply sample_files_NoDup|done].
    + intros <-. apply (sample_files_not_revision smp).
      apply list_elem_of_fmap. by exists ("revision.txt", c).
  - intros e. rewrite Heq. unfold try_except.
    destruct (run_sample _ _ _ _ _ w1) as [[e0|[]] w2]; [|done].
    rewrite on_exception_eq. intros [= <-]. eauto.
Qed.

(** X13: the files of the sample outlast the run: every file [run]
    wrote for the sample, other than sample.ir (the options, the
    arguments, the channel names, the initial values, and the code of a
    DSLX sample), is in the run directory with the same content when
    [run] returns or raises.  The runner writes none of them again;
    sample.ir it writes again, with the text it read from it. *)
Theorem run_keeps_the_sample_files (smp : Sample.t Value) w f c :
  (f, c) ∈ sample_files smp →
  f ≠ "sample.ir" →
  files (run smp w).2 !! f = Some c.
Proof.
  intros Hin Hne.
  pose proof (with_files_lookup _ w f c (sample_files_NoDup smp) Hin) as Hw0.
  rewrite run_eq, preserves_run_from_files; [done|].
  revert Hin Hne. unfold sample_files, sample_filename.
  destruct (input_is_dslx _), (truthy_list _), (Sample.ir_channel_names smp),
    (Sample.proc_init_values smp); cbn [app];
    rewrite ?elem_of_cons, ?elem_of_nil;
    intros Hin Hne; destruct_or?;
    apply (f_equal fst) in Hin; cbn [fst] in Hin; subst f; done.
Qed.
End RunEntry.

(** ** Stages and flags *)

Section Gating.
Context {Value IRValue : Type}.
Context `{!ValueOps Value, !PyStr, !Toolchain Value IRValue}.


Ltac enabled_side :=
  unfold enabled; repeat split; intros; try congruence;
  repeat match goal with
         | H : negb ?b = _ |- _ => destruct b; try discriminate H; clear H
         end;
  try done.

Lemma enabled_function_from_ir options af args_batch results ir :
  emits (enabled options af)
    (_run_function_from_ir options af args_batch results ir).
Proof. emits_tac_with enabled_side. Qed.

Lemma enabled_proc_from_ir options af args_batch names results ir :
  emits (enabled options af)
    (_run_proc_from_ir options af args_batch names results ir).
Proof. emits_tac_with enabled_side. Qed.

Lemma enabled_run_sample input options af cf pf :
  emits (enabled options af) (run_sample input options af cf pf).
Proof.
  unfold run_sample, _run_function, _run_proc, read_optional,
    _interpret_dslx_function, _dslx_to_ir_function, _interpret_dslx_proc,
    _dslx_to_ir_proc, _run_command.
  repeat first
    [ apply enabled_function_from_ir
    | apply enabled_proc_from_ir
    | emits_step ].
  all: enabled_side.
Qed.

(** X15: no stage is entered unless the options ask for it, and for every
    stage before it on its path: the DSLX interpreter and the converter
    only on DSLX input (the converter only with [convert_to_ir]), an
    evaluation of IR only with an args file (with the JIT only with
    [use_jit]), the optimizer only with [optimize_ir], the code generator
    only with [optimize_ir] and [codegen], the simulation only with
    these two, [simulate] and an args file. *)
Theorem stages_run_only_when_enabled input options af cf pf w ev :
  ev ∈ new_events w (run_sample input options af cf pf w).2 →
  enabled options af ev.
Proof.
  destruct (enabled_run_sample input options af cf pf w) as (evs & Hlog & HP).
  rewrite (new_events_app _ _ _ Hlog). intros Hin.
  rewrite Forall_forall in HP. by apply HP.
Qed.
End Gating.

(** ** Simulation of a proc *)

Section SimulationEndsIn.
Context (E : exn).

Lemma simulation_ends_in_emits {A} (m : Run A) :
  emits (λ ev, ev ≠ Entered Simulate) m → simulation_ends_in E m.
Proof.
  intros Hm w. destruct (Hm w) as (evs & Hlog & HP). exists evs.
  split; [done|]. intros Hin. rewrite Forall_forall in HP.
  by destruct (HP _ Hin).
Qed.

Lemma simulation_ends_in_bind {A B} (m : Run A) (f : A → Run B) :
  simulation_ends_in E m → (∀ a, simulation_ends_in E (f a)) →
  simulation_ends_in E (m ≫= f).
Proof.
  intros Hm Hf w. rewrite Run_bind_unfold.
  destruct (Hm w) as (evs & Hlog & Hend).
  destruct (m w) as [[e|a] w']; cbn [fst snd] in *.
  { exists evs. split; [done|]. intros Hin. by injection (Hend Hin) as ->. }
  destruct (Hf a w') as (evs' & Hlog' & Hend').
  exists (evs ++ evs'). rewrite Hlog', Hlog, app_assoc. split; [done|].
  intros [Hin|Hin]%elem_of_app; [by specialize (Hend Hin) | by apply Hend'].
Qed.
End SimulationEndsIn.

Section AlwaysRaises.
Lemma always_raises_raise {A} e : always_raises (raise e : Run A).
Proof. intros w. by exists e. Qed.

Lemma always_raises_bind_l {A B} (m : Run A) (f : A → Run B) :
  always_raises m → always_raises (m ≫= f).
Proof.
  intros Hm w. rewrite Run_bind_unfold. destruct (Hm w) as (e & He).
  destruct (m w) as [[e'|a] w']; cbn [fst] in *; [by exists e'|done].
Qed.

Lemma always_raises_bind_r {A B} (m : Run A) (f : A → Run B) :
  (∀ a, always_raises (f a)) → always_raises (m ≫= f).
Proof.
  intros Hf w. rewrite Run_bind_unfold.
  destruct (m w) as [[e'|a] w']; [by exists e'|apply Hf].
Qed.
End AlwaysRaises.

Section ProcSimulation.
Context {Value IRValue : Type}.
Context `{!ValueOps Value, !PyStr, !Toolchain Value IRValue}.

Lemma simulation_ends_in_simulate_proc :
  simulation_ends_in simulation_unsupported
    (_simulate_proc : Run (odict (list Value))).
Proof.
  intros w. eexists. split; [|done].
  unfold _simulate_proc, in_stage. simpl. by rewrite <- app_assoc.
Qed.

Ltac simulation_step :=
  lazymatch goal with
  | |- simulation_ends_in _ _simulate_proc =>
      apply simulation_ends_in_simulate_proc
  | |- simulation_ends_in _ (_ ≫= _) =>
      apply simulation_ends_in_bind; [|intros ?]
  | |- simulation_ends_in _ (if ?b then _ else _) => destruct b eqn:?
  | |- simulation_ends_in _ (match ?x with _ => _ end) => destruct x eqn:?
  | |- simulation_ends_in _ _ => apply simulation_ends_in_emits; emits_tac
  end.

Lemma simulation_ends_in_run_proc input options af cf pf :
  simulation_ends_in simulation_unsupported
    (_run_proc input options af cf pf).
Proof. unfold _run_proc, _run_proc_from_ir. repeat simulation_step. Qed.

Lemma always_raises_simulate_proc :
  always_raises (_simulate_proc : Run (odict (list Value))).
Proof. intros w. by eexists. Qed.

Lemma always_raises_proc_from_ir options af args_batch names results ir :
  optimize_ir options = true → codegen options = true →
  simulate options = true →
  always_raises (_run_proc_from_ir options af args_batch names results ir).
Proof.
  intros Hopt Hcg Hsim. unfold _run_proc_from_ir. rewrite Hopt, Hcg, Hsim.
  apply always_raises_bind_r. intros results1.
  apply always_raises_bind_l.
  apply always_raises_bind_r. intros opt_ir.
  apply always_raises_bind_r. intros results2.
  apply always_raises_bind_r. intros verilog.
  destruct af; [|apply always_raises_raise].
  apply always_raises_bind_l, always_raises_simulate_proc.
Qed.

Lemma always_raises_run_proc input options af cf pf :
  optimize_ir options = true → codegen options = true →
  simulate options = true →
  input_is_dslx options = false ∨ convert_to_ir options = true →
  always_raises (_run_proc input options af cf pf).
Proof.
  intros Hopt Hcg Hsim Hreach. unfold _run_proc.
  apply always_raises_bind_r. intros input_text.
  apply always_raises_bind_r. intros args_batch.
  apply always_raises_bind_r. intros names.
  apply always_raises_bind_r. intros init.
  destruct (input_is_dslx options).
  - destruct Hreach as [?|Hconv]; [done|]. rewrite Hconv.
    apply always_raises_bind_r. intros results. cbn [negb].
    apply always_raises_bind_r. intros ir.
    by apply always_raises_proc_from_ir.
  - apply always_raises_bind_r. intros ir.
    by apply always_raises_proc_from_ir.
Qed.

(** X16: the simulation of a proc is not implemented.  A proc-mode run that
    enters the simulation stage ends in the SampleError `Simulation for
    procs are not supported.'; and with [optimize_ir], [codegen] and
    [simulate] set, a proc-mode run that is not ended early (the input is
    not DSLX, or [convert_to_ir] is set) never returns: it ends in a
    SampleError, at the simulation or before it. *)
Theorem proc_simulation_is_unsupported input json af cf pf w text options :
  files w !! json = Some text →
  options_from_json text = inr options →
  top_type options = TopType_proc →
  let r := run_from_files input json af cf pf w in
  (Entered Simulate ∈ new_events w r.2 →
   r.1 = inl (SampleError "Simulation for procs are not supported." false))
  ∧ (optimize_ir options = true → codegen options = true →
     simulate options = true →
     input_is_dslx options = false ∨ convert_to_ir options = true →
     ∃ msg t, r.1 = inl (SampleError msg t)).
Proof.
  intros Hjson Hoptions Htop r. subst r.
  rewrite run_from_files_eq, Hjson, Hoptions.
  set (w1 := written "revision.txt" get_revision w).
  unfold try_except, run_sample. rewrite Htop. split.
  - destruct (simulation_ends_in_run_proc input options af cf pf w1)
      as (evs & Hlog & Hend).
    destruct (_run_proc input options af cf pf w1) as [[e|[]] w2];
      cbn [fst snd] in *.
    + rewrite on_exception_eq. cbn [fst snd].
      rewrite (new_events_app w _
                 (Wrote "revision.txt" get_revision :: evs
                  ++ [Wrote "exception.txt" (exn_message e)])).
      2:{ cbn. rewrite Hlog. cbn. by rewrite <- !app_assoc. }
      rewrite elem_of_cons, elem_of_app, list_elem_of_singleton.
      intros [?|[Hin|?]]; try done. by injection (Hend Hin) as ->.
    + rewrite (new_events_app w _ (Wrote "revision.txt" get_revision :: evs)).
      2:{ rewrite Hlog. cbn. by rewrite <- !app_assoc. }
      rewrite elem_of_cons. intros [?|Hin]; [done|]. by specialize (Hend Hin).
  - intros Hopt Hcg Hsim Hreach.
    destruct (always_raises_run_proc input options af cf pf
                Hopt Hcg Hsim Hreach w1) as (e & He).
    destruct (_run_proc input options af cf pf w1) as [[e'|[]] w2];
      cbn [fst] in *; [|done].
    rewrite on_exception_eq. eauto.
Qed.
End ProcSimulation.

(** ** What a run that returns has compared *)

Section RunInversion.
Context {A B : Type}.

Lemma Run_bind_inv (m : Run A) (f : A → Run B) w b w' :
  (m ≫= f) w = (inr b, w') →
  ∃ a w1, m w = (inr a, w1) ∧ f a w1 = (inr b, w').
Proof.
  rewrite Run_bind_unfold. destruct (m w) as [[e|a] w1]; [done|]. eauto.
Qed.

Lemma Run_ret_inv (a b : A) w w' :
  (mret a : Run A) w = (inr b, w') → b = a ∧ w' = w.
Proof. by intros [= -> ->]. Qed.

Lemma in_stage_inv s (body : Run A) w a w' :
  in_stage s body w = (inr a, w') →
  body (add_log (Entered s) w) = (inr a, w').
Proof. unfold in_stage. by destruct (body _) as [[e|a'] w1]. Qed.
End RunInversion.

Section OdictSet.
Lemma odict_set_app_fresh {V} (d : odict V) k v :
  k ∉ keys d → odict_set d k v = d ++ [(k, v)].
Proof.
  unfold keys. induction d as [|[k0 v0] d IH]; intros Hk; [done|].
  rewrite fmap_cons in Hk. apply not_elem_of_cons in Hk as [Hne Hk].
  cbn [fst] in Hne. cbn [odict_set]. rewrite decide_False by done.
  by rewrite IH.
Qed.

Lemma keys_app {V} (d d' : odict V) : keys (d ++ d') = keys d ++ keys d'.
Proof. unfold keys. apply fmap_app. Qed.
End OdictSet.

Section Compared.
Context {Value IRValue : Type}.
Context `{!ValueOps Value, !PyStr, !Toolchain Value IRValue}.

Lemma eval_ir_command_eq ir af jit :
  eval_ir_command ir af jit
  = command_line [EVAL_IR_MAIN_PATH; "--input_file=" +:+ af;
                  if jit then "--use_llvm_jit" else "--nouse_llvm_jit"; ir].
Proof.
  unfold eval_ir_command, command_line.
  by destruct (0 <? verbosity)%nat.
Qed.

Lemma run_command_returns desc arg0 rest options w out w' :
  _run_command desc (arg0 :: rest) options w = (inr out, w') →
  (subprocess_run (command_line (arg0 :: rest)) (timeout_seconds options)).2
  = inr out.
Proof. rewrite run_command_eq. by intros [= -> _]. Qed.

Lemma evaluate_ir_function_returns ir af jit options w vs w' :
  _evaluate_ir_function ir af jit options w = (inr vs, w') →
  tool_values (eval_ir_command ir af jit) options = inr vs.
Proof.
  intros Hrun%in_stage_inv.
  apply Run_bind_inv in Hrun as (out & w1 & Hcmd & H1).
  apply Run_bind_inv in H1 as (f & w2 & _ & H2).
  apply run_command_returns in Hcmd.
  unfold tool_values. rewrite eval_ir_command_eq, Hcmd.
  unfold lift in H2. by injection H2 as ->.
Qed.

Lemma simulate_function_returns verilog af options w vs w' :
  _simulate_function verilog "module_sig.textproto" af options w
  = (inr vs, w') →
  tool_values
    (command_line
       ([SIMULATE_MODULE_MAIN_PATH;
         "--signature_file=" +:+ "module_sig.textproto";
         "--args_file=" +:+ af]
        ++ (if truthy_str (simulator options)
            then ["--verilog_simulator="
                  +:+ default EmptyString (simulator options)]
            else [])
        ++ [verilog])) options
  = inr vs.
Proof.
  intros Hrun%in_stage_inv.
  apply Run_bind_inv in Hrun as ([] & w0 & _ & H0).
  apply Run_bind_inv in H0 as (out & w1 & Hcmd & H1).
  apply Run_bind_inv in H1 as (f & w2 & _ & H2).
  cbn [app] in Hcmd. apply run_command_returns in Hcmd.
  unfold tool_values. cbn [app]. rewrite Hcmd.
  unfold lift in H2. by injection H2 as ->.
Qed.

Lemma optimize_ir_returns ir options w f w' :
  _optimize_ir ir options w = (inr f, w') → f = "sample.opt.ir".
Proof.
  intros Hrun%in_stage_inv.
  apply Run_bind_inv in Hrun as (out & w1 & _ & H1). by injection H1 as <- _.
Qed.

Lemma codegen_returns ir args options w f w' :
  _codegen ir args options w = (inr f, w') →
  f = if use_system_verilog options then "sample.sv" else "sample.v".
Proof.
  intros Hrun%in_stage_inv.
  apply Run_bind_inv in Hrun as (out & w1 & _ & H1). by injection H1 as <- _.
Qed.

Lemma call_compare_results_function_returns
    (results : odict (list Value)) args w w' :
  call_compare_results_function results args w = (inr (), w') →
  outcome (_compare_results_function results args) = inr ().
Proof. by intros [= -> _]. Qed.
End Compared.

Ltac run_inv :=
  repeat match goal with
  | H : (_ ≫= _) _ = (inr _, _) |- _ =>
      let a := fresh "a" in let w := fresh "w" in
      let Ha := fresh "Hstep" in let Hr := fresh "Hrest" in
      apply Run_bind_inv in H as (a & w & Ha & Hr)
  | H : mret _ _ = (inr _, _) |- _ =>
      apply Run_ret_inv in H as [-> ->]
  | H : raise _ _ = (inr _, _) |- _ => discriminate H
  end.

Section ComparedTheorem.
Context {Value IRValue : Type}.
Context `{!ValueOps Value, !PyStr, !Toolchain Value IRValue}.

Ltac fresh_key Hfresh :=
  rewrite ?keys_app, ?not_elem_of_app; repeat split;
  first [ apply Hfresh; by apply (bool_decide_unpack _)
        | by apply (bool_decide_unpack _) ].

(** X17: a function-mode run with an args file that returns has compared,
    and found in agreement, one value sequence per evaluation asked for:
    the values parsed from the stdout of eval_ir_main on the unoptimized
    IR with the interpreter, with the JIT under [use_jit], and under
    [optimize_ir] those of eval_ir_main on sample.opt.ir with the JIT
    (under [use_jit]) and with the interpreter, and under [codegen] and
    [simulate] those of simulate_module_main.  They are stored under
    their stage names after the results the run started with, in this
    order, and the comparator returned on that mapping. *)
Theorem a_run_that_returns_has_compared_its_evaluations
    options af args_batch (results0 : odict (list Value)) ir w w' :
  (∀ n, n ∈ (evaluations options af ir).*1 → n ∉ keys results0) →
  _run_function_from_ir options (Some af) args_batch results0 ir w
  = (inr (), w') →
  ∃ evaluated : odict (list Value),
    Forall2 (λ ev nv, nv.1 = ev.1 ∧ tool_values ev.2 options = inr nv.2)
      (evaluations options af ir) evaluated
    ∧ outcome (_compare_results_function (results0 ++ evaluated) args_batch)
      = inr ().
Proof.
  intros Hfresh Hrun. unfold _run_function_from_ir in Hrun.
  unfold evaluations in *.
  destruct (use_jit options) eqn:Hjit, (optimize_ir options) eqn:Hopt,
    (codegen options) eqn:Hcg, (simulate options) eqn:Hsim;
    cbv beta iota in Hrun; run_inv;
    repeat match goal with
    | H : _optimize_ir _ _ _ = (inr _, _) |- _ =>
        apply optimize_ir_returns in H as ->
    | H : _codegen _ _ _ _ = (inr _, _) |- _ =>
        apply codegen_returns in H as ->
    | H : _evaluate_ir_function _ _ _ _ _ = (inr _, _) |- _ =>
        apply evaluate_ir_function_returns in H
    | H : _simulate_function _ _ _ _ _ = (inr _, _) |- _ =>
        apply simulate_function_returns in H
    | H : call_compare_results_function _ _ _ = (inr _, _) |- _ =>
        apply call_compare_results_function_returns in H
    end.
  all: unfold simulate_command; cbn [app andb] in *;
    match goal with
    | Hcmp : outcome (_compare_results_function _ _) = inr () |- _ =>
        rewrite (odict_set_app_fresh results0) in Hcmp by fresh_key Hfresh;
        repeat (rewrite (odict_set_app_fresh (_ ++ _)) in Hcmp
                  by fresh_key Hfresh);
        rewrite <- ?app_assoc in Hcmp; cbn [app] in Hcmp;
        eexists; (split; [|exact Hcmp])
    end;
    repeat (constructor; [by split|]); constructor.
Qed.
End ComparedTheorem.

(** ** Inputs a proc cannot do without *)

Section ProcInputs.
Context {Value IRValue : Type}.
Context `{!ValueOps Value, !PyStr, !Toolchain Value IRValue}.

(** X18: in proc mode two of the optional files are not optional.  A run on
    IR input with an args file but no file of channel names fails when
    it comes to evaluate the IR, and a run on DSLX input that is to be
    converted, without an args file and without a file of initial
    values, fails when it comes to convert it: in both cases iterating
    over [None] raises a TypeError before any tool is run, and the run
    ends in a SampleError with the message of that TypeError. *)
Theorem proc_inputs_that_are_not_optional input json pf cf w text options
    itext :
  files w !! json = Some text →
  options_from_json text = inr options →
  top_type options = TopType_proc →
  let w1 := written "revision.txt" get_revision w in
  files w1 !! input = Some itext →
  (∀ af batch init,
     input_is_dslx options = false →
     read_optional parse_args_batch (Some af) w1 = (inr batch, w1) →
     read_optional parse_proc_init_values pf w1 = (inr init, w1) →
     let r := run_from_files input json (Some af) None pf w in
     r.1 = inl (SampleError "'NoneType' object is not iterable" false)
     ∧ new_events w r.2
       = [Wrote "revision.txt" get_revision; Wrote "sample.ir" itext;
          Entered (EvaluateIr "sample.ir" false);
          Failed (EvaluateIr "sample.ir" false) none_not_iterable;
          Wrote "exception.txt" "'NoneType' object is not iterable"])
  ∧ (∀ names,
       input_is_dslx options = true → convert_to_ir options = true →
       read_optional parse_ir_channel_names cf w1 = (inr names, w1) →
       let r := run_from_files input json None cf None w in
       r.1 = inl (SampleError "'NoneType' object is not iterable" false)
       ∧ new_events w r.2
         = [Wrote "revision.txt" get_revision;
            Entered ConvertToIr;
            Failed ConvertToIr none_not_iterable;
            Wrote "exception.txt" "'NoneType' object is not iterable"]).
Proof.
  intros Hjson Hoptions Htop w1 Hinput. split.
  - intros af batch init Hdslx Hargs Hinit r.
    assert (Hrun : ∃ w',
      r = (inl (SampleError "'NoneType' object is not iterable" false), w')
      ∧ log w' = log w
          ++ [Wrote "revision.txt" get_revision; Wrote "sample.ir" itext;
              Entered (EvaluateIr "sample.ir" false);
              Failed (EvaluateIr "sample.ir" false) none_not_iterable;
              Wrote "exception.txt" "'NoneType' object is not iterable"]).
    { subst r. rewrite run_from_files_eq, Hjson, Hoptions. fold w1.
      unfold try_except, run_sample. rewrite Htop.
      unfold _run_proc. rewrite Hdslx.
      rewrite Run_bind_unfold. unfold _read_file at 1. rewrite Hinput.
      rewrite Run_bind_unfold, Hargs.
      rewrite Run_bind_unfold.
      change (read_optional parse_ir_channel_names None w1) with
        (@inr exn (option (list string)) None, w1).
      cbv beta iota. rewrite Run_bind_unfold, Hinit.
      eexists. split; [reflexivity|]. cbn. by rewrite <- ?app_assoc. }
    destruct Hrun as (w' & -> & Hlog). split; [done|].
    by apply new_events_app.
  - intros names Hdslx Hconv Hnames r.
    assert (Hrun : ∃ w',
      r = (inl (SampleError "'NoneType' object is not iterable" false), w')
      ∧ log w' = log w
          ++ [Wrote "revision.txt" get_revision;
              Entered ConvertToIr;
              Failed ConvertToIr none_not_iterable;
              Wrote "exception.txt" "'NoneType' object is not iterable"]).
    { subst r. rewrite run_from_files_eq, Hjson, Hoptions. fold w1.
      unfold try_except, run_sample. rewrite Htop.
      unfold _run_proc. rewrite Hdslx, Hconv.
      rewrite Run_bind_unfold. unfold _read_file at 1. rewrite Hinput.
      rewrite Run_bind_unfold.
      change (read_optional parse_args_batch None w1) with
        (@inr exn (option (list (list Value))) None, w1).
      cbv beta iota. rewrite Run_bind_unfold, Hnames.
      eexists. split; [reflexivity|]. cbn. by rewrite <- ?app_assoc. }
    destruct Hrun as (w' & -> & Hlog). split; [done|].
    by apply new_events_app.
Qed.
End ProcInputs.

(** ** The order of the stages *)

Section InOrder.
Lemma in_order_weaken {A} (lo hi lo' hi' : nat) (Q Q' : A → Prop)
    (m : Run A) :
  in_order lo hi Q m → (lo' ≤ lo)%nat → (hi ≤ hi')%nat →
  (∀ a, Q a → Q' a) →
  in_order lo' hi' Q' m.
Proof.
  intros Hm Hlo Hhi HQ w.
  destruct (Hm w) as (evs & Hlog & Hsorted & Hbounds & Hle & Hpost).
  exists evs. split_and!; [done|done| |lia|by auto].
  eapply Forall_impl; [done|]. intros r ?. simpl in *. lia.
Qed.

Lemma in_order_upto {A} (lo hi hi' : nat) (Q : A → Prop) (m : Run A) :
  in_order lo hi Q m → (hi ≤ hi')%nat → in_order lo hi' (λ _, True) m.
Proof. intros Hm Hhi. by apply (in_order_weaken lo hi lo hi' Q). Qed.

Lemma in_order_quiet {A} (lo : nat) (m : Run A) :
  emits (λ ev, rank ev = None) m → in_order lo lo (λ _, True) m.
Proof.
  intros Hm w. destruct (Hm w) as (evs & Hlog & HP). exists evs.
  assert (Hnone : omap rank evs = []).
  { clear Hlog. induction HP as [|ev evs Hev _ IH]; [done|].
    cbn. by rewrite Hev. }
  rewrite Hnone. split_and!; try done; constructor.
Qed.

Lemma in_order_bind {A B} (lo mid hi : nat) (Q : A → Prop) (R : B → Prop)
    (m : Run A) (f : A → Run B) :
  in_order lo mid Q m → (∀ a, Q a → in_order mid hi R (f a)) →
  (mid ≤ hi)%nat →
  in_order lo hi R (m ≫= f).
Proof.
  intros Hm Hf Hmid w. rewrite Run_bind_unfold.
  destruct (Hm w) as (evs & Hlog & Hsorted & Hbounds & Hle & Hpost).
  destruct (m w) as [[e|a] w']; cbn [fst snd] in *.
  - exists evs. split_and!; [done|done| |lia|done].
    eapply Forall_impl; [done|]. intros r ?. simpl in *. lia.
  - destruct (Hf a (Hpost a eq_refl) w')
      as (evs' & Hlog' & Hsorted' & Hbounds' & Hle' & Hpost').
    exists (evs ++ evs'). rewrite Hlog', Hlog, app_assoc, omap_app.
    split_and!; [done| | |lia|done].
    + apply StronglySorted_app_2; [|done|done].
      intros r1 r2 Hr1 Hr2. rewrite Forall_forall in Hbounds, Hbounds'.
      specialize (Hbounds _ Hr1). specialize (Hbounds' _ Hr2). lia.
    + apply Forall_app. split.
      * eapply Forall_impl; [exact Hbounds|]. intros r ?. simpl in *. lia.
      * eapply Forall_impl; [exact Hbounds'|]. intros r ?. simpl in *. lia.
Qed.

Lemma in_order_stage {A} (lo r : nat) s (body : Run A) :
  rank (Entered s) = Some r → (lo ≤ r)%nat →
  emits (λ ev, rank ev = None) body →
  in_order lo r (λ _, True) (in_stage s body).
Proof.
  intros Hrank Hlo Hb w. unfold in_stage.
  destruct (Hb (add_log (Entered s) w)) as (evs & Hlog & HP).
  assert (Hnone : omap rank evs = []).
  { clear Hlog. induction HP as [|ev evs Hev _ IH]; [done|].
    cbn. by rewrite Hev. }
  destruct (body _) as [[e|a] w']; simpl in Hlog |- *.
  - exists (Entered s :: evs ++ [Failed s e]). rewrite Hlog.
    split; [by rewrite <- !app_assoc|].
    cbn [omap list_omap]. rewrite Hrank, omap_app, Hnone. cbn.
    split_and!; [repeat constructor| |lia|done].
    constructor; [lia|constructor].
  - exists (Entered s :: evs). rewrite Hlog.
    split; [by rewrite <- !app_assoc|].
    cbn [omap list_omap]. rewrite Hrank, Hnone.
    split_and!; [repeat constructor| |lia|done].
    constructor; [lia|constructor].
Qed.

Lemma in_order_post {A} (lo hi : nat) (Q Q' : A → Prop) (m : Run A) :
  in_order lo hi Q m → (∀ w a w', m w = (inr a, w') → Q' a) →
  in_order lo hi Q' m.
Proof.
  intros Hm HQ w.
  destruct (Hm w) as (evs & Hlog & Hsorted & Hbounds & Hle & Hpost).
  exists evs. split_and!; try done.
  intros a Ha. apply (HQ w a (m w).2). rewrite <- Ha. by destruct (m w).
Qed.
End InOrder.

Section InOrderLeaves.
Context {Value IRValue : Type}.
Context `{!ValueOps Value, !PyStr, !Toolchain Value IRValue}.

Lemma in_order_call_compare_results_function (lo : nat)
    (results : odict (list Value)) args :
  (lo ≤ 7)%nat →
  in_order lo 7 (λ _, True) (call_compare_results_function results args).
Proof.
  intros Hlo w. exists [ComparedResults]. cbn.
  split_and!; [done|repeat constructor| |done|done].
  constructor; [lia|constructor].
Qed.

Lemma in_order_call_compare_results_proc (lo : nat)
    (results : odict (odict (list Value))) :
  (lo ≤ 7)%nat → in_order lo 7 (λ _, True) (call_compare_results_proc results).
Proof.
  intros Hlo w. exists [ComparedResults]. cbn.
  split_and!; [done|repeat constructor| |done|done].
  constructor; [lia|constructor].
Qed.

Lemma in_order_optimize_ir (lo : nat) ir options :
  (lo ≤ 3)%nat →
  in_order lo 3 (λ f, f = "sample.opt.ir") (_optimize_ir ir options).
Proof.
  intros Hlo. eapply in_order_post.
  - unfold _optimize_ir. apply in_order_stage; [done|done|emits_tac].
  - intros w f w'. apply optimize_ir_returns.
Qed.

Lemma in_order_dslx_to_ir_function (lo : nat) input options :
  (lo ≤ 1)%nat →
  in_order lo 1 (λ f, f = "sample.ir") (_dslx_to_ir_function input options).
Proof.
  intros Hlo. eapply in_order_post.
  - unfold _dslx_to_ir_function. apply in_order_stage; [done|done|emits_tac].
  - intros w f w' Hrun%in_stage_inv.
    apply Run_bind_inv in Hrun as (out & w1 & _ & H1). by injection H1 as <- _.
Qed.

Lemma in_order_dslx_to_ir_proc (lo : nat) input init options :
  (lo ≤ 1)%nat →
  in_order lo 1 (λ f, f = "sample.ir") (_dslx_to_ir_proc input init options).
Proof.
  intros Hlo. eapply in_order_post.
  - unfold _dslx_to_ir_proc. apply in_order_stage; [done|done|emits_tac].
  - intros w f w' Hrun%in_stage_inv. destruct init; [|done].
    apply Run_bind_inv in Hrun as (out & w1 & _ & H1). by injection H1 as <- _.
Qed.

Lemma in_order_write_file (lo : nat) f c :
  in_order lo lo (λ g, g = f) (_write_file f c).
Proof.
  eapply in_order_post.
  - apply in_order_quiet. emits_tac.
  - by intros w g w' [= <- _].
Qed.
End InOrderLeaves.

Ltac order_step :=
  lazymatch goal with
  | |- (_ ≤ _)%nat => lia
  | |- ∀ a, _ → in_order _ _ _ _ =>
      let a := fresh "a" in let Ha := fresh "Ha" in
      intros a Ha; cbv beta in Ha; try subst a
  | |- in_order _ _ _ (_ ≫= _) => eapply in_order_bind
  | |- in_order _ _ _ (_optimize_ir _ _) => apply in_order_optimize_ir
  | |- in_order _ _ _ (_dslx_to_ir_function _ _) =>
      apply in_order_dslx_to_ir_function
  | |- in_order _ _ _ (_dslx_to_ir_proc _ _ _) =>
      apply in_order_dslx_to_ir_proc
  | |- in_order _ _ _ (_write_file _ _) => apply in_order_write_file
  | |- in_order _ _ _ (call_compare_results_function _ _) =>
      apply in_order_call_compare_results_function
  | |- in_order _ _ _ (call_compare_results_proc _) =>
      apply in_order_call_compare_results_proc
  | |- in_order _ _ _ (in_stage _ _) =>
      eapply in_order_stage; [cbn; reflexivity| |emits_tac]
  | |- in_order _ _ _ (if ?b then _ else _) => destruct b
  | |- in_order _ _ _ _ => apply in_order_quiet; emits_tac
  end.

Section InOrderRunner.
Context {Value IRValue : Type}.
Context `{!ValueOps Value, !PyStr, !Toolchain Value IRValue}.

Lemma in_order_function_from_ir options af args_batch results :
  in_order 2 7 (λ _, True)
    (_run_function_from_ir options af args_batch results "sample.ir").
Proof.
  unfold _run_function_from_ir, _evaluate_ir_function, _codegen,
    _simulate_function.
  destruct af as [af|], (use_jit options), (optimize_ir options),
    (codegen options), (simulate options);
    (eapply in_order_upto; [repeat order_step|lia]).
Qed.
Lemma in_order_proc_from_ir options af args_batch names results :
  in_order 2 7 (λ _, True)
    (_run_proc_from_ir options af args_batch names results "sample.ir").
Proof.
  unfold _run_proc_from_ir, _evaluate_ir_proc, _codegen, _simulate_proc.
  destruct af as [af|], (use_jit options), (optimize_ir options),
    (codegen options), (simulate options);
    (eapply in_order_upto; [repeat order_step|lia]).
Qed.

Lemma in_order_run_function input options af :
  in_order 0 7 (λ _, True) (_run_function input options af).
Proof.
  unfold _run_function, _interpret_dslx_function.
  destruct (input_is_dslx options), (convert_to_ir options); cbn [negb];
    (eapply in_order_upto;
     [repeat first
        [ eapply (in_order_weaken 2 7);
          [apply in_order_function_from_ir|lia|reflexivity|done]
        | order_step ]
     |lia]).
Qed.

Lemma in_order_run_proc input options af cf pf :
  in_order 0 7 (λ _, True) (_run_proc input options af cf pf).
Proof.
  unfold _run_proc, _interpret_dslx_proc.
  destruct (input_is_dslx options), (convert_to_ir options); cbn [negb];
    (eapply in_order_upto;
     [repeat first
        [ eapply (in_order_weaken 2 7);
          [apply in_order_proc_from_ir|lia|reflexivity|done]
        | order_step ]
     |lia]).
Qed.

(** X19: the stages of a run are entered in the order of the pipeline: the
    DSLX interpretation, the conversion to IR, the evaluations of the
    unoptimized IR, the optimization, the evaluations of sample.opt.ir,
    the code generation, the simulation, and last the comparison.  No
    stage is entered after one that comes later in this order. *)
Theorem stages_are_entered_in_pipeline_order input options af cf pf w :
  StronglySorted le
    (omap rank (new_events w (run_sample input options af cf pf w).2)).
Proof.
  assert (Hrun : in_order 0 7 (λ _, True) (run_sample input options af cf pf)).
  { unfold run_sample. destruct (top_type options);
      [apply in_order_run_function | apply in_order_run_proc]. }
  destruct (Hrun w) as (evs & Hlog & Hsorted & _).
  by rewrite (new_events_app _ _ _ Hlog).
Qed.
End InOrderRunner.

(** ** The reference of a run *)

Section ReferenceOfARun.
Lemma StronglySorted_filter {A} (R : relation A) (P : A → Prop)
    `{!∀ x, Decision (P x)} (l : list A) :
  StronglySorted R l → StronglySorted R (filter P l).
Proof.
  induction 1 as [|x l Hl IH Hx]; [constructor|].
  rewrite filter_cons. case_decide; [|done].
  constructor; [done|].
  apply Forall_forall. intros y [_ Hy]%list_elem_of_filter.
  rewrite Forall_forall in Hx. by apply Hx.
Qed.

Lemma stage_priority_sorted : StronglySorted string_le stage_priority.
Proof.
  unfold stage_priority.
  repeat (constructor; [|repeat (constructor; [by vm_compute|]); constructor]).
  constructor.
Qed.

(** X20: the stages of a run are visited in a fixed order, whatever the
    order in which their results were stored: the evaluations of the
    optimized IR (JIT, then interpreter), those of the unoptimized IR (JIT,
    then interpreter), the DSLX interpretation, the simulation.  The
    reference is the first of these that the run has a result for; the
    DSLX interpretation is the reference only when no IR was evaluated. *)
Theorem stages_are_visited_in_a_fixed_order {V} (results : odict V) :
  odict_wf results →
  (∀ k, k ∈ keys results → k ∈ stage_priority) →
  sorted (keys results) = filter (λ n, n ∈ keys results) stage_priority.
Proof.
  intros Hwf Hnames.
  apply (StronglySorted_unique string_le).
  - apply sorted_StronglySorted.
  - apply StronglySorted_filter, stage_priority_sorted.
  - rewrite sorted_Permutation.
    apply NoDup_Permutation; [done| |].
    + apply NoDup_filter. by apply (bool_decide_unpack _).
    + intros k. rewrite list_elem_of_filter. split; [|tauto].
      intros Hk. split; [done|]. by apply Hnames.
Qed.
End ReferenceOfARun.

(** ** The further theorems at concrete inputs *)

Lemma function_comparison_returns_iff_witness :
  outcome (_compare_results_function results_agreeing None) = inr ()
  ↔ assertion_holds results_agreeing None
    ∧ ∀ n, n ∈ ["b"] → stage_agrees results_agreeing [u8 5; u8 6] n.
Proof.
  apply (function_comparison_returns_iff results_agreeing None "a" ["b"]
           [u8 5; u8 6]).
  - vm_compute. reflexivity.
  - reflexivity.
Defined.

Lemma successful_comparison_is_against_reference_witness :
  comparisons (_compare_results_function results_agreeing None)
  = [Compared "a" "b" None 0; Compared "a" "b" None 1]
  ∧ length (comparisons (_compare_results_function results_agreeing None))
    = 2.
Proof.
  apply (successful_comparison_is_against_reference results_agreeing None
           "a" ["b"] [u8 5; u8 6]).
  - vm_compute. reflexivity.
  - reflexivity.
  - vm_compute. reflexivity.
Defined.

Lemma proc_comparison_returns_iff_witness :
  outcome (_compare_results_proc results_agreeing_channels) = inr ()
  ↔ ∀ n, n ∈ ["b"] →
      stage_agrees_proc results_agreeing_channels [("in", [s8 1])] n.
Proof.
  apply (proc_comparison_returns_iff results_agreeing_channels "a" ["b"]
           [("in", [s8 1])]).
  - vm_compute. reflexivity.
  - reflexivity.
Defined.

Lemma function_comparison_error_kinds_witness :
  (SampleError "Results for a has 2 values, b has 1" false = AssertionError
   ∨ SampleError "Results for a has 2 values, b has 1" false
     = IndexError "tuple index out of range"
   ∨ is_plain_SampleError
       (SampleError "Results for a has 2 values, b has 1" false))
  ∧ (assertion_holds results_long_first None →
     equal_lengths results_long_first →
     is_plain_SampleError
       (SampleError "Results for a has 2 values, b has 1" false)).
Proof.
  apply (function_comparison_error_kinds results_long_first None).
  vm_compute. reflexivity.
Defined.

Lemma proc_comparison_raises_only_SampleError_witness :
  is_plain_SampleError
    (SampleError
       "A channel named out is present in a, but it is not present in b."
       false).
Proof.
  apply (proc_comparison_raises_only_SampleError results_missing_channel).
  vm_compute. reflexivity.
Defined.

Lemma results_files_hold_the_returned_values_witness :
  (∃ content,
     files demo_evaluation.2 !! "sample.ir.results" = Some content
     ∧ _parse_values (Toolchain0 := demo_tools (demo_options false true true))
         content
       = inr [u8 1])
  ∧ (∃ content,
       files demo_interpretation.2 !! "sample.x.results" = Some content
       ∧ _parse_values (Toolchain0 := roundtrip_toolchain) content
         = inr [u8 11]).
Proof.
  split.
  - destruct (results_files_hold_the_returned_values
                (Toolchain0 := demo_tools (demo_options false true true))
                (demo_options false true true) demo_world [u8 1]
                demo_evaluation.2) as (Heval & _ & _).
    apply (Heval "sample.ir" "args.txt" false). vm_compute. reflexivity.
  - destruct (results_files_hold_the_returned_values
                (Toolchain0 := roundtrip_toolchain)
                (demo_options true true true) demo_world [u8 11]
                demo_interpretation.2) as (_ & _ & Hdslx).
    apply (Hdslx "fn main" "main" [[u8 1]]).
    + vm_compute. reflexivity.
    + reflexivity.
    + constructor; [|constructor].
      split; [reflexivity|]. split; [discriminate|reflexivity].
Defined.

Lemma run_command_saves_stderr_witness :
  let r := _run_command (Toolchain0 := demo_tools (demo_options false true true))
             "Optimizing IR" ["xls/tools/opt_main"; "sample.ir"]
             (demo_options false true true) demo_world in
  r.1 = inr "x"
  ∧ files r.2 !! "opt_main.stderr" = Some EmptyString
  ∧ new_events demo_world r.2
    = [Ran ["xls/tools/opt_main"; "sample.ir"; "--logtostderr"];
       Wrote "opt_main.stderr" EmptyString]
  ∧ last ["xls/tools/opt_main"; "sample.ir"; "--logtostderr"]
    = Some "--logtostderr".
Proof.
  apply (run_command_saves_stderr
           (Toolchain0 := demo_tools (demo_options false true true))
           "Optimizing IR" "xls/tools" "opt_main" ["sample.ir"]
           (demo_options false true true) demo_world).
  reflexivity.
Defined.

Lemma channel_inputs_are_the_columns_witness :
  match gather_channels (empty_channels ["a"; "b"]) ["a"; "b"]
          [[u8 1; u8 2]; [u8 3; u8 4]] with
  | inr d =>
      Forall (λ row, length row = 2) [[u8 1; u8 2]; [u8 3; u8 4]]
      ∧ keys d = ["a"; "b"]
      ∧ ∀ j k, ["a"; "b"] !! j = Some k →
          odict_get d k = Some (column j [[u8 1; u8 2]; [u8 3; u8 4]])
  | inl e =>
      e = AssertionError
      ∧ ¬ Forall (λ row, length row = 2) [[u8 1; u8 2]; [u8 3; u8 4]]
  end.
Proof.
  apply (channel_inputs_are_the_columns ["a"; "b"]
           [[u8 1; u8 2]; [u8 3; u8 4]]).
  apply (bool_decide_unpack _). vm_compute. exact I.
Defined.

Lemma runner_writes_only_its_outputs_witness :
  Wrote "eval_proc_main.stderr" EmptyString
    ∈ new_events demo_proc_world demo_proc_run.2
  ∧ is_run_output "eval_proc_main.stderr" = true.
Proof.
  assert (Hin : Wrote "eval_proc_main.stderr" EmptyString
                  ∈ new_events demo_proc_world demo_proc_run.2).
  { apply elem_of_unpack. vm_compute. reflexivity. }
  split; [exact Hin|].
  exact (runner_writes_only_its_outputs
           (Toolchain0 := demo_tools (demo_proc_options false))
           "sample.ir" "options.json" (Some "args.txt")
           (Some "ir_channel_names.txt") None demo_proc_world
           "eval_proc_main.stderr" EmptyString Hin).
Defined.

Lemma run_hands_the_sample_over_witness :
  files (written "revision.txt" "r0"
           (with_files (sample_files (SampleText0 := demo_SampleText) demo_sample)
              empty_world)) !! "args.txt"
  = Some "a"
  ∧ ∀ e, demo_sample_run.1 = inl e → ∃ msg t, e = SampleError msg t.
Proof.
  destruct (run_hands_the_sample_over
              (Toolchain0 := demo_tools (demo_options false true true))
              (SampleText0 := demo_SampleText) demo_sample empty_world)
    as (_ & Hfiles & Hraises); [reflexivity|].
  split; [|exact Hraises].
  apply (Hfiles "args.txt" "a"). right. right. left.
Defined.

Lemma run_keeps_the_sample_files_witness :
  files demo_sample_run.2 !! "args.txt" = Some "a".
Proof.
  apply (run_keeps_the_sample_files
           (Toolchain0 := demo_tools (demo_options false true true))
           (SampleText0 := demo_SampleText) demo_sample empty_world).
  - right. right. left.
  - discriminate.
Defined.


Lemma stages_run_only_when_enabled_witness :
  enabled (demo_options false true true) (Some "args.txt") (Entered Simulate).
Proof.
  apply (stages_run_only_when_enabled
           (Toolchain0 := demo_tools (demo_options false true true))
           "sample.ir" (demo_options false true true) (Some "args.txt")
           None None demo_world).
  apply elem_of_unpack. vm_compute. reflexivity.
Defined.

Lemma proc_simulation_is_unsupported_witness :
  demo_proc_run.1
  = inl (SampleError "Simulation for procs are not supported." false).
Proof.
  destruct (proc_simulation_is_unsupported
              (Toolchain0 := demo_tools (demo_proc_options false))
              "sample.ir" "options.json" (Some "args.txt")
              (Some "ir_channel_names.txt") None demo_proc_world "{}"
              (demo_proc_options false)) as (Hsim & _).
  - vm_compute. reflexivity.
  - reflexivity.
  - reflexivity.
  - apply Hsim. apply elem_of_unpack. vm_compute. reflexivity.
Defined.

Lemma a_run_that_returns_has_compared_its_evaluations_witness :
  ∃ evaluated : list (string * list SpecValue),
    Forall2 (λ ev nv,
               nv.1 = ev.1
               ∧ tool_values
                   (Toolchain0 := demo_tools (demo_options false true true))
                   ev.2 (demo_options false true true)
                 = inr nv.2)
      (evaluations (Toolchain0 := demo_tools (demo_options false true true))
         (demo_options false true true) "args.txt" "sample.ir")
      evaluated
    ∧ outcome (_compare_results_function ([] ++ evaluated) (Some [[u8 1]]))
      = inr ().
Proof.
  apply (a_run_that_returns_has_compared_its_evaluations
           (Toolchain0 := demo_tools (demo_options false true true))
           (demo_options false true true) "args.txt" (Some [[u8 1]]) []
           "sample.ir" demo_world demo_function_run.2).
  - intros n _ Hn. by apply elem_of_nil in Hn.
  - vm_compute. reflexivity.
Defined.

Lemma proc_inputs_that_are_not_optional_witness :
  (run_from_files (Toolchain0 := demo_tools (demo_proc_options false))
     "sample.ir" "options.json" (Some "args.txt") None None demo_world).1
  = inl (SampleError "'NoneType' object is not iterable" false).
Proof.
  destruct (proc_inputs_that_are_not_optional
              (Toolchain0 := demo_tools (demo_proc_options false))
              "sample.ir" "options.json" None None demo_world "{}"
              (demo_proc_options false) "package p") as (Hnames & _).
  - vm_compute. reflexivity.
  - reflexivity.
  - reflexivity.
  - vm_compute. reflexivity.
  - destruct (Hnames "args.txt" (Some [[u8 1]]) None) as (Hout & _).
    + reflexivity.
    + vm_compute. reflexivity.
    + vm_compute. reflexivity.
    + exact Hout.
Defined.

Lemma stages_are_visited_in_a_fixed_order_witness :
  sorted (keys results_of_a_run)
  = ["evaluated opt IR (JIT)"; "evaluated unopt IR (interpreter)";
     "interpreted DSLX"; "simulated"].
Proof.
  rewrite (stages_are_visited_in_a_fixed_order results_of_a_run).
  - vm_compute. reflexivity.
  - apply (bool_decide_unpack _). vm_compute. exact I.
  - intros k Hk. vm_compute in Hk.
    repeat (apply elem_of_cons in Hk as [->|Hk];
            [apply elem_of_unpack; vm_compute; reflexivity|]).
    by apply elem_of_nil in Hk.
Defined.
